(** * NITLang interpreter: a shallow embedding of [interpreter.py]

    The evaluator of the repository is a tree walker over the AST of
    [ast_nodes.py].  Python objects with identity ([Cell], [Instance],
    [Environment]) live in three stores indexed by allocation order, so that
    aliasing and in-place mutation are visible.  Exceptions are values of an
    error type with one constructor per [raise] site, and one for the
    ValueError of the host's conversion of a long int; a computation returns
    its outcome together with the store it leaves behind, also when it
    raises. *)

From stdpp Require Import base option list gmap strings pretty.
From Stdlib Require Import ZArith Lia.

Local Open Scope string_scope.
Local Open Scope list_scope.
Local Open Scope nat_scope.

(** ** token_types.py *)

Inductive TokenType :=
  | NUMBER | IDENTIFIER
  | FUNC | IF | THEN | ELSE | LET | IN
  | PLUS | MINUS | MULTIPLY | DIVIDE | EQUALS | ASSIGN
  | LPAREN | RPAREN | COMMA | HASH | LBRACE | RBRACE
  | COLON_ASSIGN | REF | DEREF
  | COLON | STRING | BOOL
  | CLASS | NEW | DOT
  | EOF.

(** ** ast_nodes.py *)

Record FieldDef := mkFieldDef {
  field_name : string;
  field_type_annotation : option string
}.

Local Unset Elimination Schemes.

(** [RefExpr] and [DerefExpr] hold an [Identifier] node of which the evaluator
    reads the name only; they carry that name.  A function declaration is a
    node of its own and also the element of a class's method list. *)
Inductive node :=
  | Number (value : Z)
  | BoolLiteral (value : bool)
  | StringLiteral (value : string)
  | BinaryOp (left : node) (operator : TokenType) (right : node)
  | RefExpr (identifier : string)
  | DerefExpr (identifier : string)
  | RefAssign (ref : node) (value : node)
  | Identifier (name : string)
  | FunctionDefNode (fd : FunctionDef)
  | FunctionCall (name : string) (arguments : list node)
  | IfExpr (condition true_branch false_branch : node)
  | Comparison (left : node) (operator : TokenType) (right : node)
  | LetStatement (name : string) (type_annotation : option string) (value : node)
  | LetExpression (name : string) (type_annotation : option string)
                  (value : node) (body : node)
  | Block (statements : list node)
  | ClassDefNode (cd : ClassDef)
  | NewExpr (class_name : string) (arguments : list node)
  | MemberAccess (obj : node) (member_name : string)
  | MethodCall (obj : node) (method_name : string) (arguments : list node)
  | Assign (target : node) (value : node)
with FunctionDef :=
  | mkFunctionDef (name : string) (params : list string) (body : node)
with ClassDef :=
  | mkClassDef (name : string) (fields : list FieldDef) (methods : list FunctionDef).

Local Set Elimination Schemes.

Definition fd_name (fd : FunctionDef) : string :=
  match fd with mkFunctionDef n _ _ => n end.
Definition fd_params (fd : FunctionDef) : list string :=
  match fd with mkFunctionDef _ ps _ => ps end.
Definition fd_body (fd : FunctionDef) : node :=
  match fd with mkFunctionDef _ _ b => b end.

Definition cd_name (cd : ClassDef) : string :=
  match cd with mkClassDef n _ _ => n end.
Definition cd_fields (cd : ClassDef) : list FieldDef :=
  match cd with mkClassDef _ fs _ => fs end.
Definition cd_methods (cd : ClassDef) : list FunctionDef :=
  match cd with mkClassDef _ _ ms => ms end.

(** ** Runtime values and the stores *)

(** A runtime value: a Python [int], [bool], [str], [None], a reference to an
    [Instance] object or a reference to a [Cell] object. *)
Inductive value :=
  | VInt (z : Z)
  | VBool (b : bool)
  | VStr (s : string)
  | VNone
  | VInstance (i : nat)
  | VCell (l : nat).

(** [type(v)] of the host language: every instance has the one host class
    [Instance], whatever NITLang class it was built from. *)
Inductive pytype := TInt | TBool | TStr | TNoneType | TInstance | TCell.

Definition type_of (v : value) : pytype :=
  match v with
  | VInt _ => TInt
  | VBool _ => TBool
  | VStr _ => TStr
  | VNone => TNoneType
  | VInstance _ => TInstance
  | VCell _ => TCell
  end.

Global Instance pytype_eq_dec : EqDecision pytype.
Proof. solve_decision. Defined.
Global Instance value_eq_dec : EqDecision value.
Proof. solve_decision. Defined.

(** [class Instance]: the class declaration and the dict [fields], kept in
    insertion order (its [repr] shows the order). *)
Record Instance := mkInstance {
  class_def : ClassDef;
  inst_fields : list (string * nat)
}.

(** [class Environment] *)
Record Environment := mkEnvironment {
  parent : option nat;
  functions : gmap string FunctionDef;
  variables : gmap string nat;
  classes : gmap string ClassDef
}.

(** The interpreter object and the objects reachable from it.  [global_env]
    is the first environment ever allocated and is never reassigned. *)
Record state := mkState {
  envs : list Environment;
  cells : list value;
  instances : list Instance;
  current_env : nat
}.

Definition global_env : nat := 0.

Definition Environment_new (p : option nat) : Environment :=
  mkEnvironment p ∅ ∅ ∅.

(** [Interpreter.__init__] *)
Definition init_state : state :=
  mkState [Environment_new None] [] [] global_env.

(** ** Errors: one constructor per [raise Exception(...)] of the source, and
    [IntStrDigitsLimit] for the ValueError of the host's [str] on an int of
    more than 4300 digits *)

Inductive error :=
  | UndefinedFunction (name : string)
  | UndefinedClass (name : string)
  | UndefinedVariable (name : string)
  | UndefinedVariableOrField (name : string)
  | TypeErrorExpected (expected actual : string)
  | TypeErrorArithLeft (actual : string)
  | TypeErrorArithRight (actual : string)
  | DivisionByZero
  | UnknownBinaryOperator (op : TokenType)
  | TypeErrorComparison (l r : string)
  | UnknownComparisonOperator (op : TokenType)
  | TypeErrorIfCondition (actual : string)
  | FunctionArity (name : string) (expected got : nat)
  | RefAssignNotCell
  | ConstructorArity (cname : string) (expected got : nat)
  | NoInitButArguments (cname : string)
  | MemberAccessNonObject
  | UnknownField (fname cname : string)
  | MethodCallNonObject
  | UndefinedMethod (mname cname : string)
  | MethodArity (mname : string) (expected got : nat)
  | TypeErrorField (fname cname expected actual : string)
  | MemberAssignNonObject
  | InvalidAssignTarget
  | IntStrDigitsLimit.

(** The messages that start with "Type error". *)
Definition is_type_error (e : error) : bool :=
  match e with
  | TypeErrorExpected _ _ | TypeErrorArithLeft _ | TypeErrorArithRight _
  | TypeErrorComparison _ _ | TypeErrorIfCondition _
  | TypeErrorField _ _ _ _ => true
  | _ => false
  end.

(** ** The evaluation monad: state, exceptions and fuel *)

Inductive outcome (A : Type) :=
  | Ok (a : A)
  | Err (e : error)
  | Timeout.
Arguments Ok {A} a.
Arguments Err {A} e.
Arguments Timeout {A}.

Definition M (A : Type) : Type := state → outcome A * state.

Definition ret {A} (a : A) : M A := λ s, (Ok a, s).
Definition raise {A} (e : error) : M A := λ s, (Err e, s).
Definition timeout {A} : M A := λ s, (Timeout, s).

Definition bind {A B} (m : M A) (k : A → M B) : M B :=
  λ s, match m s with
       | (Ok a, s') => k a s'
       | (Err e, s') => (Err e, s')
       | (Timeout, s') => (Timeout, s')
       end.

(** [try: m except Exception: h].  Running out of fuel is not an exception of
    the source; it passes through the handler. *)
Definition try_except {A} (m : M A) (h : M A) : M A :=
  λ s, match m s with
       | (Err _, s') => h s'
       | r => r
       end.

(** [try: m finally: f], for an [f] that cannot raise *)
Definition try_finally {A} (m : M A) (f : state → state) : M A :=
  λ s, let r := m s in (r.1, f r.2).

Definition get_state : M state := λ s, (Ok s, s).
Definition modify (f : state → state) : M unit := λ s, (Ok tt, f s).

Declare Scope eval_scope.
Delimit Scope eval_scope with eval.
Notation "x <- m ;; k" := (bind m (λ x, k))
  (at level 100, m at next level, right associativity) : eval_scope.
Notation "m ;;; k" := (bind m (λ _, k))
  (at level 100, right associativity) : eval_scope.
Local Open Scope eval_scope.

(** ** Store access *)

(** References are created by allocation only, so a reachable state has no
    dangling one; a dangling reference reads as a default object. *)
Definition cell_value (s : state) (l : nat) : value :=
  default VNone (cells s !! l).

Definition get_instance (s : state) (i : nat) : Instance :=
  default (mkInstance (mkClassDef "" [] []) []) (instances s !! i).

Definition set_cells (f : list value → list value) (s : state) : state :=
  mkState (envs s) (f (cells s)) (instances s) (current_env s).
Definition set_envs (f : list Environment → list Environment) (s : state) : state :=
  mkState (f (envs s)) (cells s) (instances s) (current_env s).
Definition set_instances (f : list Instance → list Instance) (s : state) : state :=
  mkState (envs s) (cells s) (f (instances s)) (current_env s).
Definition set_current_env (e : nat) (s : state) : state :=
  mkState (envs s) (cells s) (instances s) e.

(** [Cell(value)] *)
Definition Cell_new (v : value) : M nat :=
  λ s, (Ok (length (cells s)), set_cells (λ cs, cs ++ [v]) s).
(** [cell.value] *)
Definition read_cell (l : nat) : M value := λ s, (Ok (cell_value s l), s).
(** [cell.value = v] *)
Definition write_cell (l : nat) (v : value) : M unit :=
  modify (set_cells (λ cs, <[l:=v]> cs)).

(** [Environment(parent=p)] *)
Definition Environment_alloc (p : option nat) : M nat :=
  λ s, (Ok (length (envs s)), set_envs (λ es, es ++ [Environment_new p]) s).

(** [self.current_env] *)
Definition cur_env : M nat := λ s, (Ok (current_env s), s).

(** Python dict with insertion order: [d[k] = v] and [d.get(k)] *)
Fixpoint dict_set (d : list (string * nat)) (k : string) (v : nat) : list (string * nat) :=
  match d with
  | [] => [(k, v)]
  | (k', v') :: d' =>
      if decide (k' = k) then (k, v) :: d' else (k', v') :: dict_set d' k v
  end.

Fixpoint dict_get (d : list (string * nat)) (k : string) : option nat :=
  match d with
  | [] => None
  | (k', v') :: d' => if decide (k' = k) then Some v' else dict_get d' k
  end.

(** [Instance(class_def)] *)
Definition Instance_alloc (cd : ClassDef) : M nat :=
  λ s, (Ok (length (instances s)),
        set_instances (λ xs, xs ++ [mkInstance cd []]) s).

(** [inst.fields[name] = cell] *)
Definition set_field (i : nat) (name : string) (l : nat) : M unit :=
  modify (set_instances
    (alter (λ inst, mkInstance (class_def inst) (dict_set (inst_fields inst) name l)) i)).

Definition inst_of (i : nat) : M Instance := λ s, (Ok (get_instance s i), s).

(** ** class Environment *)

Definition with_functions (f : gmap string FunctionDef → gmap string FunctionDef)
    (e : Environment) : Environment :=
  mkEnvironment (parent e) (f (functions e)) (variables e) (classes e).
Definition with_variables (f : gmap string nat → gmap string nat)
    (e : Environment) : Environment :=
  mkEnvironment (parent e) (functions e) (f (variables e)) (classes e).
Definition with_classes (f : gmap string ClassDef → gmap string ClassDef)
    (e : Environment) : Environment :=
  mkEnvironment (parent e) (functions e) (variables e) (f (classes e)).

Definition define_function (env : nat) (name : string) (func_def : FunctionDef) : M unit :=
  modify (set_envs (alter (with_functions (insert name func_def)) env)).

Definition define_class (env : nat) (name : string) (cd : ClassDef) : M unit :=
  modify (set_envs (alter (with_classes (insert name cd)) env)).

(** The three getters walk the parent chain.  A chain without a cycle visits
    each environment at most once, so the number of environments bounds the
    walk; on a cyclic chain the source does not return.  A parent is an
    object reference in the source, so it always exists; an index without an
    environment ends the walk like a missing parent. *)
Section lookup.
Context {A : Type} (dict : Environment → gmap string A) (undefined : error).

Fixpoint lookup_chain (fuel : nat) (es : list Environment) (env : nat)
    (name : string) : outcome A :=
  match fuel with
  | O => Timeout
  | S n =>
      match es !! env with
      | None => Err undefined
      | Some e =>
          match dict e !! name with
          | Some x => Ok x
          | None =>
              match parent e with
              | Some p => lookup_chain n es p name
              | None => Err undefined
              end
          end
      end
  end.
End lookup.

Definition get_function (env : nat) (name : string) : M FunctionDef :=
  λ s, (lookup_chain functions (UndefinedFunction name)
          (length (envs s)) (envs s) env name, s).

Definition get_class (env : nat) (name : string) : M ClassDef :=
  λ s, (lookup_chain classes (UndefinedClass name)
          (length (envs s)) (envs s) env name, s).

Definition get_cell (env : nat) (name : string) : M nat :=
  λ s, (lookup_chain variables (UndefinedVariable name)
          (length (envs s)) (envs s) env name, s).

Definition define_variable (env : nat) (name : string) (v : value) : M unit :=
  match v with
  | VCell l => modify (set_envs (alter (with_variables (insert name l)) env))
  | _ =>
      l <- Cell_new v;;
      modify (set_envs (alter (with_variables (insert name l)) env))
  end.

(** [for name, value in zip(names, values): env.define_variable(name, value)] *)
Fixpoint define_variables (env : nat) (bs : list (string * value)) : M unit :=
  match bs with
  | [] => ret tt
  | (name, v) :: bs' => define_variable env name v;;; define_variables env bs'
  end.

(** ** Interpreter helpers *)

Definition unwrap_in (s : state) (v : value) : value :=
  match v with
  | VCell l => cell_value s l
  | _ => v
  end.

Definition _unwrap (v : value) : M value := λ s, (Ok (unwrap_in s v), s).

Definition type_name_in (s : state) (v : value) : string :=
  let v := unwrap_in s v in
  match v with
  | VBool _ => "bool"
  | VInt _ => "int"
  | VStr _ => "string"
  | VInstance i => cd_name (class_def (get_instance s i))
  | _ => "unknown"
  end.

Definition _type_name (v : value) : M string := λ s, (Ok (type_name_in s v), s).

Definition default_value_for_type (tname : option string) : value :=
  match tname with
  | Some "int" => VInt 0
  | Some "bool" => VBool false
  | Some "string" => VStr ""
  | _ => VNone
  end.

Definition check_type (annotation : option string) (v : value) : M unit :=
  match annotation with
  | None => ret tt
  | Some ann =>
      actual <- _type_name v;;
      if decide (actual ≠ ann) then raise (TypeErrorExpected ann actual) else ret tt
  end.

(** [str(z)] of an int.  CPython, from version 3.11 on, refuses to convert an
    int of more than 4300 decimal digits and raises ValueError. *)
Definition int_max_str_digits : Z := 4300.

Definition int_str_limit : Z := (10 ^ int_max_str_digits)%Z.

Definition str_int (z : Z) : outcome string :=
  if decide (Z.abs z < int_str_limit)%Z then Ok (pretty z)
  else Err IntStrDigitsLimit.

(** Sequencing of outcomes, and the items of a dict in insertion order: the
    first item that does not render ends the rendering. *)
Definition outcome_bind {A B} (o : outcome A) (k : A → outcome B) : outcome B :=
  match o with
  | Ok a => k a
  | Err e => Err e
  | Timeout => Timeout
  end.

Fixpoint outcome_mapM {A B} (f : A → outcome B) (l : list A) : outcome (list B) :=
  match l with
  | [] => Ok []
  | a :: rest =>
      outcome_bind (f a) (λ b,
        outcome_bind (outcome_mapM f rest) (λ bs, Ok (b :: bs)))
  end.

(** [str(v)], as the f-string of [visit_LetStatement] formats the bound
    value.  An instance prints through [Instance.__repr__] and
    [Cell.__repr__], which recurse through the fields; the fuel is the depth
    the host lets that recursion reach.  On an object graph with a cycle the
    recursion has no end: the host stops it with RecursionError at whatever
    depth it allows, and the rendering runs out of every fuel.  Field names
    are lexer identifiers, whose [repr] is the name between single quotes. *)
Fixpoint py_str (fuel : nat) (s : state) (v : value) : outcome string :=
  match v with
  | VInt z => str_int z
  | VBool b => Ok (if b then "True" else "False")
  | VStr t => Ok t
  | VNone => Ok "None"
  | VCell l =>
      match fuel with
      | O => Timeout
      | S n =>
          outcome_bind (py_str n s (cell_value s l)) (λ t,
            Ok ("Cell(" +:+ t +:+ ")"))
      end
  | VInstance i =>
      match fuel with
      | O => Timeout
      | S n =>
          let inst := get_instance s i in
          outcome_bind
            (outcome_mapM (λ kv : string * nat,
                             outcome_bind (py_str n s (VCell kv.2)) (λ t,
                               Ok ("'" +:+ kv.1 +:+ "': " +:+ t)))
                          (inst_fields inst))
            (λ items,
               Ok ("<Instance " +:+ cd_name (class_def inst) +:+ " {"
                   +:+ String.concat ", " items +:+ "}>"))
      end
  end.

Definition format_value (fuel : nat) (v : value) : M string :=
  λ s, (py_str fuel s v, s).

Definition _find_method (cd : ClassDef) (name : string) : option FunctionDef :=
  List.find (λ m, bool_decide (fd_name m = name)) (cd_methods cd).

Definition _find_field_def (cd : ClassDef) (fname : string) : option FieldDef :=
  List.find (λ f, bool_decide (field_name f = fname)) (cd_fields cd).

(** Truth value of [field_def and field_def.type_annotation]: the declared
    annotation when there is a non-empty one. *)
Definition declared_annotation (fdef : option FieldDef) : option string :=
  match fdef with
  | Some f =>
      match field_type_annotation f with
      | Some "" => None
      | a => a
      end
  | None => None
  end.

(** ** The visitors.  Each takes [visit], the dispatcher it recurses through. *)
Section visitors.
Variable visit : node → M value.

(** [[self.visit(a) for a in arguments]] *)
Fixpoint visit_all (args : list node) : M (list value) :=
  match args with
  | [] => ret []
  | a :: rest => v <- visit a;; vs <- visit_all rest;; ret (v :: vs)
  end.

(** The tail shared by the two fallbacks of [visit_Identifier] and
    [visit_Assign]: the cell of [self] or the error to raise. *)
Definition self_cell_or (name : string) : M nat :=
  try_except (env <- cur_env;; get_cell env "self")
             (raise (UndefinedVariable name)).

Definition visit_Identifier (name : string) : M value :=
  try_except
    (env <- cur_env;; l <- get_cell env name;; ret (VCell l))
    (self_cell <- self_cell_or name;;
     inst <- _unwrap (VCell self_cell);;
     match inst with
     | VInstance i =>
         I <- inst_of i;;
         match dict_get (inst_fields I) name with
         | Some l => ret (VCell l)
         | None => raise (UndefinedVariableOrField name)
         end
     | _ => raise (UndefinedVariableOrField name)
     end).

Definition visit_BinaryOp (left : node) (operator : TokenType) (right : node) : M value :=
  l <- visit left;; left_val <- _unwrap l;;
  r <- visit right;; right_val <- _unwrap r;;
  match left_val with
  | VInt a =>
      match right_val with
      | VInt b =>
          match operator with
          | PLUS => ret (VInt (a + b))
          | MINUS => ret (VInt (a - b))
          | MULTIPLY => ret (VInt (a * b))
          | DIVIDE => if decide (b = 0)%Z then raise DivisionByZero
                      else ret (VInt (a `div` b)%Z)
          | _ => raise (UnknownBinaryOperator operator)
          end
      | _ => tn <- _type_name right_val;; raise (TypeErrorArithRight tn)
      end
  | _ => tn <- _type_name left_val;; raise (TypeErrorArithLeft tn)
  end.

Definition visit_Comparison (left : node) (operator : TokenType) (right : node) : M value :=
  l <- visit left;; left_val <- _unwrap l;;
  r <- visit right;; right_val <- _unwrap r;;
  if decide (type_of left_val ≠ type_of right_val) then
    tl <- _type_name left_val;; tr <- _type_name right_val;;
    raise (TypeErrorComparison tl tr)
  else
    match operator with
    | EQUALS => ret (VInt (if decide (left_val = right_val) then 1 else 0))
    | _ => raise (UnknownComparisonOperator operator)
    end.

Definition visit_IfExpr (condition true_branch false_branch : node) : M value :=
  c <- visit condition;; condition_val <- _unwrap c;;
  match condition_val with
  | VBool b => if b then visit true_branch else visit false_branch
  | VInt z => if decide (z ≠ 0)%Z then visit true_branch else visit false_branch
  | _ => tn <- _type_name condition_val;; raise (TypeErrorIfCondition tn)
  end.

Definition visit_LetStatement (fuel : nat) (name : string)
    (type_annotation : option string) (value_expr : node) : M value :=
  v <- visit value_expr;;
  check_type type_annotation v;;;
  env <- cur_env;;
  define_variable env name v;;;
  u <- _unwrap v;;
  t <- format_value fuel u;;
  ret (VStr ("Variable '" +:+ name +:+ "' = " +:+ t)).

(** [self.current_env = env; try: visit(body) finally: self.current_env = previous] *)
Definition run_in (env : nat) (body : node) : M value :=
  previous_env <- cur_env;;
  modify (set_current_env env);;;
  try_finally (visit body) (set_current_env previous_env).

Definition visit_LetExpression (name : string) (type_annotation : option string)
    (value_expr body : node) : M value :=
  v <- visit value_expr;;
  check_type type_annotation v;;;
  cur <- cur_env;;
  new_env <- Environment_alloc (Some cur);;
  define_variable new_env name v;;;
  run_in new_env body.

Definition visit_FunctionDef (fd : FunctionDef) : M value :=
  define_function global_env (fd_name fd) fd;;;
  ret (VStr ("Function '" +:+ fd_name fd +:+ "' defined")).

Definition visit_FunctionCall (name : string) (arguments : list node) : M value :=
  func_def <- get_function global_env name;;
  arg_values <- visit_all arguments;;
  if decide (length arg_values ≠ length (fd_params func_def)) then
    raise (FunctionArity name (length (fd_params func_def)) (length arg_values))
  else
    func_env <- Environment_alloc (Some global_env);;
    define_variables func_env (zip (fd_params func_def) arg_values);;;
    run_in func_env (fd_body func_def).

Fixpoint visit_statements (statements : list node) (last : value) : M value :=
  match statements with
  | [] => ret last
  | stmt :: rest => v <- visit stmt;; visit_statements rest v
  end.

Definition visit_Block (statements : list node) : M value :=
  visit_statements statements VNone.

Definition visit_RefExpr (identifier : string) : M value :=
  env <- cur_env;; l <- get_cell env identifier;; ret (VCell l).

Definition visit_DerefExpr (identifier : string) : M value :=
  env <- cur_env;; l <- get_cell env identifier;; read_cell l.

Definition visit_RefAssign (ref value_expr : node) : M value :=
  cell <- visit ref;;
  match cell with
  | VCell l =>
      old_value <- read_cell l;;
      nv <- visit value_expr;; new_value <- _unwrap nv;;
      if decide (type_of old_value ≠ type_of new_value) then
        te <- _type_name old_value;; ta <- _type_name new_value;;
        raise (TypeErrorExpected te ta)
      else
        write_cell l new_value;;; ret new_value
  | _ => raise RefAssignNotCell
  end.

Definition visit_ClassDef (cd : ClassDef) : M value :=
  define_class global_env (cd_name cd) cd;;;
  ret (VStr ("Class '" +:+ cd_name cd +:+ "' defined")).

(** [for field in class_def.fields: inst.fields[field.name] = Cell(default)] *)
Fixpoint init_fields (inst : nat) (fs : list FieldDef) : M unit :=
  match fs with
  | [] => ret tt
  | f :: rest =>
      l <- Cell_new (default_value_for_type (field_type_annotation f));;
      set_field inst (field_name f) l;;;
      init_fields inst rest
  end.

Definition visit_NewExpr (class_name : string) (arguments : list node) : M value :=
  cd <- get_class global_env class_name;;
  inst <- Instance_alloc cd;;
  init_fields inst (cd_fields cd);;;
  match _find_method cd "init" with
  | Some init_method =>
      arg_values <- visit_all arguments;;
      if decide (length arg_values ≠ length (fd_params init_method)) then
        raise (ConstructorArity (cd_name cd)
                 (length (fd_params init_method)) (length arg_values))
      else
        method_env <- Environment_alloc (Some global_env);;
        define_variable method_env "self" (VInstance inst);;;
        define_variables method_env (zip (fd_params init_method) arg_values);;;
        run_in method_env (fd_body init_method);;;
        ret (VInstance inst)
  | None =>
      match arguments with
      | [] => ret (VInstance inst)
      | _ :: _ => raise (NoInitButArguments (cd_name cd))
      end
  end.

Definition visit_MemberAccess (obj : node) (member_name : string) : M value :=
  o <- visit obj;; obj_val <- _unwrap o;;
  match obj_val with
  | VInstance i =>
      I <- inst_of i;;
      match dict_get (inst_fields I) member_name with
      | None => raise (UnknownField member_name (cd_name (class_def I)))
      | Some l => ret (VCell l)
      end
  | _ => raise MemberAccessNonObject
  end.

Definition visit_MethodCall (obj : node) (method_name : string)
    (arguments : list node) : M value :=
  o <- visit obj;; obj_val <- _unwrap o;;
  match obj_val with
  | VInstance i =>
      I <- inst_of i;;
      match _find_method (class_def I) method_name with
      | None => raise (UndefinedMethod method_name (cd_name (class_def I)))
      | Some method_def =>
          arg_values <- visit_all arguments;;
          if decide (length arg_values ≠ length (fd_params method_def)) then
            raise (MethodArity method_name
                     (length (fd_params method_def)) (length arg_values))
          else
            method_env <- Environment_alloc (Some global_env);;
            define_variable method_env "self" (VInstance i);;;
            define_variables method_env (zip (fd_params method_def) arg_values);;;
            run_in method_env (fd_body method_def)
      end
  | _ => raise MethodCallNonObject
  end.

(** The field write shared by the two branches of [visit_Assign]: the
    declared annotation of the field, when there is one, decides. *)
Definition assign_field (i : nat) (fname : string) (v : value) : M value :=
  I <- inst_of i;;
  match dict_get (inst_fields I) fname with
  | None => raise (UnknownField fname (cd_name (class_def I)))
  | Some l =>
      match declared_annotation (_find_field_def (class_def I) fname) with
      | Some expected =>
          actual <- _type_name v;;
          if decide (expected ≠ actual) then
            raise (TypeErrorField fname (cd_name (class_def I)) expected actual)
          else write_cell l v;;; ret v
      | None => write_cell l v;;; ret v
      end
  end.

Definition visit_Assign (target value_expr : node) : M value :=
  v0 <- visit value_expr;; v <- _unwrap v0;;
  match target with
  | Identifier name =>
      try_except
        (env <- cur_env;;
         cell <- get_cell env name;;
         old_value <- read_cell cell;;
         if decide (type_of old_value ≠ type_of v) then
           te <- _type_name old_value;; ta <- _type_name v;;
           raise (TypeErrorExpected te ta)
         else
           write_cell cell v;;; ret v)
        (self_cell <- self_cell_or name;;
         inst <- _unwrap (VCell self_cell);;
         match inst with
         | VInstance i => assign_field i name v
         | _ => raise (UndefinedVariable name)
         end)
  | MemberAccess obj field_name =>
      o <- visit obj;; obj_val <- _unwrap o;;
      match obj_val with
      | VInstance i => assign_field i field_name v
      | _ => raise MemberAssignNonObject
      end
  | _ => raise InvalidAssignTarget
  end.
End visitors.

(** [Interpreter.visit]: dispatch on the node type.  Every call of the
    dispatcher costs one unit of fuel. *)
Fixpoint visit (fuel : nat) (n : node) : M value :=
  match fuel with
  | O => timeout
  | S k =>
      match n with
      | Number v => ret (VInt v)
      | BoolLiteral b => ret (VBool b)
      | StringLiteral t => ret (VStr t)
      | Identifier name => visit_Identifier name
      | BinaryOp l op r => visit_BinaryOp (visit k) l op r
      | Comparison l op r => visit_Comparison (visit k) l op r
      | IfExpr c t f => visit_IfExpr (visit k) c t f
      | LetStatement x ann e => visit_LetStatement (visit k) k x ann e
      | LetExpression x ann e b => visit_LetExpression (visit k) x ann e b
      | FunctionDefNode fd => visit_FunctionDef fd
      | FunctionCall f args => visit_FunctionCall (visit k) f args
      | Block stmts => visit_Block (visit k) stmts
      | RefExpr x => visit_RefExpr x
      | DerefExpr x => visit_DerefExpr x
      | RefAssign r e => visit_RefAssign (visit k) r e
      | ClassDefNode cd => visit_ClassDef cd
      | NewExpr c args => visit_NewExpr (visit k) c args
      | MemberAccess o m => visit_MemberAccess (visit k) o m
      | MethodCall o m args => visit_MethodCall (visit k) o m args
      | Assign t e => visit_Assign (visit k) t e
      end
  end.

(** [Interpreter.interpret] *)
Definition interpret (fuel : nat) (tree : node) : M value :=
  result <- visit fuel tree;; _unwrap result.

(** * token_types.py: [Token] and [KEYWORDS] *)

Global Instance TokenType_eq_dec : EqDecision TokenType.
Proof. solve_decision. Defined.

Module Tok.

(** The value of a token as the lexer sets it: an int for NUMBER, the text
    for STRING, IDENTIFIER, keywords and punctuation, None for EOF. *)
Inductive TokenValue :=
  | TokInt (z : Z)
  | TokStr (s : string)
  | TokNone.

Record Token := mkToken {
  type : TokenType;
  value : TokenValue;
  position : nat
}.

Definition KEYWORDS : list (string * TokenType) :=
  [("func", FUNC); ("if", IF); ("then", THEN); ("else", ELSE); ("let", LET);
   ("in", IN); ("ref", REF); ("true", BOOL); ("false", BOOL);
   ("class", CLASS); ("new", NEW)].

(** [KEYWORDS.get(k)] *)
Definition KEYWORDS_get (k : string) : option TokenType :=
  snd <$> List.find (λ kv, bool_decide (kv.1 = k)) KEYWORDS.

End Tok.

(** * lexer.py

    A text is a [string]: a character is one of the 256 of [ascii].  Which
    characters [str.isdigit], [str.isalpha] and [str.isalnum] accept, and
    which integer [int] reads from a string of digits, if any, is the
    host's business: the lexer takes the four as parameters. *)

Module Lexer.
Import Stdlib.Strings.Ascii.
Import Tok.

(** [self.error()], raised with the current character and the position, and
    the [ValueError] of [int(result)]. *)
Inductive error :=
  | InvalidCharacter (current_char : option ascii) (pos : nat)
  | ValueError (literal : string).

Inductive result (A : Type) :=
  | LOk (a : A)
  | LErr (e : error)
  | LTimeout.
Arguments LOk {A} a.
Arguments LErr {A} e.
Arguments LTimeout {A}.

(** [class Lexer]: [current_char] is None at the end of the text. *)
Record lexer := mkLexer {
  text : string;
  pos : nat;
  current_char : option ascii
}.

(** [Lexer.__init__] *)
Definition init (text : string) : lexer :=
  mkLexer text 0 (if decide (text = "") then None else String.get 0 text).

Definition L (A : Type) : Type := lexer → result A * lexer.

Definition lret {A} (a : A) : L A := λ l, (LOk a, l).
Definition ltimeout {A} : L A := λ l, (LTimeout, l).
Definition lraise {A} (e : error) : L A := λ l, (LErr e, l).
Definition lbind {A B} (m : L A) (k : A → L B) : L B :=
  λ l, match m l with
       | (LOk a, l') => k a l'
       | (LErr e, l') => (LErr e, l')
       | (LTimeout, l') => (LTimeout, l')
       end.

Declare Scope lex_scope.
Delimit Scope lex_scope with lex.
Notation "x <- m ;; k" := (lbind m (λ x, k))
  (at level 100, m at next level, right associativity) : lex_scope.
Notation "m ;;; k" := (lbind m (λ _, k))
  (at level 100, right associativity) : lex_scope.
Local Open Scope lex_scope.

(** [self.error()] *)
Definition error_ {A} : L A :=
  λ l, (LErr (InvalidCharacter (current_char l) (pos l)), l).

(** [self.current_char] and [self.pos] *)
Definition current : L (option ascii) := λ l, (LOk (current_char l), l).
Definition position_ : L nat := λ l, (LOk (pos l), l).

Definition advance : L unit :=
  λ l, let pos' := pos l + 1 in
       (LOk tt,
        mkLexer (text l) pos'
          (if decide (String.length (text l) ≤ pos') then None
           else String.get pos' (text l))).

Definition peek : L (option ascii) :=
  λ l, let peek_pos := pos l + 1 in
       (LOk (if decide (String.length (text l) ≤ peek_pos) then None
             else String.get peek_pos (text l)), l).

(** [c in ' \t\n\r'] *)
Definition is_whitespace (c : ascii) : bool :=
  bool_decide (c ∈ [" "; "009"; "010"; "013"]%char).

(** The double quote *)
Definition quote : ascii := "034"%char.

(** The underscore *)
Definition underscore : ascii := "_"%char.

(** [result += c] *)
Definition push (result : string) (c : ascii) : string :=
  result +:+ String c "".

Fixpoint skip_whitespace (k : nat) : L unit :=
  c <- current;;
  match c with
  | Some ch =>
      if is_whitespace ch then
        match k with
        | O => ltimeout
        | S k' => advance;;; skip_whitespace k'
        end
      else lret tt
  | None => lret tt
  end.

(** [while self.current_char is not None and self.current_char != quote] *)
Fixpoint string_literal_loop (k : nat) (result : string) : L string :=
  c <- current;;
  match c with
  | Some ch =>
      if decide (ch ≠ quote) then
        match k with
        | O => ltimeout
        | S k' => advance;;; string_literal_loop k' (push result ch)
        end
      else lret result
  | None => lret result
  end.

Definition string_literal (fuel : nat) : L Token :=
  start_pos <- position_;;
  advance;;;
  result <- string_literal_loop fuel "";;
  c <- current;;
  if decide (c ≠ Some quote) then error_
  else advance;;; lret (mkToken STRING (TokStr result) start_pos).

(** [pos = self.pos; self.advance(); return Token(token_type, spelling, pos)] *)
Definition single (token_type : TokenType) (spelling : string) : L Token :=
  p <- position_;;
  advance;;;
  lret (mkToken token_type (TokStr spelling) p).

Section classifiers.
Variable isdigit : ascii → bool.
Variable isalpha : ascii → bool.
Variable isalnum : ascii → bool.
Variable int : string → option Z.

Fixpoint number_loop (k : nat) (result : string) : L string :=
  c <- current;;
  match c with
  | Some ch =>
      if isdigit ch then
        match k with
        | O => ltimeout
        | S k' => advance;;; number_loop k' (push result ch)
        end
      else lret result
  | None => lret result
  end.

Definition number (fuel : nat) : L Token :=
  start_pos <- position_;;
  result <- number_loop fuel "";;
  match int result with
  | Some z => lret (mkToken NUMBER (TokInt z) start_pos)
  | None => lraise (ValueError result)
  end.

Fixpoint identifier_loop (k : nat) (result : string) : L string :=
  c <- current;;
  match c with
  | Some ch =>
      if isalnum ch || bool_decide (ch = underscore) then
        match k with
        | O => ltimeout
        | S k' => advance;;; identifier_loop k' (push result ch)
        end
      else lret result
  | None => lret result
  end.

Definition identifier (fuel : nat) : L Token :=
  start_pos <- position_;;
  result <- identifier_loop fuel "";;
  lret (mkToken (default IDENTIFIER (KEYWORDS_get result)) (TokStr result)
          start_pos).

(** [get_next_token]: the loop is re-entered only by the [continue] after
    [skip_whitespace]. *)
Fixpoint get_next_token_loop (fuel k : nat) : L Token :=
  c <- current;;
  match c with
  | None => p <- position_;; lret (mkToken EOF TokNone p)
  | Some ch =>
      if is_whitespace ch then
        match k with
        | O => ltimeout
        | S k' => skip_whitespace fuel;;; get_next_token_loop fuel k'
        end
      else if decide (ch = quote) then string_literal fuel
      else if isdigit ch then number fuel
      else if isalpha ch || bool_decide (ch = underscore) then identifier fuel
      else if decide (ch = ":"%char) then
        next <- peek;;
        if decide (next = Some "="%char) then
          p <- position_;;
          advance;;;
          advance;;;
          lret (mkToken COLON_ASSIGN (TokStr ":=") p)
        else single COLON ":"
      else if decide (ch = "."%char) then single DOT "."
      else if decide (ch = "+"%char) then single PLUS "+"
      else if decide (ch = "-"%char) then single MINUS "-"
      else if decide (ch = "*"%char) then single MULTIPLY "*"
      else if decide (ch = "/"%char) then single DIVIDE "/"
      else if decide (ch = "="%char) then
        p <- position_;;
        advance;;;
        c' <- current;;
        if decide (c' = Some "="%char) then
          advance;;; lret (mkToken EQUALS (TokStr "==") p)
        else lret (mkToken ASSIGN (TokStr "=") p)
      else if decide (ch = "{"%char) then single LBRACE "{"
      else if decide (ch = "}"%char) then single RBRACE "}"
      else if decide (ch = "("%char) then single LPAREN "("
      else if decide (ch = ")"%char) then single RPAREN ")"
      else if decide (ch = ","%char) then single COMMA ","
      else if decide (ch = "#"%char) then single DEREF "#"
      else error_
  end.

Definition get_next_token (fuel : nat) : L Token :=
  get_next_token_loop fuel fuel.

Fixpoint tokenize_loop (fuel k : nat) (tokens : list Token) (token : Token)
    : L (list Token) :=
  if decide (type token ≠ EOF) then
    match k with
    | O => ltimeout
    | S k' =>
        token' <- get_next_token fuel;;
        tokenize_loop fuel k' (tokens ++ [token]) token'
    end
  else lret (tokens ++ [token]).

Definition tokenize (fuel : nat) : L (list Token) :=
  token <- get_next_token fuel;;
  tokenize_loop fuel fuel [] token.

(** [Lexer(text).tokenize()] *)
Definition lex (fuel : nat) (text : string) : result (list Token) :=
  (tokenize fuel (init text)).1.
End classifiers.

End Lexer.

(** * parser.py *)

Module Parser.

Import Tok.

(** What the parser reads of a value where it needs a name or a number.  The
    parser reads either only from a token whose type it then checks
    (IDENTIFIER, STRING: text; NUMBER: int), so on the lexer's tokens the
    other cases do not occur. *)
Definition text (v : TokenValue) : string :=
  match v with TokStr s => s | _ => "" end.
Definition number (v : TokenValue) : Z :=
  match v with TokInt z => z | _ => 0%Z end.
(** [token.value == 'true'] *)
Definition is_true (v : TokenValue) : bool :=
  match v with TokStr s => bool_decide (s = "true") | _ => false end.

(** The messages of [Parser.error]; each is raised with the position and the
    current token. *)
Inductive message :=
  | Expected (expected got : TokenType)
  | ExpectedPrimary
  | LetNeedsIn
  | ExpectedFieldOrMethod
  | InvalidAssignmentTarget
  | ExpectedEndOfInput.

Inductive error :=
  | SyntaxError (msg : message) (pos : nat) (token : option Token)
  | NoCurrentToken.

Inductive result (A : Type) :=
  | POk (a : A)
  | PErr (e : error)
  | PTimeout.
Arguments POk {A} a.
Arguments PErr {A} e.
Arguments PTimeout {A}.

(** [class Parser]: [current_token] is None only for an empty token list. *)
Record parser := mkParser {
  tokens : list Token;
  pos : nat;
  current_token : option Token
}.

(** [Parser.__init__] *)
Definition init (toks : list Token) : parser := mkParser toks 0 (toks !! 0).

Definition P (A : Type) : Type := parser → result A * parser.

Definition pret {A} (a : A) : P A := λ p, (POk a, p).
Definition ptimeout {A} : P A := λ p, (PTimeout, p).
Definition pbind {A B} (m : P A) (k : A → P B) : P B :=
  λ p, match m p with
       | (POk a, p') => k a p'
       | (PErr e, p') => (PErr e, p')
       | (PTimeout, p') => (PTimeout, p')
       end.

Declare Scope parse_scope.
Delimit Scope parse_scope with parse.
Notation "x <- m ;; k" := (pbind m (λ x, k))
  (at level 100, m at next level, right associativity) : parse_scope.
Notation "m ;;; k" := (pbind m (λ _, k))
  (at level 100, right associativity) : parse_scope.
Local Open Scope parse_scope.

(** [self.error(msg)] *)
Definition error_ {A} (msg : message) : P A :=
  λ p, (PErr (SyntaxError msg (pos p) (current_token p)), p).

(** [self.current_token]; reading an attribute of None raises. *)
Definition current : P Token :=
  λ p, match current_token p with
       | Some t => (POk t, p)
       | None => (PErr NoCurrentToken, p)
       end.

(** [self.current_token.type] and [self.current_token.value] *)
Definition current_type : P TokenType := t <- current;; pret (type t).
Definition current_value : P TokenValue := t <- current;; pret (value t).

Definition advance : P unit :=
  λ p, let pos' := pos p + 1 in
       (POk tt, mkParser (tokens p) pos'
                  (match tokens p !! pos' with
                   | Some t => Some t
                   | None => current_token p
                   end)).

Definition eat (token_type : TokenType) : P unit :=
  t <- current_type;;
  if decide (t = token_type) then advance else error_ (Expected token_type t).

(** [parameters] *)
Fixpoint parameters_loop (k : nat) (params : list string) : P (list string) :=
  t <- current_type;;
  if decide (t = COMMA) then
    match k with
    | O => ptimeout
    | S k' =>
        eat COMMA;;;
        v <- current_value;;
        eat IDENTIFIER;;;
        parameters_loop k' (params ++ [text v])
    end
  else pret params.

Definition parameters (fuel : nat) : P (list string) :=
  t <- current_type;;
  if decide (t = RPAREN) then pret []
  else
    v <- current_value;;
    eat IDENTIFIER;;;
    parameters_loop fuel [text v].

(** The optional [: IDENT] after the name of a let or of a field. *)
Definition type_annotation : P (option string) :=
  t <- current_type;;
  if decide (t = COLON) then
    eat COLON;;;
    v <- current_value;;
    eat IDENTIFIER;;;
    pret (Some (text v))
  else pret None.

Section productions.
Variable expr : P node.
Variable statement : P node.
Variable fuel : nat.

Fixpoint arguments_loop (k : nat) (args : list node) : P (list node) :=
  t <- current_type;;
  if decide (t = COMMA) then
    match k with
    | O => ptimeout
    | S k' => eat COMMA;;; e <- expr;; arguments_loop k' (args ++ [e])
    end
  else pret args.

Definition arguments : P (list node) :=
  t <- current_type;;
  if decide (t = RPAREN) then pret []
  else e <- expr;; arguments_loop fuel [e].

Definition primary : P node :=
  token <- current;;
  match type token with
  | REF =>
      eat REF;;; name <- current_value;; eat IDENTIFIER;;;
      pret (RefExpr (text name))
  | DEREF =>
      eat DEREF;;; name <- current_value;; eat IDENTIFIER;;;
      pret (DerefExpr (text name))
  | NEW =>
      eat NEW;;; class_name <- current_value;; eat IDENTIFIER;;;
      eat LPAREN;;; args <- arguments;; eat RPAREN;;;
      pret (NewExpr (text class_name) args)
  | NUMBER => eat NUMBER;;; pret (Number (number (value token)))
  | BOOL => eat BOOL;;; pret (BoolLiteral (is_true (value token)))
  | STRING => eat STRING;;; pret (StringLiteral (text (value token)))
  | IDENTIFIER =>
      eat IDENTIFIER;;;
      t <- current_type;;
      if decide (t = LPAREN) then
        eat LPAREN;;; args <- arguments;; eat RPAREN;;;
        pret (FunctionCall (text (value token)) args)
      else pret (Identifier (text (value token)))
  | LPAREN => eat LPAREN;;; n <- expr;; eat RPAREN;;; pret n
  | _ => error_ ExpectedPrimary
  end.

Fixpoint factor_loop (k : nat) (n : node) : P node :=
  t <- current_type;;
  if decide (t = DOT) then
    match k with
    | O => ptimeout
    | S k' =>
        eat DOT;;;
        member_name <- current_value;;
        eat IDENTIFIER;;;
        t' <- current_type;;
        if decide (t' = LPAREN) then
          eat LPAREN;;; args <- arguments;; eat RPAREN;;;
          factor_loop k' (MethodCall n (text member_name) args)
        else factor_loop k' (MemberAccess n (text member_name))
    end
  else pret n.

Definition factor : P node := n <- primary;; factor_loop fuel n.

Fixpoint term_loop (k : nat) (n : node) : P node :=
  op <- current_type;;
  if decide (op = MULTIPLY ∨ op = DIVIDE) then
    match k with
    | O => ptimeout
    | S k' => eat op;;; r <- factor;; term_loop k' (BinaryOp n op r)
    end
  else pret n.

Definition term : P node := n <- factor;; term_loop fuel n.

Fixpoint arith_expr_loop (k : nat) (n : node) : P node :=
  op <- current_type;;
  if decide (op = PLUS ∨ op = MINUS) then
    match k with
    | O => ptimeout
    | S k' => eat op;;; r <- term;; arith_expr_loop k' (BinaryOp n op r)
    end
  else pret n.

Definition arith_expr : P node := n <- term;; arith_expr_loop fuel n.

Definition comparison : P node :=
  n <- arith_expr;;
  op <- current_type;;
  if decide (op = EQUALS) then
    eat EQUALS;;; r <- arith_expr;; pret (Comparison n op r)
  else pret n.

(** [while current != RBRACE: statements.append(self.statement())] *)
Fixpoint statements_loop (k : nat) (stmts : list node) : P (list node) :=
  t <- current_type;;
  if decide (t ≠ RBRACE) then
    match k with
    | O => ptimeout
    | S k' => st <- statement;; statements_loop k' (stmts ++ [st])
    end
  else pret stmts.

(** [block_expression]; the bodies of functions and methods parse their
    brace-delimited form with the same sequence of steps. *)
Definition block_expression : P node :=
  eat LBRACE;;;
  stmts <- statements_loop fuel [];;
  eat RBRACE;;;
  pret (Block stmts).

Definition expr_body : P node :=
  t <- current_type;;
  match t with
  | IF =>
      eat IF;;; cond <- expr;;
      eat THEN;;; tbranch <- expr;;
      eat ELSE;;; fbranch <- expr;;
      pret (IfExpr cond tbranch fbranch)
  | LET =>
      eat LET;;;
      var_name <- current_value;;
      eat IDENTIFIER;;;
      type_ann <- type_annotation;;
      eat ASSIGN;;;
      value_expr <- expr;;
      t' <- current_type;;
      if decide (t' ≠ IN) then error_ LetNeedsIn
      else
        eat IN;;;
        t'' <- current_type;;
        body <- (if decide (t'' = LBRACE) then block_expression else expr);;
        pret (LetExpression (text var_name) type_ann value_expr body)
  | LBRACE => block_expression
  | _ => comparison
  end.

(** After [func]: the name, the parameters, [=] and the body. *)
Definition function_def : P FunctionDef :=
  name <- current_value;;
  eat IDENTIFIER;;;
  eat LPAREN;;;
  params <- parameters fuel;;
  eat RPAREN;;;
  eat ASSIGN;;;
  t <- current_type;;
  body <- (if decide (t = LBRACE) then block_expression else expr);;
  pret (mkFunctionDef (text name) params body).

Fixpoint class_members (k : nat) (fields : list FieldDef)
    (methods : list FunctionDef) : P (list FieldDef * list FunctionDef) :=
  t <- current_type;;
  if decide (t ≠ RBRACE) then
    match k with
    | O => ptimeout
    | S k' =>
        if decide (t = LET) then
          eat LET;;;
          fname <- current_value;;
          eat IDENTIFIER;;;
          type_ann <- type_annotation;;
          class_members k' (fields ++ [mkFieldDef (text fname) type_ann]) methods
        else if decide (t = FUNC) then
          eat FUNC;;;
          m <- function_def;;
          class_members k' fields (methods ++ [m])
        else error_ ExpectedFieldOrMethod
    end
  else pret (fields, methods).

Definition parse_class : P node :=
  eat CLASS;;;
  class_name <- current_value;;
  eat IDENTIFIER;;;
  eat LBRACE;;;
  fm <- class_members fuel [] [];;
  eat RBRACE;;;
  pret (ClassDefNode (mkClassDef (text class_name) fm.1 fm.2)).

(** [isinstance(left, (Identifier, MemberAccess))] *)
Definition assignable (n : node) : bool :=
  match n with
  | Identifier _ | MemberAccess _ _ => true
  | _ => false
  end.

Definition statement_body : P node :=
  t <- current_type;;
  match t with
  | CLASS => parse_class
  | LET =>
      eat LET;;;
      var_name <- current_value;;
      eat IDENTIFIER;;;
      type_ann <- type_annotation;;
      eat ASSIGN;;;
      val <- expr;;
      t' <- current_type;;
      if decide (t' = IN) then
        eat IN;;;
        body <- expr;;
        pret (LetExpression (text var_name) type_ann val body)
      else pret (LetStatement (text var_name) type_ann val)
  | FUNC =>
      eat FUNC;;;
      fd <- function_def;;
      pret (FunctionDefNode fd)
  | _ =>
      left <- expr;;
      t' <- current_type;;
      if decide (t' = COLON_ASSIGN) then
        eat COLON_ASSIGN;;;
        v <- expr;;
        pret (RefAssign left v)
      else if decide (t' = ASSIGN) then
        eat ASSIGN;;;
        v <- expr;;
        if assignable left then pret (Assign left v)
        else error_ InvalidAssignmentTarget
      else pret left
  end.
End productions.

(** [expr] and [statement] call each other; each call costs one unit of
    fuel, and the loops of a call run on the fuel that is left. *)
Fixpoint expr (fuel : nat) : P node :=
  match fuel with
  | O => ptimeout
  | S k => expr_body (expr k) (statement k) k
  end
with statement (fuel : nat) : P node :=
  match fuel with
  | O => ptimeout
  | S k => statement_body (expr k) (statement k) k
  end.

(** [Parser(tokens).parse()] *)
Definition parse (fuel : nat) (toks : list Token) : result node :=
  ((n <- statement fuel;;
    t <- current_type;;
    if decide (t ≠ EOF) then error_ ExpectedEndOfInput else pret n) (init toks)).1.

End Parser.

(** * Vocabulary of the statements *)

(** ** The call protocol

    Four visitors allocate an environment, fill it and run a body in it:
    the let-expression, the function call, the method call and the
    constructor call.  [enter_frame] names the state the body starts in. *)

(** The cell a binding of [v] refers to: [v] itself when it is a cell,
    otherwise the cell allocated next. *)
Definition bound_cell (v : value) (s : state) : nat :=
  match v with VCell l => l | _ => length (cells s) end.

(** The cells that binding [v] allocates: [Cell(v)], unless [v] is a cell. *)
Definition stored (v : value) : list value :=
  match v with VCell _ => [] | _ => [v] end.

(** The state in which a body starts: a new environment with parent [p],
    holding [binds], is current. *)
Definition enter_frame (p : nat) (binds : list (string * value)) (s : state) : state :=
  let k := length (envs s) in
  set_current_env k (define_variables k binds (Environment_alloc (Some p) s).2).2.

(** The field of [self] an identifier falls back to, when there is one. *)
Definition self_field (s : state) (x : string) : option nat :=
  match (get_cell (current_env s) "self" s).1 with
  | Ok l =>
      match cell_value s l with
      | VInstance i => dict_get (inst_fields (get_instance s i)) x
      | _ => None
      end
  | _ => None
  end.

(** The identifier [x] does not resolve in [s]: evaluating it raises one of
    the two undefined-name errors, however much fuel it is given. *)
Definition unresolved_in (s : state) (x : string) : Prop :=
  ∀ k, ∃ e, visit (S k) (Identifier x) s = (Err e, s) ∧
            (e = UndefinedVariable x ∨ e = UndefinedVariableOrField x).

(** ** The extension order on states

    Between a state and a later one, taken at the same [current_env]:
    stores only grow; an environment that existed keeps its parent, and keeps
    its variables unless it is the current one; no function or class
    declaration disappears.  The bound [b] limits the statement to the
    environments below it, which lets a callee's frame be filled before it
    becomes current. *)

Definition frame_ext (keep_vars : Prop) (e e' : Environment) : Prop :=
  parent e' = parent e ∧
  (keep_vars → variables e' = variables e) ∧
  (∀ f, is_Some (functions e !! f) → is_Some (functions e' !! f)) ∧
  (∀ c, is_Some (classes e !! c) → is_Some (classes e' !! c)).

(** The shape every reachable state has: the current environment exists and
    every parent was allocated before its child. *)
Definition wf (s : state) : Prop :=
  current_env s < length (envs s) ∧
  ∀ i e p, envs s !! i = Some e → parent e = Some p → p < i.

Record ext_upto (b : nat) (s s' : state) : Prop := mk_ext {
  ext_cur : current_env s' = current_env s;
  ext_envs : length (envs s) ≤ length (envs s');
  ext_cells : length (cells s) ≤ length (cells s');
  ext_frames : ∀ i e, i < b → envs s !! i = Some e →
      ∃ e', envs s' !! i = Some e' ∧ frame_ext (i ≠ current_env s) e e';
  ext_wf : wf s → wf s'
}.

(** A computation preserves the order when every run of it does. *)
Definition pres {A} (m : M A) : Prop :=
  ∀ s b, b ≤ length (envs s) → ext_upto b s (m s).2.

(** A computation that reads the state only. *)
Definition reads {A} (m : M A) : Prop := ∀ s, (m s).2 = s.

(** [pres_at b k m]: [m] preserves the order below [b] when run with an
    allocated environment [k] that is not below [b]. *)
Definition pres_at (b k : nat) {A} (m : M A) : Prop :=
  ∀ s, b ≤ k → k < length (envs s) → ext_upto b s (m s).2.

(** [pres_cur c m]: [m] preserves the order when run with [c] current. *)
Definition pres_cur (c : nat) {A} (m : M A) : Prop :=
  ∀ s b, b ≤ length (envs s) → current_env s = c → ext_upto b s (m s).2.

(** ** Programs and states of the examples *)

(** Top-level statements run one after the other on the same interpreter. *)
Definition run_program (fuel : nat) (prog : list node) (s : state) : state :=
  foldl (λ st n, (interpret fuel n st).2) s prog.

Definition class_A : node := ClassDefNode (mkClassDef "A" [] []).

Definition class_B : node := ClassDefNode (mkClassDef "B" [] []).

(** [class A {}], [class B {}], [let a = new A()], [let b = new B()] *)
Definition two_objects : state :=
  run_program 3
    [class_A; class_B;
     LetStatement "a" None (NewExpr "A" []);
     LetStatement "b" None (NewExpr "B" [])]
    init_state.

(** [class C { let x  func m(x) = { x = "s" } }] *)
Definition class_C : node :=
  ClassDefNode (mkClassDef "C" [mkFieldDef "x" None]
    [mkFunctionDef "m" ["x"] (Block [Assign (Identifier "x") (StringLiteral "s")])]).

(** [class C ...] and [let c = new C()] *)
Definition one_object : state :=
  run_program 4 [class_C; LetStatement "c" None (NewExpr "C" [])] init_state.

(** [func f() = 7] and [class K {}] declared in the body of a [let], inside a
    block. *)
Definition nested_declarations : node :=
  LetExpression "a" None (Number 1)
    (Block [FunctionDefNode (mkFunctionDef "f" [] (Number 7));
            ClassDefNode (mkClassDef "K" [] [])]).

(** [func f() = y], declared at top level *)
Definition reads_y : state :=
  run_program 2 [FunctionDefNode (mkFunctionDef "f" [] (Identifier "y"))] init_state.

(** [let x = 5 in let x = 6 in x] *)
Definition nested_let : node :=
  LetExpression "x" None (Number 5)
    (LetExpression "x" None (Number 6) (Identifier "x")).

(** [func f(p) = { p := 9 }], as the parser builds it *)
Definition declares_f : node :=
  FunctionDefNode
    (mkFunctionDef "f" ["p"] (Block [RefAssign (Identifier "p") (Number 9)])).

(** [func f(p) = { p := 9 }], then the state inside [let y = 1 in ...] *)
Definition caller_of_f : state :=
  enter_frame global_env [("y", VInt 1)] (run_program 2 [declares_f] init_state).

(** [class A { let me  func init() = { me = self } }], as the parser builds
    it: the constructor stores the new instance in its own field. *)
Definition class_knot : node :=
  ClassDefNode
    (mkClassDef "A" [mkFieldDef "me" None]
       [mkFunctionDef "init" []
          (Block [Assign (Identifier "me") (Identifier "self")])]).

(** The state after [class A ...] *)
Definition knot : state := run_program 2 [class_knot] init_state.

(** ** Values that have a text

    [str] returns on an int below the digit limit, on a bool, a string and
    None, on a cell whose content has a text, and on an instance all of
    whose fields have one: on the values from which no instance is reached
    again through its fields, and no int beyond the limit. *)
Local Unset Elimination Schemes.
Inductive renderable (s : state) : value → Prop :=
  | renderable_int z : (Z.abs z < int_str_limit)%Z → renderable s (VInt z)
  | renderable_bool b : renderable s (VBool b)
  | renderable_str t : renderable s (VStr t)
  | renderable_none : renderable s VNone
  | renderable_cell l :
      renderable s (cell_value s l) → renderable s (VCell l)
  | renderable_instance i :
      Forall (λ kv : string * nat, renderable s (VCell kv.2))
        (inst_fields (get_instance s i)) →
      renderable s (VInstance i).
Local Set Elimination Schemes.

(** [settled m1 m2]: where [m1] does not run out of fuel, [m2] does what
    [m1] does. *)
Definition settled {A} (m1 m2 : M A) : Prop :=
  ∀ s, (m1 s).1 ≠ Timeout → m2 s = m1 s.

(** ** Invariants of reachable states *)

(** No cell holds a cell: [define_variable] wraps only what is not a cell
    already, and every write stores an unwrapped value. *)
Definition flat (s : state) : Prop :=
  ∀ l v, cells s !! l = Some v → type_of v ≠ TCell.

(** A computation keeps [flat]. *)
Definition keeps {A} (m : M A) : Prop := ∀ s, flat s → flat (m s).2.

(** ** Further programs and states of the examples *)

(** [class P { let n:int  let tag  let on:bool }] *)
Definition class_P : ClassDef :=
  mkClassDef "P" [mkFieldDef "n" (Some "int"); mkFieldDef "tag" None;
                  mkFieldDef "on" (Some "bool")] [].

(** The state after [class P ...] and [let p = new P()] *)
Definition one_P : state :=
  run_program 3 [ClassDefNode class_P; LetStatement "p" None (NewExpr "P" [])]
    init_state.

(** The instance that [self] refers to, when [self] is bound to one. *)
Definition self_instance (s : state) : option nat :=
  match (get_cell (current_env s) "self" s).1 with
  | Ok l => match cell_value s l with VInstance i => Some i | _ => None end
  | _ => None
  end.

(** [class Q { let n:int }], [let q = new Q()], [let g = 4] *)
Definition one_Q : state :=
  run_program 3
    [ClassDefNode (mkClassDef "Q" [mkFieldDef "n" (Some "int")] []);
     LetStatement "q" None (NewExpr "Q" []);
     LetStatement "g" None (Number 4)]
    init_state.

(** The expressions built from literals, names, [ref], [#], field access,
    arithmetic, comparison and [if]. *)
Fixpoint reads_only (e : node) : bool :=
  match e with
  | Number _ | BoolLiteral _ | StringLiteral _
  | Identifier _ | RefExpr _ | DerefExpr _ => true
  | BinaryOp l _ r | Comparison l _ r => reads_only l && reads_only r
  | IfExpr c t f => reads_only c && reads_only t && reads_only f
  | MemberAccess o _ => reads_only o
  | _ => false
  end.

(** ** The shape of parsed programs *)

(** The four operators of [term] and [arith_expr]. *)
Definition arith_op (op : TokenType) : bool :=
  match op with
  | PLUS | MINUS | MULTIPLY | DIVIDE => true
  | _ => false
  end.

(** The nodes that [Parser.expr] can return: all but the let-statement, the
    declarations and the two assignments. *)
Definition is_expression (n : node) : bool :=
  match n with
  | LetStatement _ _ _ | FunctionDefNode _ | ClassDefNode _
  | RefAssign _ _ | Assign _ _ => false
  | _ => true
  end.

(** The trees the grammar produces: an arithmetic node carries one of the
    four arithmetic operators and a comparison carries [==]; the target of a
    plain assignment is an identifier or a field access; a let-statement, a
    declaration or an assignment stands only where a statement can stand, as
    the whole program or directly in a block, never as an operand, a
    condition, a branch, an argument, a receiver or a bound value. *)
Fixpoint shaped (n : node) : bool :=
  let sub e := is_expression e && shaped e in
  match n with
  | Number _ | BoolLiteral _ | StringLiteral _
  | RefExpr _ | DerefExpr _ | Identifier _ => true
  | BinaryOp l op r => arith_op op && sub l && sub r
  | Comparison l op r => bool_decide (op = EQUALS) && sub l && sub r
  | IfExpr c t f => sub c && sub t && sub f
  | LetStatement _ _ v => sub v
  | LetExpression _ _ v b => sub v && sub b
  | Block stmts => forallb shaped stmts
  | FunctionCall _ args => forallb sub args
  | NewExpr _ args => forallb sub args
  | MemberAccess o _ => sub o
  | MethodCall o _ args => sub o && forallb sub args
  | RefAssign t v => sub t && sub v
  | Assign t v => Parser.assignable t && sub t && sub v
  | FunctionDefNode fd => shaped_fd fd
  | ClassDefNode cd => shaped_cd cd
  end
with shaped_fd (fd : FunctionDef) : bool :=
  match fd with
  | mkFunctionDef _ _ b => is_expression b && shaped b
  end
with shaped_cd (cd : ClassDef) : bool :=
  match cd with
  | mkClassDef _ _ ms => forallb shaped_fd ms
  end.

(** A shaped tree that can stand where an expression is expected. *)
Definition expression_shaped (n : node) : bool := is_expression n && shaped n.

(** The three errors the evaluator raises on trees the grammar does not
    produce. *)
Definition defensive (e : error) : bool :=
  match e with
  | InvalidAssignTarget | UnknownBinaryOperator _ | UnknownComparisonOperator _ => true
  | _ => false
  end.

(** An environment whose function and class declarations are shaped. *)
Definition shaped_env (e : Environment) : Prop :=
  map_Forall (λ _ fd, shaped_fd fd = true) (functions e) ∧
  map_Forall (λ _ cd, shaped_cd cd = true) (classes e).

(** Every declaration the state holds is shaped, and so is the class of
    every instance. *)
Definition shaped_state (s : state) : Prop :=
  Forall shaped_env (envs s) ∧
  Forall (λ inst, shaped_cd (class_def inst) = true) (instances s).

(** [safe Q m]: from a shaped state, [m] leaves a shaped state, its value
    satisfies [Q] and its error is none of the three. *)
Definition safe {A} (Q : A → Prop) (m : M A) : Prop :=
  ∀ s, shaped_state s →
    shaped_state (m s).2 ∧
    match (m s).1 with
    | Ok a => Q a
    | Err e => defensive e = false
    | Timeout => True
    end.

(** [yields m Q]: every value the parser step [m] returns satisfies [Q]. *)
Definition yields {A} (m : Parser.P A) (Q : A → Prop) : Prop :=
  ∀ p a p', m p = (Parser.POk a, p') → Q a.

(** A session: top-level inputs are parsed one by one and the trees
    evaluated on the same interpreter. *)
Inductive session : state → Prop :=
  | session_start : session init_state
  | session_step s pf toks n fuel :
      session s → Parser.parse pf toks = Parser.POk n →
      session (interpret fuel n s).2.

(** ** Token lists and the progress of the parser *)

(** The lexer ends every token list with an EOF token. *)
Definition ends_with_EOF (toks : list Tok.Token) : Prop :=
  ∃ ts t, toks = ts ++ [t] ∧ Tok.type t = EOF.

(** The parser stands on a token of [toks]. *)
Definition on_token (toks : list Tok.Token) (p : Parser.parser) : Prop :=
  Parser.tokens p = toks ∧
  Parser.pos p < length toks ∧
  Parser.current_token p = toks !! Parser.pos p.

(** [runs toks strict r m]: started on a token of [toks] with at most [r]
    tokens from the current one to the end, [m] returns; when it returns a
    value the parser stands on a token again, not before the one it started
    on, and after it when [strict]. *)
Definition runs (toks : list Tok.Token) (strict : bool) (r : nat) {A}
    (m : Parser.P A) : Prop :=
  ∀ p, on_token toks p → length toks - Parser.pos p ≤ r →
    match m p with
    | (Parser.PTimeout, _) => False
    | (Parser.PErr _, _) => True
    | (Parser.POk _, p') =>
        on_token toks p' ∧
        (if strict then Parser.pos p < Parser.pos p'
         else Parser.pos p ≤ Parser.pos p')
    end.

(** [below m1 m2]: where [m1] returns, [m2] returns the same. *)
Definition below {A} (m1 m2 : Parser.P A) : Prop :=
  ∀ p, (m1 p).1 ≠ Parser.PTimeout → m2 p = m1 p.

(** The tokens of [x = 1 + 2] and of [x]. *)
Definition tokens_assignment : list Tok.Token :=
  [Tok.mkToken IDENTIFIER (Tok.TokStr "x") 0;
   Tok.mkToken ASSIGN (Tok.TokStr "=") 2;
   Tok.mkToken NUMBER (Tok.TokInt 1) 4;
   Tok.mkToken PLUS (Tok.TokStr "+") 6;
   Tok.mkToken NUMBER (Tok.TokInt 2) 8;
   Tok.mkToken EOF Tok.TokNone 9].

Definition tokens_name : list Tok.Token :=
  [Tok.mkToken IDENTIFIER (Tok.TokStr "x") 0;
   Tok.mkToken EOF Tok.TokNone 1].

(** ** Token lists of the lexer *)

(** The characters of a text. *)
Definition chars (s : string) : list Ascii.ascii := String.list_ascii_of_string s.

(** The lexer of the text [T] that stands at position [n]. *)
Definition lexer_at (T : string) (n : nat) : Lexer.lexer :=
  Lexer.mkLexer T n (String.get n T).

(** The spellings of the tokens that are not words, numbers or strings. *)
Definition punctuation : list (string * TokenType) :=
  [(":=", COLON_ASSIGN); (":", COLON); (".", DOT); ("+", PLUS); ("-", MINUS);
   ("*", MULTIPLY); ("/", DIVIDE); ("==", EQUALS); ("=", ASSIGN);
   ("{", LBRACE); ("}", RBRACE); ("(", LPAREN); (")", RPAREN); (",", COMMA);
   ("#", DEREF)].

Section lexer_vocabulary.
Variable isdigit : Ascii.ascii → bool.
Variable isalpha : Ascii.ascii → bool.
Variable isalnum : Ascii.ascii → bool.
Variable int : string → option Z.
Variable T : string.

(** A word: a letter or an underscore, then letters, digits and
    underscores, as [isalpha] and [isalnum] see them. *)
Definition word (s : string) : Prop :=
  match chars s with
  | [] => False
  | c :: cs =>
      (isalpha c || bool_decide (c = Lexer.underscore)) = true ∧
      Forall (λ c, (isalnum c || bool_decide (c = Lexer.underscore)) = true) cs
  end.

(** What a token says of the text: its value is read from the text at its
    position, its type is the one of that spelling, and the characters read
    for it end before position [n']. *)
Definition lexeme_ok (tok : Tok.Token) (n' : nat) : Prop :=
  let p := Tok.position tok in
  match Tok.type tok, Tok.value tok with
  | EOF, Tok.TokNone => p = String.length T ∧ n' = p
  | NUMBER, Tok.TokInt z =>
      ∃ s, s ≠ "" ∧ String.substring p (String.length s) T = s ∧
           n' = p + String.length s ∧
           Forall (λ c, isdigit c = true) (chars s) ∧ int s = Some z
  | STRING, Tok.TokStr s =>
      chars (String.substring p (String.length s + 2) T)
        = Lexer.quote :: chars s ++ [Lexer.quote] ∧
      n' = p + String.length s + 2 ∧
      Lexer.quote ∉ chars s
  | t, Tok.TokStr s =>
      String.substring p (String.length s) T = s ∧
      n' = p + String.length s ∧
      ((s, t) ∈ punctuation ∨
       (word s ∧ t = default IDENTIFIER (Tok.KEYWORDS_get s)))
  | _, _ => False
  end.

(** The token [tok] was read from position [n] on and left the lexer at
    [n']: only whitespace lies between [n] and the position of the token,
    and the characters of the token, at least one unless it is the EOF
    token, reach to [n']. *)
Definition token_at (n : nat) (tok : Tok.Token) (n' : nat) : Prop :=
  lexeme_ok tok n' ∧
  n ≤ Tok.position tok ∧
  Forall (λ c, Lexer.is_whitespace c = true)
    (take (Tok.position tok - n) (drop n (chars T))) ∧
  n' ≤ String.length T ∧
  (Tok.type tok ≠ EOF → Tok.position tok < n').

(** [lexes m n]: from position [n] the step [m] returns, and a token it
    returns was read from [n] on, leaving the lexer at a position of the
    same text. *)
Definition lexes (m : Lexer.L Tok.Token) (n : nat) : Prop :=
  match m (lexer_at T n) with
  | (Lexer.LOk tok, l') => ∃ n', l' = lexer_at T n' ∧ token_at n tok n'
  | (Lexer.LErr _, _) => True
  | (Lexer.LTimeout, _) => False
  end.

(** The token lists read from position [n] to the end of the text: each
    token starts, after whitespace, where the one before it ended, and the
    EOF token ends the list. *)
Inductive tokens_from : nat → list Tok.Token → Prop :=
  | tokens_eof n tok :
      token_at n tok (String.length T) → Tok.type tok = EOF →
      tokens_from n [tok]
  | tokens_cons n tok n' rest :
      token_at n tok n' → Tok.type tok ≠ EOF → tokens_from n' rest →
      tokens_from n (tok :: rest).
End lexer_vocabulary.

(** [below_lex m1 m2]: where [m1] returns, [m2] returns the same. *)
Definition below_lex {A} (m1 m2 : Lexer.L A) : Prop :=
  ∀ l, (m1 l).1 ≠ Lexer.LTimeout → m2 l = m1 l.

(** ** The classifiers of the host on ASCII text

    On the characters below 128, [str.isdigit] accepts the ten digits,
    [str.isalpha] the 52 letters and [str.isalnum] both; [int] reads a
    non-empty string of digits in base ten. *)
Module Ascii_text.
Import Stdlib.Strings.Ascii.

Definition isdigit (c : ascii) : bool :=
  (48 <=? nat_of_ascii c) && (nat_of_ascii c <=? 57).

Definition isalpha (c : ascii) : bool :=
  ((65 <=? nat_of_ascii c) && (nat_of_ascii c <=? 90)) ||
  ((97 <=? nat_of_ascii c) && (nat_of_ascii c <=? 122)).

Definition isalnum (c : ascii) : bool := isalpha c || isdigit c.

Fixpoint digits (s : string) (acc : Z) : option Z :=
  match s with
  | EmptyString => Some acc
  | String c rest =>
      if isdigit c then digits rest (10 * acc + Z.of_nat (nat_of_ascii c - 48))%Z
      else None
  end.

Definition int (s : string) : option Z :=
  match s with
  | EmptyString => None
  | _ => digits s 0%Z
  end.

(** [Lexer(text).tokenize()] on ASCII text *)
Definition lex (fuel : nat) (text : string) : Lexer.result (list Tok.Token) :=
  Lexer.lex isdigit isalpha isalnum int fuel text.

End Ascii_text.

(** * Properties *)

(** ** Unfolding the monad *)

Lemma bind_ok {A B} (m : M A) (k : A → M B) s a s' :
  m s = (Ok a, s') → bind m k s = k a s'.
Proof. unfold bind. by intros ->. Qed.

Lemma bind_err {A B} (m : M A) (k : A → M B) s e s' :
  m s = (Err e, s') → bind m k s = (Err e, s').
Proof. unfold bind. by intros ->. Qed.

Lemma bind_timeout {A B} (m : M A) (k : A → M B) s s' :
  m s = (Timeout, s') → bind m k s = (Timeout, s').
Proof. unfold bind. by intros ->. Qed.

Lemma visit_all_length (ev : node → M value) args s vs s' :
  visit_all ev args s = (Ok vs, s') → length vs = length args.
Proof.
  revert s vs s'. induction args as [|a rest IH]; intros s vs s' H; simpl in H.
  - by inversion H.
  - unfold bind in H at 1. destruct (ev a s) as [[v| |] s1]; try done.
    unfold bind in H at 1.
    destruct (visit_all ev rest s1) as [[ws| |] s2] eqn:E; try done.
    inversion H; subst. simpl. f_equal. eauto.
Qed.

(** ** What an evaluation may change *)

Lemma frame_ext_refl P e : frame_ext P e e.
Proof. by repeat split. Qed.

Lemma frame_ext_trans P e1 e2 e3 :
  frame_ext P e1 e2 → frame_ext P e2 e3 → frame_ext P e1 e3.
Proof.
  intros (Hp & Hv & Hf & Hc) (Hp' & Hv' & Hf' & Hc'). repeat split.
  - congruence.
  - intros HP. rewrite Hv', Hv; auto.
  - auto.
  - auto.
Qed.

Lemma ext_refl b s : ext_upto b s s.
Proof. split; eauto using frame_ext_refl. Qed.

Lemma ext_trans b s1 s2 s3 :
  ext_upto b s1 s2 → ext_upto b s2 s3 → ext_upto b s1 s3.
Proof.
  intros [c1 l1 k1 f1 w1] [c2 l2 k2 f2 w2]. split.
  - congruence.
  - lia.
  - lia.
  - intros i e Hi He. destruct (f1 i e Hi He) as (e' & He' & Hx).
    destruct (f2 i e' Hi He') as (e'' & He'' & Hx').
    exists e''. split; [done|]. rewrite c1 in Hx'.
    eauto using frame_ext_trans.
  - auto.
Qed.

Lemma ext_weaken b b' s s' : b ≤ b' → ext_upto b' s s' → ext_upto b s s'.
Proof.
  intros Hb [c l k f w]. split; auto. intros i e Hi. apply f. lia.
Qed.

Lemma pres_ret {A} (a : A) : pres (ret a).
Proof. intros s b _. apply ext_refl. Qed.

Lemma pres_raise {A} e : pres (@raise A e).
Proof. intros s b _. apply ext_refl. Qed.

Lemma pres_timeout {A} : pres (@timeout A).
Proof. intros s b _. apply ext_refl. Qed.

Lemma pres_bind {A B} (m : M A) (k : A → M B) :
  pres m → (∀ a, pres (k a)) → pres (bind m k).
Proof.
  intros Hm Hk s b Hb. unfold bind. specialize (Hm s b Hb).
  destruct (m s) as [[a|e|] s1]; simpl in *; try done.
  eapply ext_trans; [exact Hm|]. apply Hk. destruct Hm. lia.
Qed.

Lemma pres_try_except {A} (m h : M A) : pres m → pres h → pres (try_except m h).
Proof.
  intros Hm Hh s b Hb. unfold try_except. specialize (Hm s b Hb).
  destruct (m s) as [[a|e|] s1]; simpl in *; try done.
  eapply ext_trans; [exact Hm|]. apply Hh. destruct Hm. lia.
Qed.

Lemma pres_reads {A} (m : M A) : reads m → pres m.
Proof. intros H s b _. rewrite H. apply ext_refl. Qed.

Lemma reads_cur_env : reads cur_env.
Proof. done. Qed.
Lemma reads_read_cell l : reads (read_cell l).
Proof. done. Qed.
Lemma reads_unwrap v : reads (_unwrap v).
Proof. done. Qed.
Lemma reads_type_name v : reads (_type_name v).
Proof. done. Qed.
Lemma reads_inst_of i : reads (inst_of i).
Proof. done. Qed.
Lemma reads_get_cell env name : reads (get_cell env name).
Proof. done. Qed.
Lemma reads_get_function env name : reads (get_function env name).
Proof. done. Qed.
Lemma reads_get_class env name : reads (get_class env name).
Proof. done. Qed.
Lemma reads_format_value n v : reads (format_value n v).
Proof. by intros s. Qed.

Lemma reads_check_type ann v : reads (check_type ann v).
Proof.
  intros s. destruct ann as [a|]; [|done]. unfold check_type, bind. simpl.
  by case_decide.
Qed.

Lemma ext_same_envs b s s' :
  envs s' = envs s → current_env s' = current_env s →
  length (cells s) ≤ length (cells s') → ext_upto b s s'.
Proof.
  intros He Hc Hl. split; try done.
  - by rewrite He.
  - intros i e _ Hi. exists e. rewrite He. eauto using frame_ext_refl.
  - unfold wf. by rewrite He, Hc.
Qed.

Lemma pres_Cell_new v : pres (Cell_new v).
Proof.
  intros s b _. apply ext_same_envs; try done. simpl. rewrite length_app. lia.
Qed.

Lemma pres_write_cell l v : pres (write_cell l v).
Proof.
  intros s b _. apply ext_same_envs; try done. simpl. by rewrite length_insert.
Qed.

Lemma pres_Instance_alloc cd : pres (Instance_alloc cd).
Proof. intros s b _. by apply ext_same_envs. Qed.

Lemma pres_set_field i name l : pres (set_field i name l).
Proof. intros s b _. by apply ext_same_envs. Qed.

(** Updating one environment in place. *)
Lemma ext_alter_env b s f i :
  (∀ e, frame_ext (i ≠ current_env s) e (f e)) →
  ext_upto b s (set_envs (alter f i) s).
Proof.
  intros Hf. split; simpl; try done.
  - by rewrite length_alter.
  - intros j e _ Hj. destruct (decide (i = j)) as [->|Hne].
    + exists (f e). rewrite list_lookup_alter_eq, Hj. auto.
    + exists e. rewrite list_lookup_alter_ne by done. eauto using frame_ext_refl.
  - intros [Hc Hp]. split; simpl.
    + by rewrite length_alter.
    + intros j e p Hj Hpar. destruct (decide (i = j)) as [->|Hne].
      * rewrite list_lookup_alter_eq in Hj.
        destruct (envs s !! j) as [e0|] eqn:E; simplify_eq/=.
        destruct (Hf e0) as (Hpe & _). rewrite Hpe in Hpar. eauto.
      * rewrite list_lookup_alter_ne in Hj by done. eauto.
Qed.

Lemma is_Some_lookup_insert_mono {A} (m : gmap string A) k x j :
  is_Some (m !! j) → is_Some (<[k:=x]> m !! j).
Proof.
  intros H. destruct (decide (k = j)) as [->|Hne].
  - rewrite lookup_insert_eq. eauto.
  - by rewrite lookup_insert_ne.
Qed.

Lemma pres_define_function env name fd : pres (define_function env name fd).
Proof.
  intros s b _. apply ext_alter_env. intros e. repeat split; simpl; auto.
  intros f. apply is_Some_lookup_insert_mono.
Qed.

Lemma pres_define_class env name cd : pres (define_class env name cd).
Proof.
  intros s b _. apply ext_alter_env. intros e. repeat split; simpl; auto.
  intros f. apply is_Some_lookup_insert_mono.
Qed.

(** [self.current_env.define_variable(name, v)] *)
Lemma pres_define_variable_current name v :
  pres (env <- cur_env;; define_variable env name v).
Proof.
  intros s b Hb. unfold bind at 1. simpl.
  assert (Hset : ∀ s' l, current_env s' = current_env s →
            ext_upto b s'
              (set_envs (alter (with_variables (insert name l)) (current_env s)) s')).
  { intros s' l Hc. apply ext_alter_env. intros e. rewrite Hc.
    repeat split; simpl; auto. intros Hne. by destruct Hne. }
  destruct v; simpl; try apply Hset; try done;
    (unfold bind; simpl; eapply ext_trans;
      [eapply (pres_Cell_new _ s b Hb) | apply Hset; done]).
Qed.

(** *** Filling and entering a fresh environment *)

Lemma pres_at_of_pres b k {A} (m : M A) : pres m → pres_at b k m.
Proof. intros H s Hb Hk. apply H. lia. Qed.

Lemma pres_at_bind b k {A B} (m : M A) (f : A → M B) :
  pres_at b k m → (∀ a, pres_at b k (f a)) → pres_at b k (bind m f).
Proof.
  intros Hm Hf s Hb Hk. unfold bind. specialize (Hm s Hb Hk).
  destruct (m s) as [[a|e|] s1]; simpl in *; try done.
  eapply ext_trans; [exact Hm|]. apply Hf; [done|]. destruct Hm. lia.
Qed.

Lemma ext_alter_above b s f k :
  b ≤ k → (∀ e, parent (f e) = parent e) →
  ext_upto b s (set_envs (alter f k) s).
Proof.
  intros Hb Hf. split; simpl; try done.
  - by rewrite length_alter.
  - intros j e Hj Hl. exists e. rewrite list_lookup_alter_ne by lia.
    eauto using frame_ext_refl.
  - intros [Hc Hp]. split; simpl.
    + by rewrite length_alter.
    + intros j e p Hj Hpar. destruct (decide (k = j)) as [->|Hne].
      * rewrite list_lookup_alter_eq in Hj.
        destruct (envs s !! j) as [e0|] eqn:E; simplify_eq/=.
        rewrite Hf in Hpar. eauto.
      * rewrite list_lookup_alter_ne in Hj by done. eauto.
Qed.

Lemma pres_at_define_variable b k name v : pres_at b k (define_variable k name v).
Proof.
  intros s Hb Hk.
  assert (Hset : ∀ s' l,
            ext_upto b s' (set_envs (alter (with_variables (insert name l)) k) s')).
  { intros s' l. by apply ext_alter_above. }
  destruct v; simpl; try apply Hset;
    (unfold bind; simpl; eapply ext_trans;
      [eapply (pres_Cell_new _ s b); lia | apply Hset]).
Qed.

Lemma pres_at_define_variables b k bs : pres_at b k (define_variables k bs).
Proof.
  induction bs as [|[name v] bs IH]; simpl.
  - apply pres_at_of_pres, pres_ret.
  - apply pres_at_bind; [apply pres_at_define_variable | done].
Qed.

Lemma wf_set_current_env s k :
  wf s → k < length (envs s) → wf (set_current_env k s).
Proof. intros [_ Hp] Hk. by split. Qed.

Lemma pres_at_run_in b k ev body : pres (ev body) → pres_at b k (run_in ev k body).
Proof.
  intros Hev s Hb Hk. unfold run_in, bind, try_finally. simpl.
  specialize (Hev (set_current_env k s) b). simpl in Hev.
  destruct Hev as [c l cl f w]; [lia|]. simpl in *.
  split; simpl; try done.
  - intros i e Hi He. destruct (f i e Hi He) as (e' & He' & Hp & Hv & Hfc).
    exists e'. split; [done|]. split; [done|]. split; [|done].
    intros _. apply Hv. lia.
  - intros Hw. destruct (w (wf_set_current_env _ _ Hw Hk)) as [_ Hp].
    split; simpl; [|done]. destruct Hw. lia.
Qed.

Lemma ext_alloc {A} b s p (rest : nat → M A) :
  b ≤ length (envs s) → (wf s → p < length (envs s)) →
  pres_at b (length (envs s)) (rest (length (envs s))) →
  ext_upto b s (bind (Environment_alloc (Some p)) rest s).2.
Proof.
  intros Hb Hp Hrest. unfold bind, Environment_alloc.
  eapply ext_trans; [|apply Hrest; [done|simpl; rewrite length_app; simpl; lia]].
  split; simpl; try done.
  - rewrite length_app. lia.
  - intros i e Hi He. exists e. split; [|apply frame_ext_refl].
    rewrite lookup_app_l; [done|]. by eapply lookup_lt_Some.
  - intros Hw. specialize (Hp Hw). destruct Hw as [Hc Hpar]. split; simpl.
    + rewrite length_app. lia.
    + intros i e q Hi Hq. apply lookup_app_Some in Hi as [Hi|[Hlen Hi]]; [eauto|].
      apply list_lookup_singleton_Some in Hi as [Hi <-]. simpl in Hq.
      simplify_eq. lia.
Qed.

Lemma pres_cur_of_pres c {A} (m : M A) : pres m → pres_cur c m.
Proof. intros H s b Hb _. by apply H. Qed.

Lemma pres_cur_bind c {A B} (m : M A) (f : A → M B) :
  pres_cur c m → (∀ a, pres_cur c (f a)) → pres_cur c (bind m f).
Proof.
  intros Hm Hf s b Hb Hc. unfold bind. specialize (Hm s b Hb Hc).
  destruct (m s) as [[a|e|] s1]; simpl in *; try done.
  eapply ext_trans; [exact Hm|]. destruct Hm. apply Hf; [lia|congruence].
Qed.

Lemma pres_cur_env_bind {A} (rest : nat → M A) :
  (∀ c, pres_cur c (rest c)) → pres (bind cur_env rest).
Proof. intros H s b Hb. by apply (H (current_env s)). Qed.

Lemma pres_cur_define_variable c name v : pres_cur c (define_variable c name v).
Proof.
  intros s b Hb <-. by apply (pres_define_variable_current name v s b).
Qed.

Lemma pres_cur_alloc c {A} (rest : nat → M A) :
  (∀ b k, pres_at b k (rest k)) →
  pres_cur c (bind (Environment_alloc (Some c)) rest).
Proof.
  intros H s b Hb Hc. apply ext_alloc; [done| |apply H].
  intros [Hw _]. lia.
Qed.

Lemma pres_alloc_global {A} (rest : nat → M A) :
  (∀ b k, pres_at b k (rest k)) →
  pres (bind (Environment_alloc (Some global_env)) rest).
Proof.
  intros H s b Hb. apply ext_alloc; [done| |apply H].
  intros [Hw _]. unfold global_env. lia.
Qed.

Create HintDb reads discriminated.
#[local] Hint Resolve reads_cur_env reads_read_cell reads_unwrap reads_type_name
  reads_inst_of reads_get_cell reads_get_function reads_get_class
  reads_format_value reads_check_type : reads.

Ltac pres_prim :=
  first
    [ apply pres_ret | apply pres_raise | apply pres_timeout
    | apply pres_Cell_new | apply pres_write_cell
    | apply pres_Instance_alloc | apply pres_set_field
    | apply pres_define_function | apply pres_define_class
    | apply pres_reads; solve [eauto with reads]
    | assumption ].

#[local] Arguments define_variable : simpl never.

Ltac pres_at_go :=
  repeat first
    [ apply pres_at_define_variable
    | apply pres_at_define_variables
    | apply pres_at_run_in; solve [auto]
    | apply pres_at_bind; [|intros ?]
    | apply pres_at_of_pres; pres_prim ].

Ltac pres_go :=
  repeat first
    [ pres_prim
    | apply pres_cur_env_bind; intros ?; apply pres_cur_bind;
        [apply pres_cur_define_variable | intros ?; apply pres_cur_of_pres]
    | apply pres_cur_env_bind; intros ?; apply pres_cur_alloc; intros ? ?;
        pres_at_go
    | apply pres_alloc_global; intros ? ?; pres_at_go
    | apply pres_bind; [|intros ?]
    | apply pres_try_except
    | match goal with
      | |- pres (match ?x with _ => _ end) => destruct x; simpl
      end ].

Section visitors_pres.
Variable ev : node → M value.
Hypothesis ev_pres : ∀ n, pres (ev n).

Lemma pres_visit_all args : pres (visit_all ev args).
Proof. induction args; simpl; pres_go. apply ev_pres. Qed.

Lemma pres_self_cell_or name : pres (self_cell_or name).
Proof. unfold self_cell_or. pres_go. Qed.

Lemma pres_visit_Identifier name : pres (visit_Identifier name).
Proof. unfold visit_Identifier. pres_go; apply pres_self_cell_or. Qed.

Lemma pres_visit_BinaryOp l op r : pres (visit_BinaryOp ev l op r).
Proof. unfold visit_BinaryOp. pres_go; apply ev_pres. Qed.

Lemma pres_visit_Comparison l op r : pres (visit_Comparison ev l op r).
Proof. unfold visit_Comparison. pres_go; apply ev_pres. Qed.

Lemma pres_visit_IfExpr c t f : pres (visit_IfExpr ev c t f).
Proof. unfold visit_IfExpr. pres_go; apply ev_pres. Qed.

Lemma pres_visit_LetStatement n x ann e : pres (visit_LetStatement ev n x ann e).
Proof.
  unfold visit_LetStatement. pres_go. apply ev_pres.
Qed.

Lemma pres_visit_LetExpression x ann e body :
  pres (visit_LetExpression ev x ann e body).
Proof.
  unfold visit_LetExpression. pres_go. apply ev_pres.
Qed.

Lemma pres_visit_FunctionDef fd : pres (visit_FunctionDef fd).
Proof. unfold visit_FunctionDef. pres_go. Qed.

Lemma pres_visit_FunctionCall f args : pres (visit_FunctionCall ev f args).
Proof.
  unfold visit_FunctionCall. pres_go. apply pres_visit_all.
Qed.

Lemma pres_visit_statements stmts last : pres (visit_statements ev stmts last).
Proof.
  revert last. induction stmts; intros last; simpl; pres_go.
  - apply ev_pres.
  - apply IHstmts.
Qed.

Lemma pres_visit_Block stmts : pres (visit_Block ev stmts).
Proof. apply pres_visit_statements. Qed.

Lemma pres_visit_RefExpr x : pres (visit_RefExpr x).
Proof. unfold visit_RefExpr. pres_go. Qed.

Lemma pres_visit_DerefExpr x : pres (visit_DerefExpr x).
Proof. unfold visit_DerefExpr. pres_go. Qed.

Lemma pres_visit_RefAssign r e : pres (visit_RefAssign ev r e).
Proof. unfold visit_RefAssign. pres_go; apply ev_pres. Qed.

Lemma pres_visit_ClassDef cd : pres (visit_ClassDef cd).
Proof. unfold visit_ClassDef. pres_go. Qed.

Lemma pres_init_fields i fs : pres (init_fields i fs).
Proof. induction fs; simpl; pres_go. Qed.

Lemma pres_visit_NewExpr c args : pres (visit_NewExpr ev c args).
Proof.
  unfold visit_NewExpr. pres_go; try apply pres_init_fields;
    try apply pres_visit_all.
Qed.

Lemma pres_visit_MemberAccess o m : pres (visit_MemberAccess ev o m).
Proof. unfold visit_MemberAccess. pres_go; apply ev_pres. Qed.

Lemma pres_visit_MethodCall o m args : pres (visit_MethodCall ev o m args).
Proof.
  unfold visit_MethodCall. pres_go; try apply ev_pres;
    try apply pres_visit_all.
Qed.

Lemma pres_assign_field i fname v : pres (assign_field i fname v).
Proof. unfold assign_field. pres_go. Qed.

Lemma pres_visit_Assign t e : pres (visit_Assign ev t e).
Proof.
  unfold visit_Assign. pres_go;
    try apply ev_pres; try apply pres_self_cell_or; try apply pres_assign_field.
Qed.
End visitors_pres.

(** Every evaluation, whatever its outcome, extends the state it starts from. *)
Lemma pres_visit fuel : ∀ n, pres (visit fuel n).
Proof.
  induction fuel as [|k IH]; intros n; simpl; [apply pres_timeout|].
  destruct n; simpl;
    eauto using pres_ret, pres_visit_Identifier, pres_visit_BinaryOp,
      pres_visit_Comparison, pres_visit_IfExpr, pres_visit_LetStatement,
      pres_visit_LetExpression, pres_visit_FunctionDef, pres_visit_FunctionCall,
      pres_visit_Block, pres_visit_RefExpr, pres_visit_DerefExpr,
      pres_visit_RefAssign, pres_visit_ClassDef, pres_visit_NewExpr,
      pres_visit_MemberAccess, pres_visit_MethodCall, pres_visit_Assign.
Qed.

(** ** Consequences of the extension order *)

Lemma visit_current_env fuel n s : current_env (visit fuel n s).2 = current_env s.
Proof. by destruct (pres_visit fuel n s 0 (Nat.le_0_l _)). Qed.

Lemma visit_wf fuel n s : wf s → wf (visit fuel n s).2.
Proof. by destruct (pres_visit fuel n s 0 (Nat.le_0_l _)). Qed.

Lemma visit_cells_length fuel n s :
  length (cells s) ≤ length (cells (visit fuel n s).2).
Proof. by destruct (pres_visit fuel n s 0 (Nat.le_0_l _)). Qed.

(** A declaration registered in the global environment stays registered
    through every later evaluation, whatever its outcome. *)
Lemma visit_keeps_declarations fuel n s g :
  envs s !! global_env = Some g →
  ∃ g', envs (visit fuel n s).2 !! global_env = Some g' ∧
        (∀ f, is_Some (functions g !! f) → is_Some (functions g' !! f)) ∧
        (∀ c, is_Some (classes g !! c) → is_Some (classes g' !! c)).
Proof.
  intros Hg. destruct (pres_visit fuel n s (length (envs s)) (le_n _)) as [_ _ _ Hf _].
  destruct (Hf global_env g) as (g' & Hg' & _ & _ & H1 & H2).
  - by eapply lookup_lt_Some.
  - done.
  - eauto.
Qed.

(** *** Name lookup *)

Section lookup_facts.
Context {A : Type} (dict : Environment → gmap string A) (undefined : error).

(** Lookup from [c] only reads the chain of [c], which lies below [c]. *)
Lemma lookup_chain_agree (es es' : list Environment) name :
  (∀ i e p, es !! i = Some e → parent e = Some p → p < i) →
  ∀ c fuel fuel',
    c < fuel → c < fuel' → c < length es →
    (∀ i e, i ≤ c → es !! i = Some e →
       ∃ e', es' !! i = Some e' ∧ parent e' = parent e ∧ dict e' = dict e) →
    lookup_chain dict undefined fuel es c name
    = lookup_chain dict undefined fuel' es' c name.
Proof.
  intros Hwf c. induction (lt_wf c) as [c _ IH].
  intros fuel fuel' Hf Hf' Hc Hsame.
  destruct fuel as [|n]; [lia|]. destruct fuel' as [|n']; [lia|]. simpl.
  destruct (lookup_lt_is_Some_2 es c Hc) as [e He].
  destruct (Hsame c e (le_n _) He) as (e' & He' & Hp & Hd).
  rewrite He, He', Hd, Hp.
  destruct (dict e !! name); [done|].
  destruct (parent e) as [p|] eqn:Epar; [|done].
  specialize (Hwf c e p He Epar).
  apply IH; try lia. intros i e0 Hi. apply Hsame. lia.
Qed.

(** In a well-formed state a lookup returns or raises; it never diverges. *)
Lemma lookup_chain_total (es : list Environment) name :
  (∀ i e p, es !! i = Some e → parent e = Some p → p < i) →
  ∀ c fuel, c < fuel → lookup_chain dict undefined fuel es c name ≠ Timeout.
Proof.
  intros Hwf c. induction (lt_wf c) as [c _ IH]. intros fuel Hf.
  destruct fuel as [|n]; [lia|]. simpl.
  destruct (es !! c) as [e|] eqn:He; [|done].
  destruct (dict e !! name); [done|].
  destruct (parent e) as [p|] eqn:Epar; [|done].
  specialize (Hwf c e p He Epar). apply IH; lia.
Qed.
End lookup_facts.

(** *** The call protocol: a fresh environment, filled, then made current *)

Lemma alter_as_insert {A} (f : A → A) i (l : list A) e :
  l !! i = Some e → alter f i l = <[i := f e]> l.
Proof.
  intros H. apply list_eq. intros j. destruct (decide (i = j)) as [->|].
  - rewrite list_lookup_alter_eq, H. simpl.
    rewrite list_lookup_insert_eq; [done | by eapply lookup_lt_Some].
  - by rewrite list_lookup_alter_ne, list_lookup_insert_ne.
Qed.

Lemma define_variable_eq k x v s :
  define_variable k x v s
  = (Ok tt, mkState (alter (with_variables (insert x (bound_cell v s))) k (envs s))
                    (cells s ++ stored v) (instances s) (current_env s)).
Proof.
  destruct s, v; unfold define_variable, bind; simpl; rewrite ?app_nil_r; done.
Qed.

Lemma define_variables_spec k bs : ∀ s e,
  envs s !! k = Some e →
  ∃ vars' extra,
    define_variables k bs s
    = (Ok tt, mkState (<[k := mkEnvironment (parent e) (functions e) vars' (classes e)]>
                         (envs s))
                      (cells s ++ extra) (instances s) (current_env s))
    ∧ (∀ x, x ∉ bs.*1 → vars' !! x = variables e !! x).
Proof.
  induction bs as [|[x v] bs IH]; intros s e He.
  - exists (variables e), []. split; [|done]. simpl. unfold ret.
    rewrite app_nil_r, list_insert_id; [by destruct s|by destruct e].
  - simpl. unfold bind at 1. rewrite define_variable_eq.
    rewrite (alter_as_insert _ _ _ _ He).
    set (e1 := with_variables (insert x (bound_cell v s)) e).
    set (s1 := mkState _ _ _ _).
    assert (He1 : envs s1 !! k = Some e1).
    { simpl. apply list_lookup_insert_eq. by eapply lookup_lt_Some. }
    destruct (IH s1 e1 He1) as (vars' & extra & Heq & Hv).
    exists vars', (stored v ++ extra). split.
    + rewrite Heq. simpl. by rewrite list_insert_insert_eq, <- app_assoc.
    + intros y Hy. simpl in Hy. apply not_elem_of_cons in Hy as [Hne Hy].
      rewrite (Hv y Hy). simpl. by rewrite lookup_insert_ne.
Qed.

Lemma enter_frame_spec p binds s :
  ∃ vars' extra,
    enter_frame p binds s
    = mkState (envs s ++ [mkEnvironment (Some p) ∅ vars' ∅])
              (cells s ++ extra) (instances s) (length (envs s))
    ∧ define_variables (length (envs s)) binds (Environment_alloc (Some p) s).2
      = (Ok tt, set_current_env (current_env s) (enter_frame p binds s))
    ∧ (∀ x, x ∉ binds.*1 → vars' !! x = None).
Proof.
  unfold enter_frame.
  set (s0 := (Environment_alloc (Some p) s).2).
  assert (He : envs s0 !! length (envs s) = Some (Environment_new (Some p))).
  { simpl. by rewrite list_lookup_middle. }
  destruct (define_variables_spec (length (envs s)) binds s0 _ He)
    as (vars' & extra & Heq & Hv).
  exists vars', extra. rewrite Heq. simpl.
  replace (<[length (envs s):=_]> _)
    with (envs s ++ [mkEnvironment (Some p) ∅ vars' ∅]).
  - split; [done|]. split; [done|]. intros x Hx. by rewrite (Hv x Hx).
  - rewrite <- (Nat.add_0_r (length (envs s))) at 1. by rewrite insert_app_r.
Qed.

Lemma call_protocol_eq (ev : node → M value) p binds body s :
  (func_env <- Environment_alloc (Some p);;
   define_variables func_env binds;;;
   run_in ev func_env body) s
  = ((ev body (enter_frame p binds s)).1,
     set_current_env (current_env s) (ev body (enter_frame p binds s)).2).
Proof.
  destruct (enter_frame_spec p binds s) as (vars' & extra & Hs & Hd & _).
  unfold bind at 1. unfold Environment_alloc at 1.
  unfold bind at 1. simpl in Hd. rewrite Hd.
  unfold run_in, bind, try_finally. simpl. by rewrite Hs.
Qed.

(** * The claims *)

Ltac run_bind H := rewrite (bind_ok _ _ _ _ _ H).
Ltac run_unwrap := rewrite (bind_ok (_unwrap _) _ _ _ _ eq_refl).
Ltac run_type_name := rewrite (bind_ok (_type_name _) _ _ _ _ eq_refl).

(** ** Arithmetic *)

(** C7: when both operands of a binary arithmetic node evaluate, an unwrapped
    left operand that is not an int raises the type error that names the left
    side, and otherwise an unwrapped right operand that is not an int raises
    the one that names the right side; a bool operand is such a case, with
    the tag "bool" in the message.  The outcome is an error in each case, so
    no number is produced. *)
Theorem C7_arithmetic_rejects_non_int n left op right s lv s1 rv s2 :
  visit n left s = (Ok lv, s1) →
  visit n right s1 = (Ok rv, s2) →
  let l := unwrap_in s1 lv in
  let r := unwrap_in s2 rv in
  let result := visit (S n) (BinaryOp left op right) s in
  (type_of l ≠ TInt →
     result = (Err (TypeErrorArithLeft (type_name_in s2 l)), s2)) ∧
  (type_of l = TInt → type_of r ≠ TInt →
     result = (Err (TypeErrorArithRight (type_name_in s2 r)), s2)) ∧
  (∀ b, l = VBool b → result = (Err (TypeErrorArithLeft "bool"), s2)) ∧
  (∀ a b, l = VInt a → r = VBool b →
     result = (Err (TypeErrorArithRight "bool"), s2)) ∧
  (type_of l ≠ TInt ∨ type_of r ≠ TInt →
     ∃ e, result = (Err e, s2) ∧ is_type_error e = true).
Proof.
  intros Hl Hr l r result.
  assert (Heq : result =
    match l with
    | VInt a =>
        match r with
        | VInt b =>
            match op with
            | PLUS => (Ok (VInt (a + b)), s2)
            | MINUS => (Ok (VInt (a - b)), s2)
            | MULTIPLY => (Ok (VInt (a * b)), s2)
            | DIVIDE => if decide (b = 0)%Z then (Err DivisionByZero, s2)
                        else (Ok (VInt (a `div` b)%Z), s2)
            | _ => (Err (UnknownBinaryOperator op), s2)
            end
        | _ => (Err (TypeErrorArithRight (type_name_in s2 r)), s2)
        end
    | _ => (Err (TypeErrorArithLeft (type_name_in s2 l)), s2)
    end).
  { subst result. simpl. unfold visit_BinaryOp.
    run_bind Hl. run_unwrap. run_bind Hr. run_unwrap.
    fold l r. destruct l; try done; destruct r; try done;
      destruct op; try done. by case_decide. }
  rewrite Heq. clear Heq. repeat split.
  - intros Hne. by destruct l.
  - intros He Hne. destruct l; try done. by destruct r.
  - intros b ->. done.
  - intros a b -> ->. done.
  - intros [Hne|Hne].
    + destruct l; try done; eauto.
    + destruct l; eauto; destruct r; try done; eauto.
Qed.

Lemma C7_witness :
  (visit 2 (BinaryOp (BoolLiteral true) PLUS (Number 1)) init_state).1
  = Err (TypeErrorArithLeft "bool").
Proof.
  pose proof (C7_arithmetic_rejects_non_int 1 (BoolLiteral true) PLUS (Number 1)
                init_state (VBool true) init_state (VInt 1) init_state
                eq_refl eq_refl) as (_ & _ & H & _).
  by rewrite (H true eq_refl).
Defined.

(** C8: when the operands of a division evaluate to the ints [a] and [b],
    a non-zero [b] gives the floor of the quotient, the one integer [q] with
    [q <= a/b < q+1], for either sign of either operand; [b = 0] raises the
    division error, which is not a type error. *)
Theorem C8_floor_division n left right s lv s1 rv s2 (a b : Z) :
  visit n left s = (Ok lv, s1) →
  unwrap_in s1 lv = VInt a →
  visit n right s1 = (Ok rv, s2) →
  unwrap_in s2 rv = VInt b →
  let result := visit (S n) (BinaryOp left DIVIDE right) s in
  (b ≠ 0%Z →
     ∃ q, result = (Ok (VInt q), s2) ∧
          (0 < b → b * q ≤ a < b * q + b)%Z ∧
          (b < 0 → b * q + b < a ≤ b * q)%Z) ∧
  (b = 0%Z →
     result = (Err DivisionByZero, s2) ∧ is_type_error DivisionByZero = false).
Proof.
  intros Hl Ha Hr Hb result.
  assert (Heq : result = if decide (b = 0)%Z then (Err DivisionByZero, s2)
                         else (Ok (VInt (a `div` b)%Z), s2)).
  { subst result. simpl. unfold visit_BinaryOp.
    run_bind Hl. run_unwrap. rewrite Ha. run_bind Hr. run_unwrap. rewrite Hb.
    by case_decide. }
  rewrite Heq. split.
  - intros Hne. rewrite decide_False by done. exists (a `div` b)%Z.
    split; [done|]. split; intros Hs.
    + pose proof (Z.mod_pos_bound a b Hs). pose proof (Z.div_mod a b Hne). lia.
    + pose proof (Z.mod_neg_bound a b Hs). pose proof (Z.div_mod a b Hne). lia.
  - intros ->. by rewrite decide_True.
Qed.

Lemma C8_witness :
  (∃ q, visit 2 (BinaryOp (Number (-7)) DIVIDE (Number 2)) init_state
        = (Ok (VInt q), init_state) ∧ q = (-4)%Z)
  ∧ (∃ q, visit 2 (BinaryOp (Number 7) DIVIDE (Number (-2))) init_state
          = (Ok (VInt q), init_state) ∧ q = (-4)%Z)
  ∧ visit 2 (BinaryOp (Number 7) DIVIDE (Number 0)) init_state
    = (Err DivisionByZero, init_state).
Proof.
  pose proof (C8_floor_division 1 (Number (-7)) (Number 2) init_state
                _ _ _ _ (-7) 2 eq_refl eq_refl eq_refl eq_refl) as [H1 _].
  pose proof (C8_floor_division 1 (Number 7) (Number (-2)) init_state
                _ _ _ _ 7 (-2) eq_refl eq_refl eq_refl eq_refl) as [H2 _].
  pose proof (C8_floor_division 1 (Number 7) (Number 0) init_state
                _ _ _ _ 7 0 eq_refl eq_refl eq_refl eq_refl) as [_ H3].
  destruct H1 as (q1 & E1 & B1 & _); [lia|].
  destruct H2 as (q2 & E2 & _ & B2); [lia|].
  destruct (H3 eq_refl) as [E3 _].
  split; [exists q1; split; [exact E1|lia]|].
  split; [exists q2; split; [exact E2|lia]|exact E3].
Defined.

(** ** Comparison and reference assignment: which types must agree *)

(** C2, as stated, fails: [a == b] with [a] an instance of [A] and [b] an
    instance of [B] compares two values whose type tags are the distinct class
    names "A" and "B", and yet it raises nothing and returns 0. *)
Lemma C2_counterexample :
  let r := visit 2 (Comparison (Identifier "a") EQUALS (Identifier "b")) two_objects in
  type_name_in two_objects (VCell 0) = "A" ∧
  type_name_in two_objects (VCell 1) = "B" ∧
  visit 1 (Identifier "a") two_objects = (Ok (VCell 0), two_objects) ∧
  visit 1 (Identifier "b") two_objects = (Ok (VCell 1), two_objects) ∧
  r = (Ok (VInt 0), two_objects).
Proof. vm_compute. repeat split; reflexivity. Qed.

(** C2, amended: when both operands evaluate, [==] raises the comparison type
    error exactly when the host types of the two unwrapped values differ
    (int, bool, string, None, instance: every instance has the same host
    type, whatever its class), and otherwise returns the int 1 when the two
    values are equal (two instances: when they are the same object) and the
    int 0 when they are not. *)
Theorem C2_comparison_by_host_type n left right s lv s1 rv s2 :
  visit n left s = (Ok lv, s1) →
  visit n right s1 = (Ok rv, s2) →
  let l := unwrap_in s1 lv in
  let r := unwrap_in s2 rv in
  let result := visit (S n) (Comparison left EQUALS right) s in
  (type_of l ≠ type_of r →
     result = (Err (TypeErrorComparison (type_name_in s2 l) (type_name_in s2 r)), s2)) ∧
  (type_of l = type_of r → l = r → result = (Ok (VInt 1), s2)) ∧
  (type_of l = type_of r → l ≠ r → result = (Ok (VInt 0), s2)) ∧
  ((∃ e, result.1 = Err e) ↔ type_of l ≠ type_of r) ∧
  (∀ i j, l = VInstance i → r = VInstance j →
     result = (Ok (VInt (if decide (i = j) then 1 else 0)), s2)).
Proof.
  intros Hl Hr l r result.
  assert (Heq : result =
    if decide (type_of l ≠ type_of r)
    then (Err (TypeErrorComparison (type_name_in s2 l) (type_name_in s2 r)), s2)
    else (Ok (VInt (if decide (l = r) then 1 else 0)), s2)).
  { subst result. simpl. unfold visit_Comparison.
    run_bind Hl. run_unwrap. run_bind Hr. run_unwrap. fold l r.
    by case_decide. }
  rewrite Heq. clear Heq. repeat split.
  - intros Hne. by rewrite decide_True.
  - intros He Hv. rewrite decide_False by (intros H; by apply H).
    by rewrite decide_True.
  - intros He Hv. rewrite decide_False by (intros H; by apply H).
    by rewrite decide_False.
  - intros [e He]. case_decide; [done|]. by simpl in He.
  - intros Hne. rewrite decide_True by done. eauto.
  - intros i j -> ->. rewrite decide_False by (intros H; by apply H).
    do 2 f_equal. repeat case_decide; congruence.
Qed.

Lemma C2_witness :
  visit 2 (Comparison (Identifier "a") EQUALS (Identifier "b")) two_objects
  = (Ok (VInt 0), two_objects)
  ∧ visit 2 (Comparison (Number 1) EQUALS (BoolLiteral true)) init_state
    = (Err (TypeErrorComparison "int" "bool"), init_state).
Proof.
  split.
  - pose proof (C2_comparison_by_host_type 1 (Identifier "a") (Identifier "b")
                  two_objects (VCell 0) two_objects (VCell 1) two_objects) as H.
    destruct H as (_ & _ & _ & _ & H); [by vm_compute..|].
    exact (H 0 1 eq_refl eq_refl).
  - pose proof (C2_comparison_by_host_type 1 (Number 1) (BoolLiteral true)
                  init_state (VInt 1) init_state (VBool true) init_state
                  eq_refl eq_refl) as (H & _).
    apply H. done.
Defined.

(** C3, as stated, fails: with [a] holding an instance of [A] and [b] an
    instance of [B], the tags of the stored value and of the new value are the
    distinct class names, and yet [a := b] raises nothing: it stores the
    instance of [B] in the cell of [a] and returns it. *)
Lemma C3_counterexample :
  let r := visit 2 (RefAssign (Identifier "a") (Identifier "b")) two_objects in
  visit 1 (Identifier "a") two_objects = (Ok (VCell 0), two_objects) ∧
  type_name_in two_objects (cell_value two_objects 0) = "A" ∧
  type_name_in two_objects (unwrap_in two_objects (VCell 1)) = "B" ∧
  r.1 = Ok (VInstance 1) ∧
  cell_value r.2 0 = VInstance 1.
Proof. vm_compute. repeat split; reflexivity. Qed.

(** C3, amended: when the target of [:=] evaluates to a cell and the value
    evaluates, the assignment raises a type error when the host type of the
    new unwrapped value differs from the host type of the value the cell held
    when the target was evaluated (every instance has the same host type,
    whatever its class); otherwise that same cell is overwritten with the new
    value, which is returned.  When the target evaluates to anything but a
    cell, an error is raised before the value is evaluated. *)
Theorem C3_ref_assign n ref value_expr s c s1 :
  visit n ref s = (Ok c, s1) →
  let result := visit (S n) (RefAssign ref value_expr) s in
  ((∀ l, c ≠ VCell l) → result = (Err RefAssignNotCell, s1)) ∧
  (∀ l nv s2,
     c = VCell l →
     visit n value_expr s1 = (Ok nv, s2) →
     let old := cell_value s1 l in
     let new := unwrap_in s2 nv in
     (type_of old ≠ type_of new →
        result = (Err (TypeErrorExpected (type_name_in s2 old) (type_name_in s2 new)), s2)
        ∧ is_type_error (TypeErrorExpected (type_name_in s2 old) (type_name_in s2 new))
          = true) ∧
     (type_of old = type_of new →
        result = (Ok new, set_cells (λ cs, <[l:=new]> cs) s2) ∧
        (l < length (cells s1) → cell_value result.2 l = new))).
Proof.
  intros Hc result. split.
  - intros Hne. subst result. simpl. unfold visit_RefAssign. run_bind Hc.
    destruct c; try done. by destruct (Hne l).
  - intros l nv s2 -> Hv old new.
    assert (Heq : result =
      if decide (type_of old ≠ type_of new)
      then (Err (TypeErrorExpected (type_name_in s2 old) (type_name_in s2 new)), s2)
      else (Ok new, set_cells (λ cs, <[l:=new]> cs) s2)).
    { subst result. simpl. unfold visit_RefAssign. run_bind Hc.
      rewrite (bind_ok (read_cell l) _ _ _ _ eq_refl). run_bind Hv. run_unwrap.
      fold old new. by case_decide. }
    rewrite Heq. split.
    + intros Hne. by rewrite decide_True.
    + intros He. rewrite decide_False by (intros H; by apply H).
      split; [done|]. intros Hl. simpl. unfold cell_value. simpl.
      rewrite list_lookup_insert_eq; [done|].
      pose proof (visit_cells_length n value_expr s1) as Hlen.
      rewrite Hv in Hlen. simpl in Hlen. lia.
Qed.

Lemma C3_witness :
  visit 2 (RefAssign (Identifier "a") (Identifier "b")) two_objects
  = (Ok (VInstance 1), set_cells (λ cs, <[0:=VInstance 1]> cs) two_objects)
  ∧ visit 2 (RefAssign (Identifier "a") (Number 3)) two_objects
    = (Err (TypeErrorExpected "A" "int"), two_objects)
  ∧ visit 2 (RefAssign (Number 1) (Number 3)) two_objects
    = (Err RefAssignNotCell, two_objects).
Proof.
  pose proof (C3_ref_assign 1 (Identifier "a") (Identifier "b") two_objects
                (VCell 0) two_objects) as [_ H1]; [by vm_compute|].
  pose proof (C3_ref_assign 1 (Identifier "a") (Number 3) two_objects
                (VCell 0) two_objects) as [_ H2]; [by vm_compute|].
  pose proof (C3_ref_assign 1 (Number 1) (Number 3) two_objects
                (VInt 1) two_objects eq_refl) as [H3 _].
  split; [|split].
  - destruct (H1 0 (VCell 1) two_objects eq_refl) as [_ H]; [by vm_compute|].
    destruct H as [H _]; [by vm_compute|]. exact H.
  - destruct (H2 0 (VInt 3) two_objects eq_refl eq_refl) as [H _].
    destruct H as [H _]; [by vm_compute|]. exact H.
  - apply H3. done.
Defined.

(** ** Plain assignment to a bound identifier *)

(** The type error of [visit_Assign] is raised inside the [try] block whose
    handler catches every exception, so it never leaves the visitor: with the
    identifier bound to a cell whose value has another host type than the new
    value, the outcome is the outcome of the handler, the write to a field of
    [self]. *)
Lemma assign_mismatch_runs_handler n x value_expr s v0 s1 l :
  visit n value_expr s = (Ok v0, s1) →
  get_cell (current_env s1) x s1 = (Ok l, s1) →
  type_of (cell_value s1 l) ≠ type_of (unwrap_in s1 v0) →
  visit (S n) (Assign (Identifier x) value_expr) s
  = (self_cell <- self_cell_or x;;
     inst <- _unwrap (VCell self_cell);;
     match inst with
     | VInstance i => assign_field i x (unwrap_in s1 v0)
     | _ => raise (UndefinedVariable x)
     end) s1.
Proof.
  intros Hv Hl Hne. simpl. unfold visit_Assign. run_bind Hv. run_unwrap.
  unfold try_except at 1.
  rewrite (bind_ok cur_env _ _ _ _ eq_refl). run_bind Hl.
  rewrite (bind_ok (read_cell l) _ _ _ _ eq_refl).
  rewrite decide_True by done.
  by do 2 run_type_name.
Qed.

(** C1 fails on the code.  In [c.m(1)] the body [x = "s"] finds the
    parameter [x] bound to a cell that holds the int 1; the new value is a
    string; no error is raised: the call returns "s", the parameter cell still
    holds 1 and the field [x] of [c] now holds "s".  Outside of any method,
    [let x = 1 in x = true] raises the undefined-variable error, which is not a
    type error. *)
Theorem C1_type_error_is_swallowed :
  let r := visit 6 (MethodCall (Identifier "c") "m" [Number 1]) one_object in
  let q := visit 3 (LetExpression "x" None (Number 1)
                      (Assign (Identifier "x") (BoolLiteral true))) init_state in
  r.1 = Ok (VStr "s") ∧
  visit 2 (MemberAccess (Identifier "c") "x") one_object
    = (Ok (VCell 0), one_object) ∧
  cell_value one_object 0 = VNone ∧
  cell_value r.2 0 = VStr "s" ∧
  q.1 = Err (UndefinedVariable "x") ∧
  is_type_error (UndefinedVariable "x") = false.
Proof. vm_compute. repeat split; reflexivity. Qed.

(** ** Declarations are global, bindings are local *)

Lemma get_function_global name fd s g :
  envs s !! global_env = Some g → functions g !! name = Some fd →
  get_function global_env name s = (Ok fd, s).
Proof.
  intros Hg Hf. unfold get_function.
  destruct (envs s) as [|e es] eqn:E; [done|]. simpl in *.
  simplify_eq. by rewrite Hf.
Qed.

Lemma get_class_global name cd s g :
  envs s !! global_env = Some g → classes g !! name = Some cd →
  get_class global_env name s = (Ok cd, s).
Proof.
  intros Hg Hf. unfold get_class.
  destruct (envs s) as [|e es] eqn:E; [done|]. simpl in *.
  simplify_eq. by rewrite Hf.
Qed.

(** C4: whatever environment is current, a function or class declaration is
    written into the global environment, where a lookup finds it; every later
    evaluation, whatever its outcome, leaves each declared name declared; a
    let-statement, in contrast, writes its variable into the environment that
    is current, and into no other.  So [f] and [K], declared inside a let-body,
    are callable and instantiable after the let-expression has returned. *)
Theorem C4_declarations_are_global n s g :
  envs s !! global_env = Some g →
  (∀ fd, ∃ s',
     visit (S n) (FunctionDefNode fd) s
       = (Ok (VStr ("Function '" +:+ fd_name fd +:+ "' defined")), s') ∧
     current_env s' = current_env s ∧
     envs s' = alter (with_functions (insert (fd_name fd) fd)) global_env (envs s) ∧
     get_function global_env (fd_name fd) s' = (Ok fd, s')) ∧
  (∀ cd, ∃ s',
     visit (S n) (ClassDefNode cd) s
       = (Ok (VStr ("Class '" +:+ cd_name cd +:+ "' defined")), s') ∧
     current_env s' = current_env s ∧
     envs s' = alter (with_classes (insert (cd_name cd) cd)) global_env (envs s) ∧
     get_class global_env (cd_name cd) s' = (Ok cd, s')) ∧
  (∀ fuel later f,
     is_Some (functions g !! f) →
     ∃ fd, get_function global_env f (visit fuel later s).2
           = (Ok fd, (visit fuel later s).2)) ∧
  (∀ fuel later c,
     is_Some (classes g !! c) →
     ∃ cd, get_class global_env c (visit fuel later s).2
           = (Ok cd, (visit fuel later s).2)) ∧
  (∀ x ann value_expr v s1,
     visit n value_expr s = (Ok v, s1) →
     check_type ann v s1 = (Ok tt, s1) →
     envs (visit (S n) (LetStatement x ann value_expr) s).2
     = alter (with_variables (insert x (bound_cell v s1))) (current_env s) (envs s1)) ∧
  (let s1 := run_program 4 [nested_declarations] init_state in
   (visit 2 (FunctionCall "f" []) s1).1 = Ok (VInt 7) ∧
   (visit 2 (NewExpr "K" []) s1).1 = Ok (VInstance 0) ∧
   (visit 1 (Identifier "a") s1).1 = Err (UndefinedVariable "a")).
Proof.
  intros Hg. split; [|split; [|split; [|split; [|split]]]].
  - intros fd. eexists. split; [reflexivity|]. split; [done|]. split; [done|].
    eapply get_function_global.
    + simpl. rewrite list_lookup_alter_eq, Hg. reflexivity.
    + simpl. apply lookup_insert_eq.
  - intros cd. eexists. split; [reflexivity|]. split; [done|]. split; [done|].
    eapply get_class_global.
    + simpl. rewrite list_lookup_alter_eq, Hg. reflexivity.
    + simpl. apply lookup_insert_eq.
  - intros fuel later f Hf.
    destruct (visit_keeps_declarations fuel later s g Hg) as (g' & Hg' & H1 & _).
    destruct (H1 f Hf) as [fd Hfd]. exists fd. by eapply get_function_global.
  - intros fuel later c Hc.
    destruct (visit_keeps_declarations fuel later s g Hg) as (g' & Hg' & _ & H2).
    destruct (H2 c Hc) as [cd Hcd]. exists cd. by eapply get_class_global.
  - intros x ann value_expr v s1 Hv Hck.
    pose proof (visit_current_env n value_expr s) as Hcur.
    rewrite Hv in Hcur. simpl in Hcur. rewrite <- Hcur.
    simpl. unfold visit_LetStatement. run_bind Hv. run_bind Hck.
    rewrite (bind_ok cur_env _ _ _ _ eq_refl).
    rewrite (bind_ok _ _ _ _ _ (define_variable_eq _ _ _ _)).
    run_unwrap. unfold bind, format_value.
    by destruct (py_str _ _ _).
  - by vm_compute.
Qed.

Lemma C4_witness :
  let s := set_current_env 1
             (set_envs (λ es, es ++ [Environment_new (Some global_env)]) init_state) in
  ∃ s', visit 1 (FunctionDefNode (mkFunctionDef "f" [] (Number 7))) s
          = (Ok (VStr "Function 'f' defined"), s') ∧
        current_env s' = 1 ∧
        get_function global_env "f" s'
          = (Ok (mkFunctionDef "f" [] (Number 7)), s').
Proof.
  intros s.
  destruct (C4_declarations_are_global 0 s (Environment_new None) eq_refl)
    as (H & _).
  destruct (H (mkFunctionDef "f" [] (Number 7))) as (s' & E1 & E2 & _ & E4).
  exists s'. split; [exact E1|]. split; [exact E2|exact E4].
Defined.

(** ** Calls run in a frame parented at the global environment *)

(** Variable lookup in a frame parented at a parentless global environment
    consults that frame and the global one, and nothing else. *)
Lemma get_cell_in_callee es g vars' cs ins y :
  es !! global_env = Some g → parent g = None →
  let s := mkState (es ++ [mkEnvironment (Some global_env) ∅ vars' ∅]) cs ins
                   (length es) in
  get_cell (current_env s) y s
  = (match vars' !! y with
     | Some l => Ok l
     | None =>
         match variables g !! y with
         | Some l => Ok l
         | None => Err (UndefinedVariable y)
         end
     end, s).
Proof.
  intros Hg Hpar s. unfold get_cell. f_equal. simpl.
  rewrite length_app. simpl.
  destruct es as [|e0 es]; [done|]. simpl in Hg. simplify_eq.
  replace (length (g :: es) + 1) with (S (S (length es))) by (simpl; lia).
  cbn [lookup_chain].
  rewrite (list_lookup_middle (g :: es) [] _ (length (g :: es))) by done.
  simpl. destruct (vars' !! y); [done|].
  destruct (variables g !! y); [done|]. by rewrite Hpar.
Qed.

Lemma self_cell_or_eq x s :
  self_cell_or x s
  = (match (get_cell (current_env s) "self" s).1 with
     | Ok l => Ok l
     | Err _ => Err (UndefinedVariable x)
     | Timeout => Timeout
     end, s).
Proof.
  unfold self_cell_or, try_except, bind, cur_env, get_cell. simpl.
  by destruct (lookup_chain _ _ _ _ _ _).
Qed.

(** [visit_Identifier] on a name that no environment of the chain binds. *)
Lemma visit_Identifier_unbound x s :
  get_cell (current_env s) x s = (Err (UndefinedVariable x), s) →
  visit_Identifier x s
  = match (get_cell (current_env s) "self" s).1 with
    | Ok l =>
        match cell_value s l with
        | VInstance i =>
            match dict_get (inst_fields (get_instance s i)) x with
            | Some fl => (Ok (VCell fl), s)
            | None => (Err (UndefinedVariableOrField x), s)
            end
        | _ => (Err (UndefinedVariableOrField x), s)
        end
    | Err _ => (Err (UndefinedVariable x), s)
    | Timeout => (Timeout, s)
    end.
Proof.
  intros Hx. unfold visit_Identifier, try_except at 1.
  rewrite (bind_ok cur_env _ _ _ _ eq_refl), (bind_err _ _ _ _ _ Hx).
  unfold bind at 1. rewrite self_cell_or_eq.
  destruct (get_cell (current_env s) "self" s).1 as [l| |]; try done.
  run_unwrap. simpl. destruct (cell_value s l); try done.
  unfold bind, inst_of. simpl.
  by destruct (dict_get _ _).
Qed.

Lemma callee_unresolved binds s1 g x :
  envs s1 !! global_env = Some g → parent g = None →
  variables g !! x = None → x ∉ binds.*1 →
  self_field (enter_frame global_env binds s1) x = None →
  unresolved_in (enter_frame global_env binds s1) x.
Proof.
  intros Hg Hpar Hx Hnot.
  destruct (enter_frame_spec global_env binds s1) as (vars' & extra & -> & _ & Hv).
  intros Hself k.
  pose proof (get_cell_in_callee (envs s1) g vars' (cells s1 ++ extra)
                (instances s1)) as Hget.
  specialize (Hv x Hnot). set (sb := mkState _ _ _ _) in *.
  assert (Hx' : get_cell (current_env sb) x sb = (Err (UndefinedVariable x), sb)).
  { rewrite (Hget x Hg Hpar). by rewrite Hv, Hx. }
  simpl. rewrite (visit_Identifier_unbound x sb Hx').
  unfold self_field in Hself. rewrite (Hget "self" Hg Hpar) in Hself |- *.
  simpl in *.
  destruct (vars' !! "self") as [l|].
  - destruct (cell_value sb l); eauto. rewrite Hself. eauto.
  - destruct (variables g !! "self") as [l|]; [|eauto].
    destruct (cell_value sb l); eauto. rewrite Hself. eauto.
Qed.

Lemma define_variables_current k bs c : ∀ s,
  define_variables k bs (set_current_env c s)
  = ((define_variables k bs s).1, set_current_env c (define_variables k bs s).2).
Proof.
  induction bs as [|[x v] bs IH]; intros s; [done|]. simpl.
  unfold bind. rewrite !define_variable_eq.
  set (s' := mkState _ _ _ (current_env s)). apply (IH s').
Qed.

(** The state a body starts in does not depend on which environment was
    current at the call. *)
Lemma enter_frame_current p binds c s :
  enter_frame p binds (set_current_env c s) = enter_frame p binds s.
Proof.
  unfold enter_frame.
  pose proof (define_variables_current (length (envs s)) binds c
                (Environment_alloc (Some p) s).2) as H.
  change (define_variables (length (envs (set_current_env c s))) binds
            (Environment_alloc (Some p) (set_current_env c s)).2)
    with (define_variables (length (envs s)) binds
            (set_current_env c (Environment_alloc (Some p) s).2)).
  by rewrite H.
Qed.

Lemma init_fields_ok i fs : ∀ s, (init_fields i fs s).1 = Ok tt.
Proof. induction fs as [|f fs IH]; intros s; [done|]. simpl. apply IH. Qed.

Lemma run_in_eq (ev : node → M value) k body s :
  run_in ev k body s
  = ((ev body (set_current_env k s)).1,
     set_current_env (current_env s) (ev body (set_current_env k s)).2).
Proof. reflexivity. Qed.

Lemma enter_frame_reenter p binds s c :
  set_current_env (length (envs s)) (set_current_env c (enter_frame p binds s))
  = enter_frame p binds s.
Proof. reflexivity. Qed.

(** The prologue of a call, run from the state [s] of the caller: it cannot
    fail, and leaves the state that [enter_frame] describes, up to the switch
    of [current_env]. *)
Lemma prologue_eq p binds s :
  define_variables (length (envs s)) binds
    (set_envs (λ es, es ++ [Environment_new (Some p)]) s)
  = (Ok tt, set_current_env (current_env s) (enter_frame p binds s)).
Proof. by destruct (enter_frame_spec p binds s) as (? & ? & _ & Hd & _). Qed.

Lemma prologue_self_eq p x v binds s :
  define_variables (length (envs s)) binds
    (mkState
       (alter (with_variables (insert x (bound_cell v s))) (length (envs s))
          (envs s ++ [Environment_new (Some p)]))
       (cells s ++ stored v) (instances s) (current_env s))
  = (Ok tt, set_current_env (current_env s) (enter_frame p ((x, v) :: binds) s)).
Proof.
  pose proof (prologue_eq p ((x, v) :: binds) s) as Hd.
  simpl in Hd. unfold bind in Hd at 1. by rewrite define_variable_eq in Hd.
Qed.

(** C5: a function call, a method call and a constructor call each run the
    body in the state [enter_frame global_env binds s1]: a newly allocated
    environment whose parent is the global environment and whose variables
    are the parameters (and [self]), whichever environment the caller was in;
    afterwards the caller's environment is current again.  Hence an
    identifier that is neither a parameter, nor bound in the global
    environment, nor a field of [self], does not resolve in the body, even
    when the caller's environments bind it. *)
Theorem C5_calls_enter_global_frame n s :
  (∀ f args fd argvals s1,
     get_function global_env f s = (Ok fd, s) →
     visit_all (visit n) args s = (Ok argvals, s1) →
     length argvals = length (fd_params fd) →
     let binds := zip (fd_params fd) argvals in
     let r := visit n (fd_body fd) (enter_frame global_env binds s1) in
     visit (S n) (FunctionCall f args) s
       = (r.1, set_current_env (current_env s1) r.2)
     ∧ binds.*1 = fd_params fd) ∧
  (∀ obj m args o s0 i md argvals s1,
     visit n obj s = (Ok o, s0) →
     unwrap_in s0 o = VInstance i →
     _find_method (class_def (get_instance s0 i)) m = Some md →
     visit_all (visit n) args s0 = (Ok argvals, s1) →
     length argvals = length (fd_params md) →
     let binds := ("self", VInstance i) :: zip (fd_params md) argvals in
     let r := visit n (fd_body md) (enter_frame global_env binds s1) in
     visit (S n) (MethodCall obj m args) s
       = (r.1, set_current_env (current_env s1) r.2)
     ∧ binds.*1 = "self" :: fd_params md) ∧
  (∀ c args cd init argvals s1,
     get_class global_env c s = (Ok cd, s) →
     _find_method cd "init" = Some init →
     let inst := length (instances s) in
     let s0 := (init_fields inst (cd_fields cd) (Instance_alloc cd s).2).2 in
     visit_all (visit n) args s0 = (Ok argvals, s1) →
     length argvals = length (fd_params init) →
     let binds := ("self", VInstance inst) :: zip (fd_params init) argvals in
     let r := visit n (fd_body init) (enter_frame global_env binds s1) in
     visit (S n) (NewExpr c args) s
       = (match r.1 with
          | Ok _ => Ok (VInstance inst)
          | Err e => Err e
          | Timeout => Timeout
          end, set_current_env (current_env s1) r.2)
     ∧ binds.*1 = "self" :: fd_params init) ∧
  (∀ binds s1,
     let sb := enter_frame global_env binds s1 in
     current_env sb = length (envs s1) ∧
     (∃ e, envs sb !! current_env sb = Some e ∧
           parent e = Some global_env ∧
           ∀ x, x ∉ binds.*1 → variables e !! x = None) ∧
     (∀ c, enter_frame global_env binds (set_current_env c s1) = sb)) ∧
  (∀ binds s1 g x,
     envs s1 !! global_env = Some g → parent g = None →
     variables g !! x = None →
     x ∉ binds.*1 →
     self_field (enter_frame global_env binds s1) x = None →
     unresolved_in (enter_frame global_env binds s1) x).
Proof.
  split; [|split; [|split; [|split]]].
  - intros f args fd argvals s1 Hfd Hargs Hlen binds r. split.
    + simpl. unfold visit_FunctionCall. run_bind Hfd. run_bind Hargs.
      rewrite decide_False by (intros H; by apply H).
      apply call_protocol_eq.
    + apply fst_zip. lia.
  - intros obj m args o s0 i md argvals s1 Hobj Hi Hfind Hargs Hlen binds r. split.
    + simpl. unfold visit_MethodCall. run_bind Hobj. run_unwrap. rewrite Hi.
      rewrite (bind_ok (inst_of i) _ _ _ _ eq_refl). rewrite Hfind.
      run_bind Hargs. rewrite decide_False by (intros H; by apply H).
      rewrite (bind_ok (Environment_alloc _) _ _ _ _ eq_refl).
      rewrite (bind_ok _ _ _ _ _ (define_variable_eq _ _ _ _)).
      etrans; [apply bind_ok,
        (prologue_self_eq global_env "self" (VInstance i)
           (zip (fd_params md) argvals) s1)|].
      rewrite run_in_eq. simpl current_env. by rewrite enter_frame_reenter.
    + simpl. f_equal. apply fst_zip. lia.
  - intros c args cd init argvals s1 Hcd Hfind inst s0 Hargs Hlen binds r. split.
    + simpl. unfold visit_NewExpr. run_bind Hcd.
      rewrite (bind_ok (Instance_alloc cd) _ _ _ _ eq_refl).
      assert (Hinit : init_fields inst (cd_fields cd) (Instance_alloc cd s).2
                      = (Ok tt, s0)).
      { subst s0.
        pose proof (init_fields_ok inst (cd_fields cd) (Instance_alloc cd s).2) as H.
        destruct (init_fields inst (cd_fields cd) (Instance_alloc cd s).2) as [o st].
        simpl in *. by subst. }
      run_bind Hinit. rewrite Hfind. run_bind Hargs.
      rewrite decide_False by (intros H; by apply H).
      rewrite (bind_ok (Environment_alloc _) _ _ _ _ eq_refl).
      rewrite (bind_ok _ _ _ _ _ (define_variable_eq _ _ _ _)).
      etrans; [apply bind_ok,
        (prologue_self_eq global_env "self" (VInstance inst)
           (zip (fd_params init) argvals) s1)|].
      unfold bind. rewrite run_in_eq. simpl current_env.
      rewrite enter_frame_reenter. fold binds. fold r.
      by destruct r.1.
    + simpl. f_equal. apply fst_zip. lia.
  - intros binds s1 sb. subst sb.
    destruct (enter_frame_spec global_env binds s1) as (vars' & extra & Hs & _ & Hv).
    split; [by rewrite Hs|]. split.
    + rewrite Hs. simpl. eexists. split; [by apply list_lookup_middle|]. done.
    + intros c. apply enter_frame_current.
  - apply callee_unresolved.
Qed.

Lemma C5_witness :
  let caller := enter_frame global_env [("y", VInt 1)] reads_y in
  visit 1 (Identifier "y") caller = (Ok (VCell 0), caller) ∧
  ∃ e, (visit 2 (FunctionCall "f" []) caller).1 = Err e ∧
       (e = UndefinedVariable "y" ∨ e = UndefinedVariableOrField "y").
Proof.
  intros caller. split; [by vm_compute|].
  destruct (C5_calls_enter_global_frame 1 caller) as (Hcall & _ & _ & _ & Hun).
  destruct (Hcall "f" [] (mkFunctionDef "f" [] (Identifier "y")) [] caller)
    as [Heq _]; [by vm_compute..|].
  assert (Hu : unresolved_in (enter_frame global_env [] caller) "y").
  { apply (Hun [] caller
             (with_functions (insert "f" (mkFunctionDef "f" [] (Identifier "y")))
                (Environment_new None)) "y").
    - by vm_compute.
    - done.
    - by vm_compute.
    - apply not_elem_of_nil.
    - by vm_compute. }
  destruct (Hu 0) as [e [He Hor]].
  exists e. split; [|exact Hor]. rewrite Heq.
  cbn [fd_body fd_params zip_with]. by rewrite He.
Defined.

(** ** Let-expressions *)

Lemma alter_new_frame {A} (f : A → A) (es : list A) e :
  alter f (length es) (es ++ [e]) = es ++ [f e].
Proof. rewrite <- (Nat.add_0_r (length es)). by rewrite alter_app_r. Qed.

Lemma enter_frame_single p x v s :
  enter_frame p [(x, v)] s
  = mkState (envs s ++ [mkEnvironment (Some p) ∅ {[x := bound_cell v s]} ∅])
            (cells s ++ stored v) (instances s) (length (envs s)).
Proof.
  unfold enter_frame. simpl. unfold bind. rewrite define_variable_eq.
  unfold set_current_env. simpl. f_equal. rewrite alter_new_frame.
  unfold with_variables, Environment_new. simpl. by rewrite insert_empty.
Qed.

Lemma cell_value_bound v s :
  (∀ l, v = VCell l → l < length (cells s)) →
  default VNone ((cells s ++ stored v) !! bound_cell v s) = unwrap_in s v.
Proof.
  intros Hl. destruct v; simpl; rewrite ?list_lookup_middle by done; try done.
  rewrite app_nil_r. done.
Qed.

(** C6: a let-expression evaluates its value in the environment that is
    current; when the value passes the annotation check, the body runs in the
    state [inner], where a newly allocated environment, whose parent is that
    current environment and whose only variable is [x], is current; the
    outcome of the body, a value or an error, is the outcome of the
    let-expression, and in both cases the environment that was current before
    is current afterwards; every name then resolves from it exactly as it did
    before the body ran, so the binding of [x] made for the body is gone.
    [let x = 5 in let x = 6 in x] gives 6 and leaves [x] unresolved. *)
Theorem C6_let_expression n x ann value_expr body s v s1 :
  visit n value_expr s = (Ok v, s1) →
  check_type ann v s1 = (Ok tt, s1) →
  let inner := enter_frame (current_env s1) [(x, v)] s1 in
  let r := visit n body inner in
  let result := visit (S n) (LetExpression x ann value_expr body) s in
  current_env s1 = current_env s ∧
  (current_env inner = length (envs s1) ∧
   ∃ e, envs inner !! current_env inner = Some e ∧
        parent e = Some (current_env s) ∧
        variables e = {[x := bound_cell v s1]}) ∧
  ((∀ l, v = VCell l → l < length (cells s1)) →
   cell_value inner (bound_cell v s1) = unwrap_in s1 v) ∧
  result = (r.1, set_current_env (current_env s) r.2) ∧
  current_env result.2 = current_env s ∧
  (wf s → ∀ y, (get_cell (current_env s) y result.2).1
               = (get_cell (current_env s) y s1).1) ∧
  ((interpret 3 nested_let init_state).1 = Ok (VInt 6) ∧
   (visit 1 (Identifier "x") (interpret 3 nested_let init_state).2).1
     = Err (UndefinedVariable "x")).
Proof.
  intros Hv Hck inner r result.
  assert (Hcur : current_env s1 = current_env s).
  { pose proof (visit_current_env n value_expr s) as H. by rewrite Hv in H. }
  assert (Hinner : inner = mkState
            (envs s1 ++ [mkEnvironment (Some (current_env s1)) ∅
                           {[x := bound_cell v s1]} ∅])
            (cells s1 ++ stored v) (instances s1) (length (envs s1))).
  { apply enter_frame_single. }
  assert (Hres : result = (r.1, set_current_env (current_env s) r.2)).
  { subst result. simpl. unfold visit_LetExpression. run_bind Hv. run_bind Hck.
    rewrite (bind_ok cur_env _ _ _ _ eq_refl).
    rewrite (bind_ok (Environment_alloc _) _ _ _ _ eq_refl).
    rewrite (bind_ok _ _ _ _ _ (define_variable_eq _ _ _ _)).
    rewrite run_in_eq. simpl current_env. rewrite Hcur. subst r.
    match goal with
    | |- ((visit n body ?X).1, _) = _ => replace X with inner; [done|]
    end.
    rewrite Hinner. unfold set_current_env. simpl. f_equal.
    rewrite alter_new_frame. unfold with_variables, Environment_new. simpl.
    by rewrite insert_empty, Hcur. }
  split; [done|]. split; [|split; [|split; [done|split; [by rewrite Hres|split]]]].
  - rewrite Hinner. simpl. split; [done|]. eexists.
    split; [by apply list_lookup_middle|]. simpl. by rewrite Hcur.
  - intros Hl. rewrite Hinner. unfold cell_value. simpl.
    by apply cell_value_bound.
  - intros Hwf y. rewrite Hres. unfold get_cell. simpl.
    assert (Hwf1 : wf s1).
    { pose proof (visit_wf n value_expr s Hwf) as H. by rewrite Hv in H. }
    destruct Hwf1 as [Hc1 Hpar1].
    destruct (pres_visit n body inner (length (envs s1))) as [_ Hlen _ Hfr _].
    { rewrite Hinner. simpl. rewrite length_app. lia. }
    fold r in Hlen, Hfr.
    symmetry. apply lookup_chain_agree; try done; try lia.
    + rewrite Hinner in Hlen. simpl in Hlen. rewrite length_app in Hlen.
      simpl in Hlen. lia.
    + intros i e Hi He.
      destruct (Hfr i e) as (e' & He' & Hp & Hvars & _).
      * lia.
      * rewrite Hinner. simpl. rewrite lookup_app_l; [done|lia].
      * exists e'. split; [done|]. split; [done|]. apply Hvars.
        rewrite Hinner. simpl. lia.
  - by vm_compute.
Qed.

Lemma C6_witness :
  visit 2 (LetExpression "x" None (Number 6) (Identifier "x")) init_state
  = (Ok (VCell 0),
     set_current_env 0 (enter_frame 0 [("x", VInt 6)] init_state)).
Proof.
  destruct (C6_let_expression 1 "x" None (Number 6) (Identifier "x") init_state
              (VInt 6) init_state eq_refl eq_refl) as (_ & _ & _ & H & _).
  exact H.
Defined.

(** ** Arguments are passed by cell *)

Lemma visit_statements_app (ev : node → M value) stmts last0 stmt s v s1 :
  visit_statements ev stmts last0 s = (Ok v, s1) →
  visit_statements ev (stmts ++ [stmt]) last0 s = ev stmt s1.
Proof.
  revert last0 s. induction stmts as [|st stmts IH]; intros last0 s H; simpl in *.
  - inversion H; subst. unfold bind. by destruct (ev stmt s1) as [[?| |] ?].
  - unfold bind in *. destruct (ev st s) as [[w| |] s']; try done. eauto.
Qed.

Lemma visit_Identifier_bound k x s l :
  get_cell (current_env s) x s = (Ok l, s) →
  visit (S k) (Identifier x) s = (Ok (VCell l), s).
Proof.
  intros Hx. simpl. unfold visit_Identifier, try_except.
  rewrite (bind_ok cur_env _ _ _ _ eq_refl). by run_bind Hx.
Qed.

(** The body [p := b], run where [p] is bound to a cell that holds an int. *)
Lemma param_ref_assign n p l old b inner :
  get_cell (current_env inner) p inner = (Ok l, inner) →
  cells inner !! l = Some (VInt old) →
  visit (2 + n) (RefAssign (Identifier p) (Number b)) inner
  = (Ok (VInt b), set_cells (λ cs, <[l:=VInt b]> cs) inner).
Proof.
  intros Hp Hold. change (2 + n) with (S (S n)). cbn [visit].
  unfold visit_RefAssign.
  run_bind (visit_Identifier_bound n p inner l Hp).
  rewrite (bind_ok (read_cell l) _ _ _ _ eq_refl).
  rewrite (bind_ok (visit (S n) (Number b)) _ _ _ _ eq_refl). run_unwrap.
  unfold cell_value. rewrite Hold. done.
Qed.

(** [p := e], run where [p] is bound to the cell [l]: the value of [e],
    unwrapped, is written into [l] when its host type is that of the value
    [l] held before [e] was evaluated. *)
Lemma ref_assign_bound m p e l inner nv fin :
  get_cell (current_env inner) p inner = (Ok l, inner) →
  visit (S m) e inner = (Ok nv, fin) →
  type_of (cell_value inner l) = type_of (unwrap_in fin nv) →
  visit (S (S m)) (RefAssign (Identifier p) e) inner
  = (Ok (unwrap_in fin nv),
     set_cells (λ cs, <[l:=unwrap_in fin nv]> cs) fin).
Proof.
  intros Hp He Hty. cbn [visit]. unfold visit_RefAssign.
  run_bind (visit_Identifier_bound m p inner l Hp).
  rewrite (bind_ok (read_cell l) _ _ _ _ eq_refl).
  run_bind He. run_unwrap. by rewrite decide_False by (by intros H).
Qed.

Lemma get_cell_newest es e cs ins y l :
  variables e !! y = Some l →
  let s := mkState (es ++ [e]) cs ins (length es) in
  get_cell (current_env s) y s = (Ok l, s).
Proof.
  intros Hy s. unfold get_cell. simpl. rewrite length_app. simpl.
  rewrite Nat.add_1_r. simpl. rewrite list_lookup_middle by done.
  by rewrite Hy.
Qed.

(** Filling a frame: the cells allocated are those of the values that are
    not cells, in order; a name that is not bound again later is bound to
    the cell its value is, or to the cell allocated for its value. *)
Lemma define_variables_cells k bs : ∀ s e,
  envs s !! k = Some e →
  ∃ vars',
    define_variables k bs s
    = (Ok tt, mkState (<[k := mkEnvironment (parent e) (functions e) vars' (classes e)]>
                         (envs s))
                      (cells s ++ concat (stored <$> bs.*2)) (instances s)
                      (current_env s))
    ∧ (∀ x, x ∉ bs.*1 → vars' !! x = variables e !! x)
    ∧ (∀ i x v, bs !! i = Some (x, v) → x ∉ (drop (S i) bs).*1 →
         vars' !! x
         = Some (match v with
                 | VCell l => l
                 | _ => length (cells s)
                        + length (concat (stored <$> (take i bs).*2))
                 end)).
Proof.
  induction bs as [|[x v] bs IH]; intros s e He.
  - exists (variables e). split; [|split; [done|by intros i x v]].
    simpl. unfold ret.
    rewrite app_nil_r, list_insert_id; [by destruct s|by destruct e].
  - simpl. unfold bind at 1. rewrite define_variable_eq.
    rewrite (alter_as_insert _ _ _ _ He).
    set (e1 := with_variables (insert x (bound_cell v s)) e).
    set (s1 := mkState _ _ _ _).
    assert (He1 : envs s1 !! k = Some e1).
    { simpl. apply list_lookup_insert_eq. by eapply lookup_lt_Some. }
    destruct (IH s1 e1 He1) as (vars' & Heq & Hv & Hlast).
    exists vars'. split; [|split].
    + rewrite Heq. simpl. by rewrite list_insert_insert_eq, <- app_assoc.
    + intros y Hy. simpl in Hy. apply not_elem_of_cons in Hy as [Hne Hy].
      rewrite (Hv y Hy). simpl. by rewrite lookup_insert_ne.
    + intros [|i] y w Hi Hy; simpl in Hi, Hy.
      * injection Hi as -> ->. rewrite drop_0 in Hy. rewrite (Hv y Hy). simpl.
        rewrite lookup_insert_eq. f_equal. unfold bound_cell.
        destruct w; simpl; lia.
      * rewrite (Hlast i y w Hi Hy). f_equal. subst s1.
        destruct w; try done; simpl; rewrite !length_app;
          by rewrite <- Nat.add_assoc.
Qed.

Lemma enter_frame_cells p binds s :
  ∃ vars',
    enter_frame p binds s
    = mkState (envs s ++ [mkEnvironment (Some p) ∅ vars' ∅])
              (cells s ++ concat (stored <$> binds.*2)) (instances s)
              (length (envs s))
    ∧ (∀ i x l, binds !! i = Some (x, VCell l) → x ∉ (drop (S i) binds).*1 →
         vars' !! x = Some l).
Proof.
  unfold enter_frame.
  set (s0 := (Environment_alloc (Some p) s).2).
  assert (He : envs s0 !! length (envs s) = Some (Environment_new (Some p))).
  { simpl. by rewrite list_lookup_middle. }
  destruct (define_variables_cells (length (envs s)) binds s0 _ He)
    as (vars' & Heq & _ & Hlast).
  exists vars'. rewrite Heq. simpl.
  replace (<[length (envs s):=_]> _)
    with (envs s ++ [mkEnvironment (Some p) ∅ vars' ∅]).
  - split; [done|]. intros i x l Hi Hx. by rewrite (Hlast i x (VCell l) Hi Hx).
  - rewrite <- (Nat.add_0_r (length (envs s))) at 1. by rewrite insert_app_r.
Qed.

(** What a call leaves of the caller, whatever the body is and however it
    ends: the frame adds a cell for each bound value that is not a cell; a
    name bound to the cell [l] resolves to [l] when the body starts; and a
    variable of the caller that was bound to a cell is bound to that cell
    after the call, where it reads what the body left in it. *)
Lemma call_frame n body binds s1 :
  wf s1 →
  let inner := enter_frame global_env binds s1 in
  let r := visit n body inner in
  let fin := set_current_env (current_env s1) r.2 in
  cells inner = cells s1 ++ concat (stored <$> binds.*2) ∧
  (∀ i p l, binds !! i = Some (p, VCell l) → p ∉ (drop (S i) binds).*1 →
     get_cell (current_env inner) p inner = (Ok l, inner)) ∧
  (∀ x l k, get_cell (current_env s1) x s1 = (Ok l, s1) →
     get_cell (current_env fin) x fin = (Ok l, fin) ∧
     interpret (S k) (Identifier x) fin = (Ok (cell_value r.2 l), fin)).
Proof.
  intros [Hcur Hpar] inner r fin.
  destruct (enter_frame_cells global_env binds s1) as (vars' & Hinner & Hlast).
  fold inner in Hinner.
  split; [by rewrite Hinner|]. split.
  - intros i p l Hi Hp. rewrite Hinner. apply get_cell_newest. by eapply Hlast.
  - intros x l k Hx.
    assert (Hfin : get_cell (current_env fin) x fin = (Ok l, fin)).
    { destruct (pres_visit n body inner (length (envs s1))) as [_ Hlen _ Hfr _].
      { rewrite Hinner. simpl. rewrite length_app. lia. }
      fold r in Hlen, Hfr. unfold get_cell in *. f_equal.
      injection Hx as Hx. rewrite <- Hx. symmetry.
      change (envs fin) with (envs r.2).
      change (current_env fin) with (current_env s1).
      assert (Hle : length (envs s1) < length (envs r.2)).
      { rewrite Hinner in Hlen. simpl in Hlen. rewrite length_app in Hlen.
        simpl in Hlen. lia. }
      apply lookup_chain_agree; [done|lia|lia|done|].
      intros i e Hi He.
      destruct (Hfr i e) as (e' & He' & Hp' & Hv' & _).
      - apply lookup_lt_Some in He. lia.
      - rewrite Hinner. simpl. by apply lookup_app_l_Some.
      - exists e'. split; [done|]. split; [done|]. apply Hv'.
        rewrite Hinner. simpl. apply lookup_lt_Some in He. lia. }
    split; [done|]. unfold interpret.
    run_bind (visit_Identifier_bound k x fin l Hfin). done.
Qed.

Lemma visit_all_ext n args s : ext_upto 0 s (visit_all (visit n) args s).2.
Proof. apply pres_visit_all; [apply pres_visit|lia]. Qed.

Lemma zip_fst_drop {A B} (xs : list A) (ys : list B) i :
  length ys = length xs → (drop i (zip xs ys)).*1 = drop i xs.
Proof.
  intros Hlen. rewrite zip_with_drop, fst_zip; [done|].
  rewrite !length_drop. lia.
Qed.


(** A block that ends in [p := e], run to that statement with [p] bound to
    the cell [l]: the block returns the value written, and [l] holds it. *)
Lemma block_ref_assign m p e l pre w inner mid nv fin :
  visit_statements (visit (2 + m)) pre VNone inner = (Ok w, mid) →
  get_cell (current_env mid) p mid = (Ok l, mid) →
  visit (1 + m) e mid = (Ok nv, fin) →
  type_of (cell_value mid l) = type_of (unwrap_in fin nv) →
  l < length (cells mid) →
  let new := unwrap_in fin nv in
  let r := visit (3 + m) (Block (pre ++ [RefAssign (Identifier p) e])) inner in
  r = (Ok new, set_cells (λ cs, <[l:=new]> cs) fin) ∧ cell_value r.2 l = new.
Proof.
  intros Hpre Hp He Hty Hl new r.
  assert (Hr : r = (Ok new, set_cells (λ cs, <[l:=new]> cs) fin)).
  { subst r. change (3 + m) with (S (2 + m)). cbn [visit]. unfold visit_Block.
    rewrite (visit_statements_app _ _ _ _ _ _ _ Hpre).
    by apply ref_assign_bound. }
  split; [done|]. rewrite Hr. unfold cell_value. simpl.
  rewrite list_lookup_insert_eq; [done|].
  pose proof (visit_cells_length (1 + m) e mid) as Hlen.
  rewrite He in Hlen. simpl in Hlen. lia.
Qed.

(** The call [f(args)], once [f] is found and the arguments are evaluated. *)
Lemma function_call_eq n f args fd vs s s1 :
  get_function global_env f s = (Ok fd, s) →
  visit_all (visit n) args s = (Ok vs, s1) →
  length vs = length (fd_params fd) →
  let r := visit n (fd_body fd)
             (enter_frame global_env (zip (fd_params fd) vs) s1) in
  visit (S n) (FunctionCall f args) s
  = (r.1, set_current_env (current_env s1) r.2).
Proof.
  intros Hf Hargs Hlen r. cbn [visit]. unfold visit_FunctionCall.
  run_bind Hf. run_bind Hargs.
  rewrite decide_False by (by intros H).
  by rewrite call_protocol_eq.
Qed.

(** The call [obj.m(args)], once the method is found and the arguments are
    evaluated. *)
Lemma method_call_eq n obj m args o s s0 i md vs s1 :
  visit n obj s = (Ok o, s0) →
  unwrap_in s0 o = VInstance i →
  _find_method (class_def (get_instance s0 i)) m = Some md →
  visit_all (visit n) args s0 = (Ok vs, s1) →
  length vs = length (fd_params md) →
  let r := visit n (fd_body md)
             (enter_frame global_env
                (("self", VInstance i) :: zip (fd_params md) vs) s1) in
  visit (S n) (MethodCall obj m args) s
  = (r.1, set_current_env (current_env s1) r.2).
Proof.
  intros Hobj Hi Hfind Hargs Hlen r. cbn [visit]. unfold visit_MethodCall.
  run_bind Hobj. run_unwrap. rewrite Hi.
  rewrite (bind_ok (inst_of i) _ _ _ _ eq_refl). rewrite Hfind.
  run_bind Hargs. rewrite decide_False by (by intros H).
  rewrite (bind_ok (Environment_alloc _) _ _ _ _ eq_refl).
  rewrite (bind_ok _ _ _ _ _ (define_variable_eq _ _ _ _)).
  etrans; [apply bind_ok,
    (prologue_self_eq global_env "self" (VInstance i) (zip (fd_params md) vs) s1)|].
  rewrite run_in_eq. simpl current_env. by rewrite enter_frame_reenter.
Qed.

(** The frame of a call whose body is [{ p := e }], entered with [p] bound
    to the cell [l] of the caller. *)
Lemma frame_ref_assign m binds s1 i p l e nv fin :
  wf s1 →
  binds !! i = Some (p, VCell l) →
  p ∉ (drop (S i) binds).*1 →
  l < length (cells s1) →
  let inner := enter_frame global_env binds s1 in
  visit (1 + m) e inner = (Ok nv, fin) →
  type_of (cell_value s1 l) = type_of (unwrap_in fin nv) →
  let r := visit (3 + m) (Block [RefAssign (Identifier p) e]) inner in
  r.1 = Ok (unwrap_in fin nv) ∧ cell_value r.2 l = unwrap_in fin nv.
Proof.
  intros Hwf Hi Hp Hl inner He Hty r.
  destruct (call_frame 0 (Number 0) binds s1 Hwf) as (Hcells & Hpar & _).
  fold inner in Hcells, Hpar.
  assert (Hsame : cell_value inner l = cell_value s1 l).
  { unfold cell_value. rewrite Hcells. by rewrite lookup_app_l. }
  destruct (block_ref_assign m p e l [] VNone inner inner nv fin)
    as [Hr Hv]; try done.
  - by eapply Hpar.
  - by rewrite Hsame.
  - rewrite Hcells, length_app. lia.
  - subst r. cbn [app] in Hr, Hv. split; [by rewrite Hr|exact Hv].
Qed.

(** C9: arguments are passed by cell.  An identifier bound to a cell
    evaluates to that cell.  In a call [f(args)] and in a method call
    [obj.m(args)], with any number of parameters and any body, the frame of
    the callee allocates a cell for each argument value that is not a cell
    and none for one that is; a parameter whose argument evaluated to the
    cell [l] names [l] itself when the body starts, unless the parameter
    list names it again further on; and a variable [x] of the caller that is
    bound to a cell [l] is still bound to [l] when the call is over, whatever
    its outcome, and reads what the body left in [l].  A block that ends in
    [p := e], run to that statement with [p] naming [l], writes the value of
    [e] into [l] when its host type is that of the value [l] held.  Hence
    for a function or a method declared with the body [{ p := e }] the call
    returns the value of [e], and the caller's variable that was passed for
    [p] reads that value after the call. *)
Theorem C9_argument_cell_is_shared s :
  wf s →
  (∀ x l k, get_cell (current_env s) x s = (Ok l, s) →
     visit (S k) (Identifier x) s = (Ok (VCell l), s)) ∧
  (∀ n f args fd vs s1,
     get_function global_env f s = (Ok fd, s) →
     visit_all (visit n) args s = (Ok vs, s1) →
     length vs = length (fd_params fd) →
     let inner := enter_frame global_env (zip (fd_params fd) vs) s1 in
     let r := visit n (fd_body fd) inner in
     let result := visit (S n) (FunctionCall f args) s in
     result = (r.1, set_current_env (current_env s) r.2) ∧
     cells inner = cells s1 ++ concat (stored <$> vs) ∧
     (∀ i p l, fd_params fd !! i = Some p → vs !! i = Some (VCell l) →
        p ∉ drop (S i) (fd_params fd) →
        get_cell (current_env inner) p inner = (Ok l, inner)) ∧
     (∀ x l k, get_cell (current_env s1) x s1 = (Ok l, s1) →
        get_cell (current_env result.2) x result.2 = (Ok l, result.2) ∧
        interpret (S k) (Identifier x) result.2
        = (Ok (cell_value r.2 l), result.2))) ∧
  (∀ n obj m args o s0 i md vs s1,
     visit n obj s = (Ok o, s0) →
     unwrap_in s0 o = VInstance i →
     _find_method (class_def (get_instance s0 i)) m = Some md →
     visit_all (visit n) args s0 = (Ok vs, s1) →
     length vs = length (fd_params md) →
     let inner := enter_frame global_env
                    (("self", VInstance i) :: zip (fd_params md) vs) s1 in
     let r := visit n (fd_body md) inner in
     let result := visit (S n) (MethodCall obj m args) s in
     result = (r.1, set_current_env (current_env s) r.2) ∧
     cells inner = cells s1 ++ VInstance i :: concat (stored <$> vs) ∧
     (∀ j p l, fd_params md !! j = Some p → vs !! j = Some (VCell l) →
        p ∉ drop (S j) (fd_params md) →
        get_cell (current_env inner) p inner = (Ok l, inner)) ∧
     (∀ x l k, get_cell (current_env s1) x s1 = (Ok l, s1) →
        get_cell (current_env result.2) x result.2 = (Ok l, result.2) ∧
        interpret (S k) (Identifier x) result.2
        = (Ok (cell_value r.2 l), result.2))) ∧
  (∀ m p e l pre w inner mid nv fin,
     visit_statements (visit (2 + m)) pre VNone inner = (Ok w, mid) →
     get_cell (current_env mid) p mid = (Ok l, mid) →
     visit (1 + m) e mid = (Ok nv, fin) →
     type_of (cell_value mid l) = type_of (unwrap_in fin nv) →
     l < length (cells mid) →
     let new := unwrap_in fin nv in
     let r := visit (3 + m) (Block (pre ++ [RefAssign (Identifier p) e])) inner in
     r = (Ok new, set_cells (λ cs, <[l:=new]> cs) fin) ∧
     cell_value r.2 l = new) ∧
  (∀ m f args fd vs s1 i p l e nv fin,
     get_function global_env f s = (Ok fd, s) →
     visit_all (visit (3 + m)) args s = (Ok vs, s1) →
     length vs = length (fd_params fd) →
     fd_body fd = Block [RefAssign (Identifier p) e] →
     fd_params fd !! i = Some p → vs !! i = Some (VCell l) →
     p ∉ drop (S i) (fd_params fd) →
     l < length (cells s1) →
     visit (1 + m) e (enter_frame global_env (zip (fd_params fd) vs) s1)
       = (Ok nv, fin) →
     type_of (cell_value s1 l) = type_of (unwrap_in fin nv) →
     let new := unwrap_in fin nv in
     let result := visit (4 + m) (FunctionCall f args) s in
     result.1 = Ok new ∧
     ∀ x k, get_cell (current_env s1) x s1 = (Ok l, s1) →
       interpret (S k) (Identifier x) s1 = (Ok (cell_value s1 l), s1) ∧
       interpret (S k) (Identifier x) result.2 = (Ok new, result.2)) ∧
  (∀ m obj mname args o s0 i md vs s1 j p l e nv fin,
     visit (3 + m) obj s = (Ok o, s0) →
     unwrap_in s0 o = VInstance i →
     _find_method (class_def (get_instance s0 i)) mname = Some md →
     visit_all (visit (3 + m)) args s0 = (Ok vs, s1) →
     length vs = length (fd_params md) →
     fd_body md = Block [RefAssign (Identifier p) e] →
     fd_params md !! j = Some p → vs !! j = Some (VCell l) →
     p ∉ drop (S j) (fd_params md) →
     l < length (cells s1) →
     visit (1 + m) e
       (enter_frame global_env
          (("self", VInstance i) :: zip (fd_params md) vs) s1)
       = (Ok nv, fin) →
     type_of (cell_value s1 l) = type_of (unwrap_in fin nv) →
     let new := unwrap_in fin nv in
     let result := visit (4 + m) (MethodCall obj mname args) s in
     result.1 = Ok new ∧
     ∀ x k, get_cell (current_env s1) x s1 = (Ok l, s1) →
       interpret (S k) (Identifier x) s1 = (Ok (cell_value s1 l), s1) ∧
       interpret (S k) (Identifier x) result.2 = (Ok new, result.2)).
Proof.
  intros Hwf.
  assert (Hfun : ∀ n f args fd vs s1,
     get_function global_env f s = (Ok fd, s) →
     visit_all (visit n) args s = (Ok vs, s1) →
     length vs = length (fd_params fd) →
     let binds := zip (fd_params fd) vs in
     let r := visit n (fd_body fd) (enter_frame global_env binds s1) in
     wf s1 ∧ binds.*2 = vs ∧ (∀ i, (drop i binds).*1 = drop i (fd_params fd)) ∧
     visit (S n) (FunctionCall f args) s
     = (r.1, set_current_env (current_env s1) r.2) ∧
     current_env s1 = current_env s).
  { intros n f args fd vs s1 Hf Hargs Hlen binds r.
    destruct (visit_all_ext n args s) as [Hc _ _ _ Hw]. rewrite Hargs in Hc, Hw.
    split; [by apply Hw|]. split; [apply snd_zip; lia|].
    split; [intros i; by apply zip_fst_drop|].
    split; [by apply function_call_eq|done]. }
  assert (Hmeth : ∀ n obj m args o s0 i md vs s1,
     visit n obj s = (Ok o, s0) →
     unwrap_in s0 o = VInstance i →
     _find_method (class_def (get_instance s0 i)) m = Some md →
     visit_all (visit n) args s0 = (Ok vs, s1) →
     length vs = length (fd_params md) →
     let binds := ("self", VInstance i) :: zip (fd_params md) vs in
     let r := visit n (fd_body md) (enter_frame global_env binds s1) in
     wf s1 ∧ binds.*2 = VInstance i :: vs ∧
     (∀ j, (drop (S j) binds).*1 = drop j (fd_params md)) ∧
     visit (S n) (MethodCall obj m args) s
     = (r.1, set_current_env (current_env s1) r.2) ∧
     current_env s1 = current_env s).
  { intros n obj m args o s0 i md vs s1 Hobj Hi Hfind Hargs Hlen binds r.
    pose proof (visit_wf n obj s Hwf) as Hw0.
    pose proof (visit_current_env n obj s) as Hc0. rewrite Hobj in Hw0, Hc0.
    destruct (visit_all_ext n args s0) as [Hc _ _ _ Hw]. rewrite Hargs in Hc, Hw.
    split; [by apply Hw|]. split; [subst binds; simpl; f_equal; apply snd_zip; lia|].
    split; [intros j; by apply zip_fst_drop|].
    split; [by eapply method_call_eq|]. simpl in *. congruence. }
  split; [intros x l k; apply visit_Identifier_bound|].
  split; [|split; [|split; [|split]]].
  - intros n f args fd vs s1 Hf Hargs Hlen inner r result.
    destruct (Hfun n f args fd vs s1 Hf Hargs Hlen) as (Hw1 & H2 & H1 & Hcall & Hc).
    destruct (call_frame n (fd_body fd) (zip (fd_params fd) vs) s1 Hw1)
      as (Hcells & Hpar & Hx).
    fold inner in Hcells, Hpar, Hx. fold r in Hx. rewrite H2 in Hcells.
    assert (Hres : result = (r.1, set_current_env (current_env s1) r.2)) by done.
    split; [by rewrite <- Hc|]. split; [done|]. split.
    + intros i p l Hp Hv Hlast. apply (Hpar i).
      * by apply lookup_zip_Some.
      * by rewrite H1.
    + intros x l k Hxl. rewrite Hres. by apply Hx.
  - intros n obj m args o s0 i md vs s1 Hobj Hi Hfind Hargs Hlen inner r result.
    destruct (Hmeth n obj m args o s0 i md vs s1 Hobj Hi Hfind Hargs Hlen)
      as (Hw1 & H2 & H1 & Hcall & Hc).
    destruct (call_frame n (fd_body md)
                (("self", VInstance i) :: zip (fd_params md) vs) s1 Hw1)
      as (Hcells & Hpar & Hx).
    fold inner in Hcells, Hpar, Hx. fold r in Hx. rewrite H2 in Hcells.
    assert (Hres : result = (r.1, set_current_env (current_env s1) r.2)) by done.
    split; [by rewrite <- Hc|]. split; [done|]. split.
    + intros j p l Hp Hv Hlast. apply (Hpar (S j)).
      * simpl. by apply lookup_zip_Some.
      * by rewrite H1.
    + intros x l k Hxl. rewrite Hres. by apply Hx.
  - intros m p e l pre w inner mid nv fin. apply block_ref_assign.
  - intros m f args fd vs s1 i p l e nv fin Hf Hargs Hlen Hbody Hp Hv Hlast Hl
      He Hty new result.
    destruct (Hfun (3 + m) f args fd vs s1 Hf Hargs Hlen)
      as (Hw1 & H2 & H1 & Hcall & Hc).
    set (binds := zip (fd_params fd) vs) in *.
    destruct (frame_ref_assign m binds s1 i p l e nv fin) as [Hr1 Hr2];
      try done.
    { by apply lookup_zip_Some. }
    { by rewrite H1. }
    destruct (call_frame (3 + m) (fd_body fd) binds s1 Hw1) as (_ & _ & Hx).
    assert (Hres : result
              = ((visit (3 + m) (fd_body fd) (enter_frame global_env binds s1)).1,
                 set_current_env (current_env s1)
                   (visit (3 + m) (fd_body fd) (enter_frame global_env binds s1)).2))
      by done.
    rewrite Hbody in Hres, Hx. split; [by rewrite Hres|].
    intros x k Hxl. split.
    + unfold interpret. by run_bind (visit_Identifier_bound k x s1 l Hxl).
    + destruct (Hx x l k Hxl) as [_ Hread]. rewrite Hres. cbn [snd].
      rewrite Hread. by rewrite Hr2.
  - intros m obj mname args o s0 i md vs s1 j p l e nv fin Hobj Hi Hfind Hargs
      Hlen Hbody Hp Hv Hlast Hl He Hty new result.
    destruct (Hmeth (3 + m) obj mname args o s0 i md vs s1 Hobj Hi Hfind Hargs Hlen)
      as (Hw1 & H2 & H1 & Hcall & Hc).
    set (binds := ("self", VInstance i) :: zip (fd_params md) vs) in *.
    destruct (frame_ref_assign m binds s1 (S j) p l e nv fin) as [Hr1 Hr2];
      try done.
    { subst binds. simpl. by apply lookup_zip_Some. }
    { by rewrite H1. }
    destruct (call_frame (3 + m) (fd_body md) binds s1 Hw1) as (_ & _ & Hx).
    assert (Hres : result
              = ((visit (3 + m) (fd_body md) (enter_frame global_env binds s1)).1,
                 set_current_env (current_env s1)
                   (visit (3 + m) (fd_body md) (enter_frame global_env binds s1)).2))
      by done.
    rewrite Hbody in Hres, Hx. split; [by rewrite Hres|].
    intros x k Hxl. split.
    + unfold interpret. by run_bind (visit_Identifier_bound k x s1 l Hxl).
    + destruct (Hx x l k Hxl) as [_ Hread]. rewrite Hres. cbn [snd].
      rewrite Hread. by rewrite Hr2.
Qed.


Lemma C9_witness :
  let result := visit 4 (FunctionCall "f" [Identifier "y"]) caller_of_f in
  wf caller_of_f ∧
  (∃ toks, Ascii_text.lex 60 "func f(p) = { p := 9 }" = Lexer.LOk toks ∧
           Parser.parse 12 toks = Parser.POk declares_f) ∧
  (∃ toks, Ascii_text.lex 60 "f(y)" = Lexer.LOk toks ∧
           Parser.parse 12 toks = Parser.POk (FunctionCall "f" [Identifier "y"])) ∧
  get_function global_env "f" caller_of_f
    = (Ok (mkFunctionDef "f" ["p"] (Block [RefAssign (Identifier "p") (Number 9)])),
       caller_of_f) ∧
  interpret 1 (Identifier "y") caller_of_f = (Ok (VInt 1), caller_of_f) ∧
  result.1 = Ok (VInt 9) ∧
  interpret 1 (Identifier "y") result.2 = (Ok (VInt 9), result.2).
Proof.
  intros result.
  assert (Hwf : wf caller_of_f).
  { split; [vm_compute; lia|]. intros i e p Hi Hp.
    destruct i as [|[|i]]; vm_compute in Hi; [| |done].
    - injection Hi as <-. done.
    - injection Hi as <-. injection Hp as <-. lia. }
  split; [exact Hwf|].
  split; [eexists; split; [by vm_compute|]; by vm_compute|].
  split; [eexists; split; [by vm_compute|]; by vm_compute|].
  split; [by vm_compute|]. split; [by vm_compute|].
  destruct (C9_argument_cell_is_shared caller_of_f Hwf) as (_ & _ & _ & _ & Hcall & _).
  destruct (Hcall 0 "f" [Identifier "y"]
              (mkFunctionDef "f" ["p"] (Block [RefAssign (Identifier "p") (Number 9)]))
              [VCell 0] caller_of_f 0 "p" 0 (Number 9) (VInt 9)
              (enter_frame global_env [("p", VCell 0)] caller_of_f))
    as [Hres Hx].
  - by vm_compute.
  - by vm_compute.
  - done.
  - done.
  - done.
  - done.
  - simpl. apply not_elem_of_nil.
  - vm_compute. lia.
  - by vm_compute.
  - by vm_compute.
  - split; [exact Hres|]. apply (Hx "y" 0). by vm_compute.
Defined.


(** ** The value of a let-statement *)

Lemma string_length_app (a b : string) :
  String.length (a +:+ b) = String.length a + String.length b.
Proof. induction a as [|c a IH]; simpl; [done|]. by rewrite IH. Qed.

(** *** More fuel does not change an outcome *)

Lemma outcome_mapM_settled {A B} (f1 f2 : A → outcome B) l :
  (∀ a, a ∈ l → f1 a ≠ Timeout → f2 a = f1 a) →
  outcome_mapM f1 l ≠ Timeout → outcome_mapM f2 l = outcome_mapM f1 l.
Proof.
  induction l as [|a l IH]; intros Hf; simpl; [done|].
  assert (Ha : f1 a ≠ Timeout → f2 a = f1 a) by (apply Hf; left).
  assert (Hl : outcome_mapM f1 l ≠ Timeout → outcome_mapM f2 l = outcome_mapM f1 l).
  { apply IH. intros b Hb. apply Hf. by right. }
  destruct (f1 a) as [b|e|]; simpl; intros H; [|by rewrite Ha|done].
  rewrite Ha by done. simpl.
  destruct (outcome_mapM f1 l) as [bs|e|]; simpl in *; [|by rewrite Hl|done].
  by rewrite Hl.
Qed.

Lemma py_str_mono s n : ∀ n' v,
  n ≤ n' → py_str n s v ≠ Timeout → py_str n' s v = py_str n s v.
Proof.
  induction n as [|n IH]; intros n' v Hn H.
  - destruct v; simpl in *; try done; by destruct n'.
  - destruct n' as [|n']; [lia|]. destruct v; simpl in *; try done.
    + assert (Hm : outcome_mapM
          (λ kv : string * nat,
             outcome_bind (py_str n' s (VCell kv.2))
               (λ t, Ok ("'" +:+ kv.1 +:+ "': " +:+ t)))
          (inst_fields (get_instance s i))
        = outcome_mapM
          (λ kv : string * nat,
             outcome_bind (py_str n s (VCell kv.2))
               (λ t, Ok ("'" +:+ kv.1 +:+ "': " +:+ t)))
          (inst_fields (get_instance s i))).
      { apply outcome_mapM_settled.
        - intros kv _ Hkv. rewrite IH; [done|lia|].
          by destruct (py_str n s (VCell kv.2)).
        - by destruct (outcome_mapM _ _). }
      by rewrite Hm.
    + rewrite IH; [done|lia|]. by destruct (py_str n s (cell_value s l)).
Qed.

Lemma settled_refl {A} (m : M A) : settled m m.
Proof. by intros s _. Qed.

Lemma settled_timeout {A} (m : M A) : settled timeout m.
Proof. by intros s H. Qed.

Lemma settled_bind {A B} (m1 m2 : M A) (k1 k2 : A → M B) :
  settled m1 m2 → (∀ a, settled (k1 a) (k2 a)) →
  settled (bind m1 k1) (bind m2 k2).
Proof.
  intros Hm Hk s. unfold bind. specialize (Hm s).
  destruct (m1 s) as [[a|e|] s1]; simpl; intros H.
  - rewrite Hm by done. by apply Hk.
  - by rewrite Hm.
  - done.
Qed.

Lemma settled_try_except {A} (m1 m2 h1 h2 : M A) :
  settled m1 m2 → settled h1 h2 →
  settled (try_except m1 h1) (try_except m2 h2).
Proof.
  intros Hm Hh s. unfold try_except. specialize (Hm s).
  destruct (m1 s) as [[a|e|] s1]; simpl; intros H.
  - by rewrite Hm.
  - rewrite Hm by done. by apply Hh.
  - done.
Qed.

Lemma settled_try_finally {A} (m1 m2 : M A) f :
  settled m1 m2 → settled (try_finally m1 f) (try_finally m2 f).
Proof.
  intros Hm s. unfold try_finally. simpl. intros H. by rewrite Hm.
Qed.

Lemma settled_format_value n n' v :
  n ≤ n' → settled (format_value n v) (format_value n' v).
Proof.
  intros Hn s. unfold format_value. simpl. intros H. by rewrite (py_str_mono s n).
Qed.

Ltac settled_go :=
  repeat first
    [ assumption
    | apply settled_refl
    | lazymatch goal with
      | |- settled timeout _ => apply settled_timeout
      | |- settled (bind _ _) _ => apply settled_bind; [|intros ?]
      | |- settled (try_except _ _) _ => apply settled_try_except
      | |- settled (try_finally _ _) _ => apply settled_try_finally
      | |- settled (if decide _ then _ else _) _ => case_decide
      | |- settled (match ?x with _ => _ end) _ => destruct x
      end ].

Section visitors_settled.
Variables ev1 ev2 : node → M value.
Hypothesis ev_settled : ∀ n, settled (ev1 n) (ev2 n).

Lemma settled_visit_all args : settled (visit_all ev1 args) (visit_all ev2 args).
Proof. induction args as [|a args IH]; simpl; settled_go. apply ev_settled. Qed.

Lemma settled_visit_statements stmts : ∀ last,
  settled (visit_statements ev1 stmts last) (visit_statements ev2 stmts last).
Proof.
  induction stmts as [|a stmts IH]; intros last; simpl; settled_go.
  - apply ev_settled.
  - apply IH.
Qed.

Lemma settled_run_in env body : settled (run_in ev1 env body) (run_in ev2 env body).
Proof. unfold run_in. settled_go. apply ev_settled. Qed.

Lemma settled_visitors k1 k2 :
  k1 ≤ k2 →
  (∀ l op r, settled (visit_BinaryOp ev1 l op r) (visit_BinaryOp ev2 l op r)) ∧
  (∀ l op r, settled (visit_Comparison ev1 l op r) (visit_Comparison ev2 l op r)) ∧
  (∀ c t f, settled (visit_IfExpr ev1 c t f) (visit_IfExpr ev2 c t f)) ∧
  (∀ x ann e, settled (visit_LetStatement ev1 k1 x ann e)
                      (visit_LetStatement ev2 k2 x ann e)) ∧
  (∀ x ann e b, settled (visit_LetExpression ev1 x ann e b)
                        (visit_LetExpression ev2 x ann e b)) ∧
  (∀ f args, settled (visit_FunctionCall ev1 f args) (visit_FunctionCall ev2 f args)) ∧
  (∀ stmts, settled (visit_Block ev1 stmts) (visit_Block ev2 stmts)) ∧
  (∀ r e, settled (visit_RefAssign ev1 r e) (visit_RefAssign ev2 r e)) ∧
  (∀ c args, settled (visit_NewExpr ev1 c args) (visit_NewExpr ev2 c args)) ∧
  (∀ o m, settled (visit_MemberAccess ev1 o m) (visit_MemberAccess ev2 o m)) ∧
  (∀ o m args, settled (visit_MethodCall ev1 o m args)
                       (visit_MethodCall ev2 o m args)) ∧
  (∀ t e, settled (visit_Assign ev1 t e) (visit_Assign ev2 t e)).
Proof.
  intros Hk.
  pose proof settled_visit_all. pose proof settled_visit_statements.
  pose proof settled_run_in. pose proof (settled_format_value k1 k2).
  repeat split; intros;
    unfold visit_BinaryOp, visit_Comparison, visit_IfExpr, visit_LetStatement,
      visit_LetExpression, visit_FunctionCall, visit_Block, visit_RefAssign,
      visit_NewExpr, visit_MemberAccess, visit_MethodCall, visit_Assign;
    settled_go; auto.
Qed.
End visitors_settled.

Lemma visit_settled n : ∀ n' e, n ≤ n' → settled (visit n e) (visit n' e).
Proof.
  induction n as [|k IH]; intros n' e Hn; [apply settled_timeout|].
  destruct n' as [|k']; [lia|].
  assert (Hev : ∀ e, settled (visit k e) (visit k' e)) by (intros; apply IH; lia).
  destruct (settled_visitors (visit k) (visit k') Hev k k' ltac:(lia))
    as (? & ? & ? & ? & ? & ? & ? & ? & ? & ? & ? & ?).
  destruct e; cbn [visit]; auto using settled_refl.
Qed.

(** What an evaluation returns, it returns with any other fuel that is
    enough for it to return. *)
Lemma visit_mono n n' e s r :
  visit n e s = r → r.1 ≠ Timeout → (visit n' e s).1 ≠ Timeout →
  visit n' e s = r.
Proof.
  intros <- H H'. destruct (Nat.le_ge_cases n n') as [Hle|Hle].
  - by apply visit_settled.
  - symmetry. by apply visit_settled.
Qed.


(** *** Which values have a text *)

Lemma outcome_mapM_Err {A B} (f : A → outcome B) l e :
  outcome_mapM f l = Err e → ∃ a, a ∈ l ∧ f a = Err e.
Proof.
  induction l as [|a l IH]; simpl; [done|].
  destruct (f a) as [b|e'|] eqn:E; simpl; try done.
  - destruct (outcome_mapM f l) as [bs|e'|]; simpl; try done.
    intros [= <-]. destruct IH as (a' & Ha' & Hf); [done|].
    exists a'. split; [by right|done].
  - intros [= <-]. exists a. split; [by left|done].
Qed.

(** The one error of a rendering is the digit limit of [str]. *)
Lemma py_str_error fuel s : ∀ v e, py_str fuel s v = Err e → e = IntStrDigitsLimit.
Proof.
  induction fuel as [|n IH]; intros v e; destruct v as [z|b|t| |i|l]; simpl;
    try done; try (unfold str_int; case_decide; congruence).
  - destruct (outcome_mapM _ _) as [items|e'|] eqn:E; simpl; try done.
    intros [= <-]. apply outcome_mapM_Err in E as (kv & _ & Hkv).
    destruct (py_str n s (VCell kv.2)) as [t|e''|] eqn:E'; simpl in Hkv; try done.
    injection Hkv as <-. by eapply IH.
  - destruct (py_str n s (cell_value s l)) as [t|e'|] eqn:E; simpl; try done.
    intros [= <-]. by eapply IH.
Qed.

Lemma renderable_ind (s : state) (P : value → Prop) :
  (∀ z, (Z.abs z < int_str_limit)%Z → P (VInt z)) →
  (∀ b, P (VBool b)) → (∀ t, P (VStr t)) → P VNone →
  (∀ l, renderable s (cell_value s l) → P (cell_value s l) → P (VCell l)) →
  (∀ i, Forall (λ kv : string * nat, renderable s (VCell kv.2))
          (inst_fields (get_instance s i)) →
        Forall (λ kv : string * nat, P (VCell kv.2))
          (inst_fields (get_instance s i)) →
        P (VInstance i)) →
  ∀ v, renderable s v → P v.
Proof.
  intros Hint Hbool Hstr Hnone Hcell Hinst. fix IH 2. intros v H.
  destruct H as [z Hz|b|t| |l Hl|i Hi]; auto.
  apply Hinst; [done|].
  induction Hi as [|kv fs Hkv Hfs IHfs]; constructor; [by apply IH|done].
Qed.

Lemma outcome_mapM_Ok {A B} (f : A → outcome B) l bs :
  outcome_mapM f l = Ok bs → Forall (λ a, ∃ b, f a = Ok b) l.
Proof.
  revert bs. induction l as [|a l IH]; intros bs; simpl; [constructor|].
  destruct (f a) as [b|e|] eqn:E; simpl; try done.
  destruct (outcome_mapM f l) as [bs'|e|]; simpl; try done.
  intros _. constructor; [by exists b|by eapply IH].
Qed.

Lemma outcome_mapM_all {A B} (f : A → outcome B) l :
  Forall (λ a, ∃ b, f a = Ok b) l → ∃ bs, outcome_mapM f l = Ok bs.
Proof.
  induction 1 as [|a l [b Hb] Hl [bs IH]]; simpl; [by exists []|].
  exists (b :: bs). by rewrite Hb, IH.
Qed.

Lemma py_str_renderable s n : ∀ v t, py_str n s v = Ok t → renderable s v.
Proof.
  induction n as [|n IH]; intros v t; destruct v; simpl; try done;
    try (intros; by constructor);
    try (unfold str_int; case_decide; [intros; by constructor|done]).
  - intros H. destruct (outcome_mapM _ _) as [items|e|] eqn:E; try done.
    constructor. apply outcome_mapM_Ok in E.
    eapply Forall_impl; [exact E|]. simpl. intros kv [b Hb].
    destruct (py_str n s (VCell kv.2)) as [t'|e|] eqn:E'; try done.
    by eapply IH.
  - intros H. destruct (py_str n s (cell_value s l)) as [t'|e|] eqn:E; try done.
    constructor. by eapply IH.
Qed.

Lemma renderable_py_str s v :
  renderable s v → ∃ d t, ∀ n, d ≤ n → py_str n s v = Ok t.
Proof.
  induction 1 as [z Hz|b|t| |l Hl (d & t & IH)|i Hi IH] using renderable_ind.
  - exists 0, (pretty z). intros n _. destruct n; simpl; unfold str_int;
      by rewrite decide_True.
  - eexists 0, _. intros n _. by destruct n.
  - eexists 0, _. intros n _. by destruct n.
  - eexists 0, _. intros n _. by destruct n.
  - eexists (S d), _. intros [|n] Hn; [lia|]. simpl. rewrite IH by lia. done.
  - assert (Hall : ∃ d, Forall (λ kv : string * nat,
               ∃ t, ∀ n, d ≤ n → py_str n s (VCell kv.2) = Ok t)
               (inst_fields (get_instance s i))).
    { clear Hi. induction IH as [|kv fs (d & t & Hkv) Hfs [d' IHfs]].
      - exists 0. constructor.
      - exists (d `max` d'). constructor.
        + exists t. intros n Hn. apply Hkv. lia.
        + eapply Forall_impl; [exact IHfs|]. simpl. intros kv' [t' Ht'].
          exists t'. intros n Hn. apply Ht'. lia. }
    destruct Hall as [d Hall].
    destruct (outcome_mapM_all
                (λ kv : string * nat,
                   outcome_bind (py_str d s (VCell kv.2))
                     (λ t, Ok ("'" +:+ kv.1 +:+ "': " +:+ t)))
                (inst_fields (get_instance s i))) as [items Hitems].
    { eapply Forall_impl; [exact Hall|]. simpl. intros kv [t Ht].
      rewrite Ht by done. simpl. by eexists. }
    eexists (S d), _. intros [|n] Hn; [lia|].
    rewrite (py_str_mono s (S d) (S n) (VInstance i)); [|lia|].
    + simpl. by rewrite Hitems.
    + simpl. by rewrite Hitems.
Qed.

(** The instance that is its own field has no text. *)
Lemma knot_not_renderable s i l :
  dict_get (inst_fields (get_instance s i)) "me" = Some l →
  cell_value s l = VInstance i →
  ¬ renderable s (VInstance i).
Proof.
  intros Hme Hl H.
  assert (Hgen : ∀ v, renderable s v → v ≠ VInstance i ∧ v ≠ VCell l).
  { induction 1 as [z Hz|b|t| |l' Hl' [IH1 IH2]|i' Hi IH] using renderable_ind;
      try done.
    - split; [done|]. intros [= ->]. by rewrite Hl in IH1.
    - split; [|done]. intros [= ->].
      induction (inst_fields (get_instance s i)) as [|[k c] fs IHfs];
        simpl in Hme; [done|].
      inversion IH as [|? ? [_ Hk] Hfs]; subst. simpl in Hk.
      case_decide; [simplify_eq; congruence|].
      apply IHfs; [done|done|by inversion Hi]. }
  by destruct (Hgen _ H).
Qed.

(** The outcome of a let-statement whose value evaluates and passes the
    annotation check: the variable is bound, then the value is rendered. *)
Lemma let_statement_outcome n x ann e s v s1 :
  visit n e s = (Ok v, s1) →
  check_type ann v s1 = (Ok tt, s1) →
  let s2 := (define_variable (current_env s1) x v s1).2 in
  visit (S n) (LetStatement x ann e) s
  = (match py_str n s2 (unwrap_in s2 v) with
     | Ok t => Ok (VStr ("Variable '" +:+ x +:+ "' = " +:+ t))
     | Err err => Err err
     | Timeout => Timeout
     end, s2).
Proof.
  intros Hv Hck s2. simpl. unfold visit_LetStatement. run_bind Hv. run_bind Hck.
  rewrite (bind_ok cur_env _ _ _ _ eq_refl).
  rewrite (bind_ok _ _ _ _ _ (define_variable_eq _ _ _ _)).
  run_unwrap. unfold bind, format_value. subst s2.
  rewrite define_variable_eq. simpl.
  by destruct (py_str _ _ _).
Qed.

(** A value without a text: the let-statement returns no value, whatever
    the fuel. *)
Lemma let_statement_no_text n x ann e s v s1 :
  visit n e s = (Ok v, s1) →
  check_type ann v s1 = (Ok tt, s1) →
  let s2 := (define_variable (current_env s1) x v s1).2 in
  ¬ renderable s2 (unwrap_in s2 v) →
  ∀ fuel w, (visit fuel (LetStatement x ann e) s).1 ≠ Ok w.
Proof.
  intros Hv Hck s2 Hnr fuel w. destruct fuel as [|k]; [done|].
  destruct (visit k e s) as [[v'| |] s1'] eqn:Hk.
  - assert (Heq : visit k e s = (Ok v, s1)).
    { apply (visit_mono n); [done|done|by rewrite Hk]. }
    rewrite (let_statement_outcome k x ann e s v s1 Heq Hck).
    fold s2. simpl.
    destruct (py_str k s2 (unwrap_in s2 v)) as [t|err|] eqn:E; try done.
    by apply py_str_renderable in E.
  - cbn [visit]. unfold visit_LetStatement, bind. by rewrite Hk.
  - cbn [visit]. unfold visit_LetStatement, bind. by rewrite Hk.
Qed.




(** * Further properties of the evaluator *)

(** ** The current environment and name lookup *)

Lemma interpret_state fuel n s :
  (interpret fuel n s).2 = (visit fuel n s).2.
Proof.
  unfold interpret, bind. by destruct (visit fuel n s) as [[v| |] s'].
Qed.

Lemma run_program_snoc fuel prog n s :
  run_program fuel (prog ++ [n]) s
  = (interpret fuel n (run_program fuel prog s)).2.
Proof. unfold run_program. by rewrite foldl_snoc. Qed.

(** X1: the save and restore of [current_env] is never leaked: whatever a
    node evaluates to, a value, an error or no answer, the environment that
    was current before is current afterwards; the same holds for [interpret]
    and for a sequence of top-level statements. *)
Theorem X1_current_env_never_leaks fuel n s :
  current_env (visit fuel n s).2 = current_env s ∧
  current_env (interpret fuel n s).2 = current_env s ∧
  (∀ prog, current_env (run_program fuel prog s) = current_env s).
Proof.
  split; [apply visit_current_env|]. split.
  - rewrite interpret_state. apply visit_current_env.
  - intros prog. induction prog as [|m prog IH] using rev_ind; [done|].
    rewrite run_program_snoc, interpret_state, visit_current_env. exact IH.
Qed.

Lemma wf_init_state : wf init_state.
Proof.
  split; [unfold init_state, global_env; simpl; lia|]. intros i e p Hi Hp.
  apply list_lookup_singleton_Some in Hi as [-> <-]. done.
Qed.

Lemma run_program_wf fuel prog s : wf s → wf (run_program fuel prog s).
Proof.
  intros Hwf. induction prog as [|m prog IH] using rev_ind; [done|].
  rewrite run_program_snoc, interpret_state. by apply visit_wf.
Qed.

Lemma lookup_chain_wf {A} (dict : Environment → gmap string A) undefined s env name :
  wf s →
  lookup_chain dict undefined (length (envs s)) (envs s) env name ≠ Timeout.
Proof.
  intros [Hc Hp]. destruct (decide (env < length (envs s))) as [Hlt|Hge].
  - by apply lookup_chain_total.
  - destruct (length (envs s)) as [|k] eqn:E; [lia|]. simpl.
    rewrite lookup_ge_None_2; [done|lia].
Qed.

(** X2: in every state reached from the initial one by running top-level
    statements, the current environment exists, every parent was allocated
    before its child, and so the three lookups up the parent chain
    ([get_cell], [get_function], [get_class]) always come back, with a result
    or with the undefined-name error, from whichever environment they
    start. *)
Theorem X2_lookups_return fuel prog env name :
  let s := run_program fuel prog init_state in
  wf s ∧
  (get_cell env name s).1 ≠ Timeout ∧
  (get_function env name s).1 ≠ Timeout ∧
  (get_class env name s).1 ≠ Timeout.
Proof.
  intros s. assert (Hwf : wf s) by apply run_program_wf, wf_init_state.
  split; [done|]. unfold get_cell, get_function, get_class. simpl.
  repeat split; by apply lookup_chain_wf.
Qed.

(** ** Cells never hold cells *)

Lemma flat_cells s s' : cells s' = cells s → flat s → flat s'.
Proof. intros H Hs l v. rewrite H. apply Hs. Qed.

Lemma unwrap_in_flat s v : flat s → type_of (unwrap_in s v) ≠ TCell.
Proof.
  intros Hs. destruct v; simpl; try done. unfold cell_value.
  destruct (cells s !! l) as [w|] eqn:E; simpl; [by eapply Hs|done].
Qed.

Lemma keeps_reads {A} (m : M A) : reads m → keeps m.
Proof. intros H s Hs. by rewrite H. Qed.

Lemma keeps_same_cells {A} (m : M A) :
  (∀ s, cells (m s).2 = cells s) → keeps m.
Proof. intros H s Hs. eapply flat_cells; [apply H|done]. Qed.

Lemma keeps_bind {A B} (m : M A) (k : A → M B) :
  keeps m → (∀ a, keeps (k a)) → keeps (bind m k).
Proof.
  intros Hm Hk s Hs. unfold bind. specialize (Hm s Hs).
  destruct (m s) as [[a| |] s1]; simpl in *; try done. by apply Hk.
Qed.

Lemma keeps_bind_unwrap {B} v (k : value → M B) :
  (∀ a, type_of a ≠ TCell → keeps (k a)) → keeps (bind (_unwrap v) k).
Proof.
  intros Hk s Hs. unfold bind, _unwrap. apply Hk; [|done].
  by apply unwrap_in_flat.
Qed.

Lemma keeps_try_except {A} (m h : M A) : keeps m → keeps h → keeps (try_except m h).
Proof.
  intros Hm Hh s Hs. unfold try_except. specialize (Hm s Hs).
  destruct (m s) as [[a| |] s1]; simpl in *; try done. by apply Hh.
Qed.

Lemma keeps_Cell_new v : type_of v ≠ TCell → keeps (Cell_new v).
Proof.
  intros Hv s Hs l w. simpl. intros Hl.
  apply lookup_app_Some in Hl as [Hl|[_ Hl]]; [by eapply Hs|].
  apply list_lookup_singleton_Some in Hl as [_ <-]. done.
Qed.

Lemma keeps_write_cell l v : type_of v ≠ TCell → keeps (write_cell l v).
Proof.
  intros Hv s Hs l' w. simpl. intros Hl.
  apply list_lookup_insert_Some in Hl as [(-> & <- & _)|[_ Hl]]; [done|].
  by eapply Hs.
Qed.

Lemma keeps_define_variable env x v : keeps (define_variable env x v).
Proof.
  intros s Hs l w. rewrite define_variable_eq. simpl. intros Hl.
  apply lookup_app_Some in Hl as [Hl|[_ Hl]]; [by eapply Hs|].
  destruct v; simpl in Hl; try done;
    apply list_lookup_singleton_Some in Hl as [_ <-]; done.
Qed.

Lemma keeps_define_variables env bs : keeps (define_variables env bs).
Proof.
  induction bs as [|[x v] bs IH]; simpl; [by apply keeps_reads|].
  apply keeps_bind; [apply keeps_define_variable|done].
Qed.

Lemma keeps_run_in ev k body : keeps (ev body) → keeps (run_in ev k body).
Proof.
  intros Hev s Hs. rewrite run_in_eq. simpl.
  eapply flat_cells; [|apply (Hev (set_current_env k s)); exact Hs]. done.
Qed.

Lemma default_value_not_cell t : type_of (default_value_for_type t) ≠ TCell.
Proof.
  destruct t as [t|]; [|done]. unfold default_value_for_type.
  repeat case_match; done.
Qed.

Lemma keeps_init_fields i fs : keeps (init_fields i fs).
Proof.
  induction fs as [|f fs IH]; simpl; [by apply keeps_reads|].
  apply keeps_bind; [apply keeps_Cell_new, default_value_not_cell|].
  intros l. apply keeps_bind; [by apply keeps_same_cells|done].
Qed.

Ltac keeps_prim :=
  first
    [ apply keeps_reads; solve [eauto with reads | done]
    | apply keeps_same_cells; solve [done]
    | apply keeps_define_variable | apply keeps_define_variables
    | apply keeps_init_fields
    | apply keeps_run_in; solve [auto]
    | apply keeps_write_cell; assumption
    | assumption ].

Ltac keeps_go :=
  repeat first
    [ keeps_prim
    | apply keeps_bind_unwrap; intros ? ?
    | apply keeps_bind; [|intros ?]
    | apply keeps_try_except
    | match goal with
      | |- keeps (match ?x with _ => _ end) => destruct x; simpl
      end ].

Section visitors_keep.
Variable ev : node → M value.
Hypothesis ev_keeps : ∀ n, keeps (ev n).

Lemma keeps_visit_all args : keeps (visit_all ev args).
Proof. induction args; simpl; keeps_go. apply ev_keeps. Qed.

Lemma keeps_self_cell_or name : keeps (self_cell_or name).
Proof. unfold self_cell_or. keeps_go. Qed.

Lemma keeps_visit_statements stmts last : keeps (visit_statements ev stmts last).
Proof.
  revert last. induction stmts; intros last; simpl; keeps_go.
  - apply ev_keeps.
  - apply IHstmts.
Qed.

Lemma keeps_assign_field i fname v :
  type_of v ≠ TCell → keeps (assign_field i fname v).
Proof. intros Hv. unfold assign_field. keeps_go. Qed.

Lemma keeps_visitors :
  (∀ x, keeps (visit_Identifier x)) ∧
  (∀ l op r, keeps (visit_BinaryOp ev l op r)) ∧
  (∀ l op r, keeps (visit_Comparison ev l op r)) ∧
  (∀ c t f, keeps (visit_IfExpr ev c t f)) ∧
  (∀ n x ann e, keeps (visit_LetStatement ev n x ann e)) ∧
  (∀ x ann e b, keeps (visit_LetExpression ev x ann e b)) ∧
  (∀ fd, keeps (visit_FunctionDef fd)) ∧
  (∀ f args, keeps (visit_FunctionCall ev f args)) ∧
  (∀ stmts, keeps (visit_Block ev stmts)) ∧
  (∀ x, keeps (visit_RefExpr x)) ∧
  (∀ x, keeps (visit_DerefExpr x)) ∧
  (∀ r e, keeps (visit_RefAssign ev r e)) ∧
  (∀ cd, keeps (visit_ClassDef cd)) ∧
  (∀ c args, keeps (visit_NewExpr ev c args)) ∧
  (∀ o m, keeps (visit_MemberAccess ev o m)) ∧
  (∀ o m args, keeps (visit_MethodCall ev o m args)) ∧
  (∀ t e, keeps (visit_Assign ev t e)).
Proof.
  repeat split; intros;
    unfold visit_Identifier, visit_BinaryOp, visit_Comparison, visit_IfExpr,
      visit_LetStatement, visit_LetExpression, visit_FunctionDef,
      visit_FunctionCall, visit_Block, visit_RefExpr, visit_DerefExpr,
      visit_RefAssign, visit_ClassDef, visit_NewExpr, visit_MemberAccess,
      visit_MethodCall, visit_Assign;
    keeps_go;
    auto using keeps_visit_all, keeps_self_cell_or, keeps_visit_statements,
      keeps_assign_field.
Qed.
End visitors_keep.

Lemma keeps_visit fuel : ∀ n, keeps (visit fuel n).
Proof.
  induction fuel as [|k IH]; intros n; simpl; [by apply keeps_reads|].
  destruct (keeps_visitors (visit k) IH)
    as (? & ? & ? & ? & ? & ? & ? & ? & ? & ? & ? & ? & ? & ? & ? & ? & ?).
  destruct n; simpl; auto; by apply keeps_reads.
Qed.

Lemma flat_run_program fuel prog s : flat s → flat (run_program fuel prog s).
Proof.
  intros Hs. induction prog as [|m prog IH] using rev_ind; [done|].
  rewrite run_program_snoc, interpret_state. by apply keeps_visit.
Qed.

(** X3: no cell ever holds a cell.  The property is true of the initial state
    and every evaluation keeps it, whatever its outcome; so unwrapping once is
    always enough, and [interpret] never hands a cell to its caller: its
    result is an int, a bool, a string, None or an instance. *)
Theorem X3_no_cell_in_a_cell fuel prog n v :
  let s := run_program fuel prog init_state in
  (interpret fuel n s).1 = Ok v →
  flat s ∧ flat (interpret fuel n s).2 ∧ type_of v ≠ TCell.
Proof.
  intros s Hv.
  assert (Hs : flat s).
  { apply flat_run_program. intros l w Hl. done. }
  split; [done|]. rewrite interpret_state.
  pose proof (keeps_visit fuel n s Hs) as Hs'. split; [done|].
  unfold interpret, bind in Hv.
  destruct (visit fuel n s) as [[r| |] s1]; simpl in *; try done.
  injection Hv as <-. by apply unwrap_in_flat.
Qed.

Lemma X3_witness :
  flat (run_program 3 [LetStatement "a" None (Number 5)] init_state) ∧
  type_of (VInt 5) ≠ TCell.
Proof.
  destruct (X3_no_cell_in_a_cell 3 [LetStatement "a" None (Number 5)]
              (Identifier "a") (VInt 5)) as (H1 & _ & H3); [by vm_compute|].
  split; [exact H1|exact H3].
Defined.

(** ** Blocks *)

Lemma visit_statements_append (ev : node → M value) xs ys : ∀ last s,
  visit_statements ev (xs ++ ys) last s
  = match visit_statements ev xs last s with
    | (Ok v, s1) => visit_statements ev ys v s1
    | r => r
    end.
Proof.
  induction xs as [|x xs IH]; intros last s.
  - done.
  - simpl. unfold bind. destruct (ev x s) as [[v| |] s1]; [apply IH|done..].
Qed.

(** X4: a block runs its statements in order in the state it is given: a
    block made of two lists of statements first runs the first list like a
    block of its own and then, if that gave a value, the second list from the
    state reached; an error or exhaustion in the first list is the outcome of
    the whole block and nothing of the second list runs.  The empty block
    gives None and a block of one statement gives what the statement
    gives. *)
Theorem X4_block_sequencing n xs ys s :
  visit (S n) (Block (xs ++ ys)) s
  = match visit (S n) (Block xs) s with
    | (Ok v, s1) => visit_statements (visit n) ys v s1
    | r => r
    end
  ∧ visit (S n) (Block []) s = (Ok VNone, s)
  ∧ (∀ stmt, visit (S n) (Block [stmt]) s = visit n stmt s)
  ∧ (∀ stmt e s1, visit (S n) (Block xs) s = (Err e, s1) →
       visit (S n) (Block (xs ++ [stmt])) s = (Err e, s1)).
Proof.
  cbn [visit]. unfold visit_Block. split; [|split; [done|split]].
  - apply visit_statements_append.
  - intros stmt. simpl. unfold bind. by destruct (visit n stmt s) as [[?| |] ?].
  - intros stmt e s1 H. by rewrite visit_statements_append, H.
Qed.

(** ** Let-statements *)

Lemma let_statement_state n x ann e s v s1 :
  visit n e s = (Ok v, s1) →
  check_type ann v s1 = (Ok tt, s1) →
  (visit (S n) (LetStatement x ann e) s).2
  = (define_variable (current_env s1) x v s1).2.
Proof.
  intros Hv Hck. simpl. unfold visit_LetStatement. run_bind Hv. run_bind Hck.
  rewrite (bind_ok cur_env _ _ _ _ eq_refl).
  rewrite (bind_ok _ _ _ _ _ (define_variable_eq _ _ _ _)). run_unwrap.
  rewrite define_variable_eq. unfold bind, format_value.
  by destruct (py_str _ _ _).
Qed.

Lemma check_type_eq ann v s :
  check_type ann v s
  = match ann with
    | None => (Ok tt, s)
    | Some t => if decide (type_name_in s v ≠ t)
                then (Err (TypeErrorExpected t (type_name_in s v)), s)
                else (Ok tt, s)
    end.
Proof.
  destruct ann as [t|]; [|done]. unfold check_type, bind, _type_name.
  by case_decide.
Qed.

(** Two lists of environments that agree, environment by environment, on the
    parent and on one name give the same lookup of that name. *)
Lemma lookup_chain_agree_name {A} (dict : Environment → gmap string A) undefined
    (es es' : list Environment) name :
  (∀ i, match es !! i, es' !! i with
        | Some e, Some e' => parent e' = parent e ∧ dict e' !! name = dict e !! name
        | None, None => True
        | _, _ => False
        end) →
  ∀ fuel c, lookup_chain dict undefined fuel es c name
            = lookup_chain dict undefined fuel es' c name.
Proof.
  intros H. induction fuel as [|k IH]; intros c; [done|]. simpl.
  specialize (H c). destruct (es !! c) as [e|], (es' !! c) as [e'|]; try done.
  destruct H as [-> ->]. destruct (dict e !! name); [done|].
  destruct (parent e); [apply IH|done].
Qed.

(** Defining a variable in an existing environment: the name then resolves
    from there to its cell, and no other name is affected. *)
Lemma define_variable_lookup c x v s :
  c < length (envs s) →
  let s' := (define_variable c x v s).2 in
  get_cell c x s' = (Ok (bound_cell v s), s') ∧
  (∀ env y, y ≠ x → (get_cell env y s').1 = (get_cell env y s).1).
Proof.
  intros Hc s'. subst s'. rewrite define_variable_eq. simpl.
  destruct (lookup_lt_is_Some_2 _ _ Hc) as [e0 He0]. split.
  - unfold get_cell. simpl. f_equal. rewrite length_alter.
    destruct (length (envs s)) as [|k] eqn:E; [lia|]. simpl.
    rewrite list_lookup_alter_eq, He0. simpl. by rewrite lookup_insert_eq.
  - intros env y Hy. unfold get_cell. simpl. rewrite length_alter.
    symmetry. apply lookup_chain_agree_name. intros i.
    destruct (decide (i = c)) as [->|Hne].
    + rewrite list_lookup_alter_eq, He0. simpl.
      split; [done|]. by rewrite lookup_insert_ne.
    + rewrite list_lookup_alter_ne by done. by destruct (envs s !! i).
Qed.

(** X5: a let-statement whose value evaluates, and whose annotation, if any,
    is the type tag of the value, binds the name in the environment that is
    current: afterwards the name resolves from there to the cell of the
    value (the value's own cell when it is one), and every other name
    resolves as before.  When the annotation is another tag the statement
    raises the type error and leaves the state as the evaluation of the
    value left it: nothing is bound. *)
Theorem X5_let_statement_binding n x ann e s v s1 :
  visit n e s = (Ok v, s1) →
  current_env s1 < length (envs s1) →
  let result := visit (S n) (LetStatement x ann e) s in
  ((ann = None ∨ ann = Some (type_name_in s1 v)) →
     get_cell (current_env s) x result.2 = (Ok (bound_cell v s1), result.2) ∧
     cells result.2 = cells s1 ++ stored v ∧
     (∀ y, y ≠ x →
        (get_cell (current_env s) y result.2).1
        = (get_cell (current_env s) y s1).1)) ∧
  (∀ t, ann = Some t → t ≠ type_name_in s1 v →
     result = (Err (TypeErrorExpected t (type_name_in s1 v)), s1)).
Proof.
  intros Hv Hc result.
  assert (Hcur : current_env s1 = current_env s).
  { pose proof (visit_current_env n e s) as H. by rewrite Hv in H. }
  split.
  - intros Hann.
    assert (Hck : check_type ann v s1 = (Ok tt, s1)).
    { rewrite check_type_eq. destruct Hann as [->| ->]; [done|].
      rewrite decide_False; [done|]. intros H. by apply H. }
    assert (Hst : result.2 = (define_variable (current_env s1) x v s1).2)
      by by apply let_statement_state.
    destruct (define_variable_lookup (current_env s1) x v s1 Hc) as [H1 H2].
    rewrite Hst, <- Hcur. split; [done|]. split; [|by intros y Hy; apply H2].
    by rewrite define_variable_eq.
  - intros t -> Hne. subst result. simpl. unfold visit_LetStatement.
    run_bind Hv. apply bind_err. rewrite check_type_eq.
    rewrite decide_True; [done|]. congruence.
Qed.

Lemma X5_witness :
  let result := visit 2 (LetStatement "a" (Some "int") (Number 5)) init_state in
  get_cell 0 "a" result.2 = (Ok 0, result.2) ∧
  visit 2 (LetStatement "a" (Some "bool") (Number 5)) init_state
  = (Err (TypeErrorExpected "bool" "int"), init_state).
Proof.
  intros result.
  destruct (X5_let_statement_binding 1 "a" (Some "int") (Number 5) init_state
              (VInt 5) init_state eq_refl) as [H1 _];
    [unfold init_state, global_env; simpl; lia|].
  destruct (X5_let_statement_binding 1 "a" (Some "bool") (Number 5) init_state
              (VInt 5) init_state eq_refl) as [_ H2];
    [unfold init_state, global_env; simpl; lia|].
  split.
  - by destruct H1 as [H _]; [by right|].
  - by apply H2.
Defined.

Lemma get_cell_same_envs env x s s' :
  envs s' = envs s → (get_cell env x s').1 = (get_cell env x s).1.
Proof. intros H. unfold get_cell. simpl. by rewrite H. Qed.

Lemma get_cell_state env x s : (get_cell env x s).2 = s.
Proof. done. Qed.

Lemma get_cell_pair env x s r : (get_cell env x s).1 = r → get_cell env x s = (r, s).
Proof. intros <-. done. Qed.

(** X6: let binds by reference.  When [x] is bound to a cell, [let y = x]
    binds [y] to that same cell and allocates nothing; a later [y := b] then
    changes what [x] reads. *)
Theorem X6_let_aliases_the_cell n s x y l old b :
  get_cell (current_env s) x s = (Ok l, s) →
  cells s !! l = Some (VInt old) →
  current_env s < length (envs s) →
  let s1 := (visit (2 + n) (LetStatement y None (Identifier x)) s).2 in
  let r := visit (2 + n) (RefAssign (Identifier y) (Number b)) s1 in
  get_cell (current_env s) y s1 = (Ok l, s1) ∧
  cells s1 = cells s ∧
  r.1 = Ok (VInt b) ∧
  interpret (S n) (Identifier x) r.2 = (Ok (VInt b), r.2).
Proof.
  intros Hx Hold Hc s1 r.
  assert (Hs1 : s1 = (define_variable (current_env s) y (VCell l) s).2).
  { subst s1. change (2 + n) with (S (S n)).
    by rewrite (let_statement_state (S n) y None (Identifier x) s (VCell l) s
                  (visit_Identifier_bound n x s l Hx) eq_refl). }
  destruct (define_variable_lookup (current_env s) y (VCell l) s Hc) as [Hy Hoth].
  rewrite <- Hs1 in Hy, Hoth. simpl in Hy.
  assert (Hcells : cells s1 = cells s).
  { rewrite Hs1, define_variable_eq. simpl. by rewrite app_nil_r. }
  assert (Hcur : current_env s1 = current_env s).
  { by rewrite Hs1, define_variable_eq. }
  assert (Hx1 : get_cell (current_env s) x s1 = (Ok l, s1)).
  { destruct (decide (x = y)) as [->|Hne]; [done|].
    apply get_cell_pair. rewrite Hoth by done. by rewrite Hx. }
  assert (Hr : r = (Ok (VInt b), set_cells (λ cs, <[l:=VInt b]> cs) s1)).
  { subst r. apply (param_ref_assign n y l old); rewrite ?Hcur, ?Hcells; done. }
  split; [done|]. split; [done|]. rewrite Hr. split; [done|]. cbn [snd].
  set (fin := set_cells _ s1).
  assert (Hxf : get_cell (current_env fin) x fin = (Ok l, fin)).
  { apply get_cell_pair.
    rewrite (get_cell_same_envs (current_env fin) x s1 fin eq_refl).
    change (current_env fin) with (current_env s1). by rewrite Hcur, Hx1. }
  unfold interpret. run_bind (visit_Identifier_bound n x fin l Hxf).
  unfold _unwrap. do 2 f_equal. subst fin. unfold unwrap_in, cell_value. simpl.
  rewrite list_lookup_insert_eq; [done|]. rewrite Hcells.
  by eapply lookup_lt_Some.
Qed.

Lemma X6_witness :
  let s := run_program 2 [LetStatement "x" None (Number 1)] init_state in
  let s1 := (visit 2 (LetStatement "y" None (Identifier "x")) s).2 in
  let r := visit 2 (RefAssign (Identifier "y") (Number 7)) s1 in
  interpret 1 (Identifier "x") s = (Ok (VInt 1), s) ∧
  interpret 1 (Identifier "x") r.2 = (Ok (VInt 7), r.2).
Proof.
  intros s s1 r. split; [by vm_compute|].
  destruct (X6_let_aliases_the_cell 0 s "x" "y" 0 1 7) as (_ & _ & _ & H);
    [by vm_compute..|exact H].
Defined.

(** ** References, dereferences and identifiers *)

(** X7: on a name that some environment of the chain binds, [ref x] and the
    plain identifier [x] give the same cell and [#x] gives its content.  On a
    name that no environment binds, [ref x] and [#x] raise the
    undefined-variable error even inside a method whose [self] has a field of
    that name, where the plain identifier gives the cell of the field: only
    the plain identifier falls back to the fields of [self]. *)
Theorem X7_ref_deref_ignore_self_fields n x s :
  (∀ l, get_cell (current_env s) x s = (Ok l, s) →
     visit (S n) (RefExpr x) s = (Ok (VCell l), s) ∧
     visit (S n) (Identifier x) s = (Ok (VCell l), s) ∧
     visit (S n) (DerefExpr x) s = (Ok (cell_value s l), s)) ∧
  (get_cell (current_env s) x s = (Err (UndefinedVariable x), s) →
     visit (S n) (RefExpr x) s = (Err (UndefinedVariable x), s) ∧
     visit (S n) (DerefExpr x) s = (Err (UndefinedVariable x), s) ∧
     (∀ fl, self_field s x = Some fl →
        visit (S n) (Identifier x) s = (Ok (VCell fl), s))).
Proof.
  split.
  - intros l Hl. split; [|split].
    + simpl. unfold visit_RefExpr.
      rewrite (bind_ok cur_env _ _ _ _ eq_refl). by run_bind Hl.
    + by apply visit_Identifier_bound.
    + simpl. unfold visit_DerefExpr.
      rewrite (bind_ok cur_env _ _ _ _ eq_refl). by run_bind Hl.
  - intros Hx. split; [|split].
    + simpl. unfold visit_RefExpr.
      rewrite (bind_ok cur_env _ _ _ _ eq_refl). by apply bind_err.
    + simpl. unfold visit_DerefExpr.
      rewrite (bind_ok cur_env _ _ _ _ eq_refl). by apply bind_err.
    + intros fl Hfl. simpl. rewrite (visit_Identifier_unbound x s Hx).
      unfold self_field in Hfl.
      destruct (get_cell (current_env s) "self" s).1 as [l| |]; try done.
      destruct (cell_value s l); try done. by rewrite Hfl.
Qed.

Lemma X7_witness :
  let s := enter_frame global_env [("self", VInstance 0)] one_object in
  visit 1 (Identifier "x") s = (Ok (VCell 0), s) ∧
  visit 1 (RefExpr "x") s = (Err (UndefinedVariable "x"), s).
Proof.
  intros s. destruct (X7_ref_deref_ignore_self_fields 0 "x" s) as [_ H].
  destruct H as (H1 & _ & H3); [by vm_compute|].
  split; [apply H3; by vm_compute|exact H1].
Defined.

(** ** Construction of instances *)

Lemma dict_get_set_eq d k v : dict_get (dict_set d k v) k = Some v.
Proof.
  induction d as [|[k' v'] d IH]; simpl.
  - by rewrite decide_True.
  - case_decide; simpl; [by rewrite decide_True|]. by rewrite decide_False.
Qed.

Lemma dict_get_set_ne d k v k' : k' ≠ k → dict_get (dict_set d k v) k' = dict_get d k'.
Proof.
  intros Hne. induction d as [|[k0 v0] d IH]; simpl.
  - by rewrite decide_False.
  - destruct (decide (k0 = k)) as [->|Hk]; simpl.
    + by rewrite !decide_False.
    + case_decide; [done|apply IH].
Qed.

(** What the field loop of [visit_NewExpr] leaves: one new cell per
    declaration, in order, holding the default of that declaration, and a
    dict in which a name refers to the cell of its last declaration. *)
Lemma init_fields_spec i fs : ∀ s inst,
  instances s !! i = Some inst →
  ∃ d',
    init_fields i fs s
    = (Ok tt,
       mkState (envs s)
         (cells s ++ map (λ f, default_value_for_type (field_type_annotation f)) fs)
         (<[i := mkInstance (class_def inst) d']> (instances s))
         (current_env s))
    ∧ (∀ x, x ∉ field_name <$> fs → dict_get d' x = dict_get (inst_fields inst) x)
    ∧ (∀ k f, fs !! k = Some f →
         (∀ k' f', k < k' → fs !! k' = Some f' → field_name f' ≠ field_name f) →
         dict_get d' (field_name f) = Some (length (cells s) + k)).
Proof.
  induction fs as [|f0 fs IH]; intros s inst Hi.
  - exists (inst_fields inst). split; [|split; [done|by intros k f H]].
    simpl. unfold ret. rewrite app_nil_r, list_insert_id; [by destruct s|].
    by destruct inst.
  - simpl. unfold bind at 1. unfold Cell_new at 1.
    unfold bind at 1. unfold set_field at 1, modify at 1.
    set (l := length (cells s)).
    set (inst1 := mkInstance (class_def inst)
                    (dict_set (inst_fields inst) (field_name f0) l)).
    set (s1 := set_instances _ _).
    assert (Hi1 : instances s1 !! i = Some inst1).
    { subst s1. simpl. by rewrite list_lookup_alter_eq, Hi. }
    destruct (IH s1 inst1 Hi1) as (d' & Heq & Hout & Hin).
    exists d'. split; [|split].
    + rewrite Heq. subst s1. simpl. rewrite <- app_assoc. simpl.
      by rewrite (alter_as_insert _ _ _ _ Hi), list_insert_insert_eq.
    + intros x Hx. simpl in Hx.
      apply not_elem_of_cons in Hx as [Hne Hx].
      rewrite (Hout x Hx). subst inst1. simpl. by apply dict_get_set_ne.
    + intros k f Hk Hlast. destruct k as [|k]; simpl in Hk.
      * injection Hk as <-. rewrite Hout.
        -- subst inst1. simpl. rewrite dict_get_set_eq. f_equal. lia.
        -- intros Hmem. apply list_elem_of_fmap in Hmem as (f' & Hn & Hf').
           apply list_elem_of_lookup in Hf' as [k' Hk'].
           apply (Hlast (S k') f'); [lia|done|done].
      * rewrite (Hin k f Hk).
        -- f_equal. subst s1 l. simpl. rewrite length_app. simpl. lia.
        -- intros k' f' Hlt Hk'. apply (Hlast (S k') f'); [lia|done].
Qed.

(** X8: [new C(...)] first builds the instance: it is a new object of class
    [C]; each field declaration gets a cell of its own, allocated after all
    existing cells in declaration order and holding the default of its
    annotation (0, False, the empty string, otherwise None); the instance has
    a field for a name exactly when the class declares it, a name declared
    twice referring to the cell of its last declaration; no existing cell or
    instance changes.  A class without [init] returns that instance when
    called without arguments, and raises, without evaluating them, when
    called with arguments. *)
Theorem X8_new_initialises_fields n c cd s :
  get_class global_env c s = (Ok cd, s) →
  let inst := length (instances s) in
  let s0 := (init_fields inst (cd_fields cd) (Instance_alloc cd s).2).2 in
  class_def (get_instance s0 inst) = cd ∧
  (∀ k f, cd_fields cd !! k = Some f →
     (∀ k' f', k < k' → cd_fields cd !! k' = Some f' → field_name f' ≠ field_name f) →
     dict_get (inst_fields (get_instance s0 inst)) (field_name f)
       = Some (length (cells s) + k) ∧
     cell_value s0 (length (cells s) + k)
       = default_value_for_type (field_type_annotation f)) ∧
  (∀ x, x ∉ field_name <$> cd_fields cd →
     dict_get (inst_fields (get_instance s0 inst)) x = None) ∧
  (∀ l, l < length (cells s) → cells s0 !! l = cells s !! l) ∧
  (∀ j, j < inst → instances s0 !! j = instances s !! j) ∧
  (_find_method cd "init" = None →
     visit (S n) (NewExpr c []) s = (Ok (VInstance inst), s0) ∧
     ∀ a args, visit (S n) (NewExpr c (a :: args)) s
               = (Err (NoInitButArguments (cd_name cd)), s0)).
Proof.
  intros Hcd inst s0.
  assert (Hi : instances (Instance_alloc cd s).2 !! inst = Some (mkInstance cd [])).
  { simpl. by apply list_lookup_middle. }
  destruct (init_fields_spec inst (cd_fields cd) _ _ Hi) as (d' & Heq & Hout & Hin).
  assert (Hs0 : init_fields inst (cd_fields cd) (Instance_alloc cd s).2 = (Ok tt, s0)).
  { subst s0. by rewrite Heq. }
  assert (Hinst : get_instance s0 inst = mkInstance cd d').
  { subst s0. rewrite Heq. unfold get_instance. simpl.
    rewrite list_lookup_insert_eq; [done|]. rewrite length_app. simpl. lia. }
  assert (Hcells : cells s0 = cells s ++
            map (λ f, default_value_for_type (field_type_annotation f)) (cd_fields cd)).
  { subst s0. by rewrite Heq. }
  split; [by rewrite Hinst|]. split; [|split; [|split; [|split]]].
  - intros k f Hk Hlast. rewrite Hinst. simpl. split; [by apply Hin|].
    unfold cell_value. rewrite Hcells, lookup_app_r by lia.
    replace (length (cells s) + k - length (cells s)) with k by lia.
    by rewrite list_lookup_fmap, Hk.
  - intros x Hx. rewrite Hinst. simpl. by rewrite Hout.
  - intros l Hl. rewrite Hcells. by apply lookup_app_l.
  - intros j Hj. subst s0. rewrite Heq. simpl.
    rewrite list_lookup_insert_ne by (subst inst; lia). by apply lookup_app_l.
  - intros Hfind. split.
    + simpl. unfold visit_NewExpr. run_bind Hcd.
      rewrite (bind_ok (Instance_alloc cd) _ _ _ _ eq_refl). run_bind Hs0.
      by rewrite Hfind.
    + intros a args. simpl. unfold visit_NewExpr. run_bind Hcd.
      rewrite (bind_ok (Instance_alloc cd) _ _ _ _ eq_refl). run_bind Hs0.
      by rewrite Hfind.
Qed.

Lemma X8_witness :
  let s := run_program 1 [ClassDefNode class_P] init_state in
  let s0 := (init_fields 0 (cd_fields class_P) (Instance_alloc class_P s).2).2 in
  visit 1 (NewExpr "P" []) s = (Ok (VInstance 0), s0) ∧
  dict_get (inst_fields (get_instance s0 0)) "on" = Some 2 ∧
  cell_value s0 2 = VBool false ∧
  dict_get (inst_fields (get_instance s0 0)) "size" = None.
Proof.
  intros s s0.
  destruct (X8_new_initialises_fields 0 "P" class_P s) as (_ & Hf & Hn & _ & _ & Hnew);
    [by vm_compute|].
  destruct (Hf 2 (mkFieldDef "on" (Some "bool")) eq_refl) as [H1 H2].
  { intros k' f' Hlt Hk'. destruct k' as [|[|[|k']]]; try lia. done. }
  destruct (Hnew eq_refl) as [H3 _].
  split; [exact H3|]. split; [exact H1|]. split; [exact H2|].
  apply Hn. by vm_compute; intros H; repeat (apply elem_of_cons in H as [H|H]; [done|]); inversion H.
Defined.

(** ** Assignment to a field *)

Lemma assign_field_eq i f v s :
  assign_field i f v s
  = match dict_get (inst_fields (get_instance s i)) f with
    | None => (Err (UnknownField f (cd_name (class_def (get_instance s i)))), s)
    | Some l =>
        match declared_annotation (_find_field_def (class_def (get_instance s i)) f) with
        | Some t =>
            if decide (t ≠ type_name_in s v)
            then (Err (TypeErrorField f (cd_name (class_def (get_instance s i))) t
                         (type_name_in s v)), s)
            else (Ok v, set_cells (λ cs, <[l:=v]> cs) s)
        | None => (Ok v, set_cells (λ cs, <[l:=v]> cs) s)
        end
    end.
Proof.
  unfold assign_field. rewrite (bind_ok (inst_of i) _ _ _ _ eq_refl).
  destruct (dict_get _ _) as [l|]; [|done].
  destruct (declared_annotation _) as [t|]; [|done].
  run_type_name. by case_decide.
Qed.

(** X9: [obj.f = value] evaluates the value first and the object second.  On
    an instance that has the field, the stored value plays no part: a field
    whose declaration has no annotation accepts a value of any type, so its
    type may change from one assignment to the next; a field with a declared
    annotation accepts exactly the values whose type tag is the annotation
    and otherwise raises the field type error and leaves the cell as it was.
    An instance without the field, and a value that is no instance, raise
    their own errors. *)
Theorem X9_field_assignment_checks_the_declaration n obj f value_expr s v0 s1 o s2 :
  visit n value_expr s = (Ok v0, s1) →
  visit n obj s1 = (Ok o, s2) →
  let v := unwrap_in s1 v0 in
  let result := visit (S n) (Assign (MemberAccess obj f) value_expr) s in
  (type_of (unwrap_in s2 o) ≠ TInstance → result = (Err MemberAssignNonObject, s2)) ∧
  (∀ i, unwrap_in s2 o = VInstance i →
     let cd := class_def (get_instance s2 i) in
     let declared := declared_annotation (_find_field_def cd f) in
     let written l := (Ok v, set_cells (λ cs, <[l:=v]> cs) s2) in
     (dict_get (inst_fields (get_instance s2 i)) f = None →
        result = (Err (UnknownField f (cd_name cd)), s2)) ∧
     (∀ l, dict_get (inst_fields (get_instance s2 i)) f = Some l →
        (declared = None → result = written l) ∧
        (declared = Some (type_name_in s2 v) → result = written l) ∧
        (∀ t, declared = Some t → t ≠ type_name_in s2 v →
           result = (Err (TypeErrorField f (cd_name cd) t (type_name_in s2 v)), s2)))).
Proof.
  intros Hv Ho v result.
  assert (Heq : result =
    match unwrap_in s2 o with
    | VInstance i => assign_field i f v s2
    | _ => (Err MemberAssignNonObject, s2)
    end).
  { subst result. simpl. unfold visit_Assign. run_bind Hv. run_unwrap.
    run_bind Ho. run_unwrap. by destruct (unwrap_in s2 o). }
  split.
  - intros Hne. rewrite Heq. by destruct (unwrap_in s2 o).
  - intros i Hi cd declared written. rewrite Heq, Hi, assign_field_eq.
    fold cd declared. split.
    + by intros ->.
    + intros l ->. split; [by intros ->|]. split.
      * intros ->. rewrite decide_False; [done|]. intros H. by apply H.
      * intros t -> Hne. by rewrite decide_True.
Qed.

Lemma X9_witness :
  let untyped := Assign (MemberAccess (Identifier "p") "tag") (StringLiteral "s") in
  let typed := Assign (MemberAccess (Identifier "p") "n") (StringLiteral "s") in
  (visit 2 untyped one_P).1 = Ok (VStr "s") ∧
  visit 2 typed one_P = (Err (TypeErrorField "n" "P" "int" "string"), one_P).
Proof.
  intros untyped typed.
  destruct (X9_field_assignment_checks_the_declaration 1 (Identifier "p") "tag"
              (StringLiteral "s") one_P (VStr "s") one_P (VCell 3) one_P)
    as [_ H1]; [by vm_compute..|].
  destruct (X9_field_assignment_checks_the_declaration 1 (Identifier "p") "n"
              (StringLiteral "s") one_P (VStr "s") one_P (VCell 3) one_P)
    as [_ H2]; [by vm_compute..|].
  destruct (H1 0) as [_ H1']; [by vm_compute|].
  destruct (H2 0) as [_ H2']; [by vm_compute|].
  destruct (H1' 1) as [H1'' _]; [by vm_compute|].
  destruct (H2' 0) as (_ & _ & H2''); [by vm_compute|].
  split.
  - subst untyped. by rewrite H1''.
  - subst typed. by apply H2''.
Defined.

(** ** Errors of calls *)

Lemma visit_all_stops (ev : node → M value) xs a ys : ∀ s vs s1 e s2,
  visit_all ev xs s = (Ok vs, s1) →
  ev a s1 = (Err e, s2) →
  visit_all ev (xs ++ a :: ys) s = (Err e, s2).
Proof.
  induction xs as [|x xs IH]; intros s vs s1 e s2 Hxs Ha; simpl in *.
  - injection Hxs as <- <-. by apply bind_err.
  - unfold bind in Hxs |- *. destruct (ev x s) as [[v| |] s']; try done.
    destruct (visit_all ev xs s') as [[ws| |] s''] eqn:E; try done.
    injection Hxs as <- <-. by rewrite (IH _ _ _ _ _ E Ha).
Qed.

(** X10: the checks of a call come in a fixed order.  A call of an undeclared
    function raises before any argument is evaluated; arguments are evaluated
    from left to right and the first one that raises ends the call, the later
    ones staying unevaluated; a wrong number of arguments is noticed only
    after all of them have been evaluated, and the body does not run.  A
    method call evaluates the receiver, then rejects a receiver that is no
    instance and a method the class does not have, both before any argument
    is evaluated. *)
Theorem X10_call_checks_in_order n s :
  (∀ f args,
     get_function global_env f s = (Err (UndefinedFunction f), s) →
     visit (S n) (FunctionCall f args) s = (Err (UndefinedFunction f), s)) ∧
  (∀ f fd xs a ys vs s1 e s2,
     get_function global_env f s = (Ok fd, s) →
     visit_all (visit n) xs s = (Ok vs, s1) →
     visit n a s1 = (Err e, s2) →
     visit (S n) (FunctionCall f (xs ++ a :: ys)) s = (Err e, s2)) ∧
  (∀ f fd args vs s1,
     get_function global_env f s = (Ok fd, s) →
     visit_all (visit n) args s = (Ok vs, s1) →
     length args ≠ length (fd_params fd) →
     visit (S n) (FunctionCall f args) s
     = (Err (FunctionArity f (length (fd_params fd)) (length args)), s1)) ∧
  (∀ obj m args o s0,
     visit n obj s = (Ok o, s0) →
     type_of (unwrap_in s0 o) ≠ TInstance →
     visit (S n) (MethodCall obj m args) s = (Err MethodCallNonObject, s0)) ∧
  (∀ obj m args o s0 i,
     visit n obj s = (Ok o, s0) →
     unwrap_in s0 o = VInstance i →
     _find_method (class_def (get_instance s0 i)) m = None →
     visit (S n) (MethodCall obj m args) s
     = (Err (UndefinedMethod m (cd_name (class_def (get_instance s0 i)))), s0)).
Proof.
  split; [|split; [|split; [|split]]].
  - intros f args Hf. simpl. unfold visit_FunctionCall. by apply bind_err.
  - intros f fd xs a ys vs s1 e s2 Hf Hxs Ha. simpl. unfold visit_FunctionCall.
    run_bind Hf. apply bind_err. by eapply visit_all_stops.
  - intros f fd args vs s1 Hf Hargs Hlen. simpl. unfold visit_FunctionCall.
    run_bind Hf. run_bind Hargs.
    rewrite (visit_all_length _ _ _ _ _ Hargs). by rewrite decide_True.
  - intros obj m args o s0 Ho Hne. simpl. unfold visit_MethodCall.
    run_bind Ho. run_unwrap. by destruct (unwrap_in s0 o).
  - intros obj m args o s0 i Ho Hi Hfind. simpl. unfold visit_MethodCall.
    run_bind Ho. run_unwrap. rewrite Hi.
    rewrite (bind_ok (inst_of i) _ _ _ _ eq_refl). by rewrite Hfind.
Qed.

Lemma X10_witness :
  visit 2 (FunctionCall "g" [FunctionCall "f" []]) reads_y
    = (Err (UndefinedFunction "g"), reads_y) ∧
  (visit 2 (FunctionCall "f" [Number 1; Number 2]) reads_y).1
    = Err (FunctionArity "f" 0 2).
Proof.
  destruct (X10_call_checks_in_order 1 reads_y) as (H1 & _ & H3 & _).
  split.
  - apply H1. by vm_compute.
  - by rewrite (H3 "f" (mkFunctionDef "f" [] (Identifier "y"))
                  [Number 1; Number 2] [VInt 1; VInt 2] reads_y)
      by (by vm_compute).
Defined.

(** ** Plain assignment needs a binding *)

(** X11: [x = value] never declares [x].  When [x] is bound and the host
    types of the stored and of the new value agree, the cell of [x] is
    overwritten and the value returned.  When no environment binds [x], the
    only way out without an error is a field [x] of [self], written under the
    rule of its declaration; with no such field the assignment raises an
    undefined-variable or unknown-field error and changes nothing. *)
Theorem X11_assignment_needs_a_binding n x value_expr s v0 s1 :
  visit n value_expr s = (Ok v0, s1) →
  wf s →
  let v := unwrap_in s1 v0 in
  let result := visit (S n) (Assign (Identifier x) value_expr) s in
  (∀ l, get_cell (current_env s1) x s1 = (Ok l, s1) →
        type_of (cell_value s1 l) = type_of v →
        result = (Ok v, set_cells (λ cs, <[l:=v]> cs) s1)) ∧
  (get_cell (current_env s1) x s1 = (Err (UndefinedVariable x), s1) →
     (self_instance s1 = None → result = (Err (UndefinedVariable x), s1)) ∧
     (∀ i, self_instance s1 = Some i →
        result = assign_field i x v s1 ∧
        (dict_get (inst_fields (get_instance s1 i)) x = None →
           result = (Err (UnknownField x (cd_name (class_def (get_instance s1 i)))),
                     s1)))).
Proof.
  intros Hv Hwf v result.
  assert (Hwf1 : wf s1).
  { pose proof (visit_wf n value_expr s Hwf) as H. by rewrite Hv in H. }
  split.
  - intros l Hl Hty. subst result. simpl. unfold visit_Assign.
    run_bind Hv. run_unwrap. unfold try_except at 1.
    rewrite (bind_ok cur_env _ _ _ _ eq_refl). run_bind Hl.
    rewrite (bind_ok (read_cell l) _ _ _ _ eq_refl).
    rewrite decide_False; [done|]. intros H. by apply H.
  - intros Hx.
    assert (Heq : result =
      match (get_cell (current_env s1) "self" s1).1 with
      | Ok l =>
          match cell_value s1 l with
          | VInstance i => assign_field i x v s1
          | _ => (Err (UndefinedVariable x), s1)
          end
      | Err _ => (Err (UndefinedVariable x), s1)
      | Timeout => (Timeout, s1)
      end).
    { remember (get_cell (current_env s1) "self" s1).1 as g eqn:Hg.
      subst result. simpl. unfold visit_Assign. run_bind Hv. run_unwrap.
      unfold try_except at 1.
      rewrite (bind_ok cur_env _ _ _ _ eq_refl), (bind_err _ _ _ _ _ Hx).
      unfold bind at 1. rewrite self_cell_or_eq, <- Hg.
      destruct g as [l| |]; try done.
      run_unwrap. simpl. by destruct (cell_value s1 l). }
    assert (Hno : (get_cell (current_env s1) "self" s1).1 ≠ Timeout)
      by by apply lookup_chain_wf.
    unfold self_instance. rewrite Heq.
    destruct (get_cell (current_env s1) "self" s1).1 as [l| |]; [|done..].
    destruct (cell_value s1 l) as [| | | |i|]; split; try done.
    intros j [= <-]. split; [done|]. intros Hnone.
    by rewrite assign_field_eq, Hnone.
Qed.

Lemma X11_witness :
  visit 2 (Assign (Identifier "z") (Number 1)) init_state
  = (Err (UndefinedVariable "z"), init_state).
Proof.
  destruct (X11_assignment_needs_a_binding 1 "z" (Number 1) init_state
              (VInt 1) init_state eq_refl wf_init_state) as [_ H].
  destruct H as [H _]; [by vm_compute|]. apply H. by vm_compute.
Defined.

(** ** Name resolution in the body of a call *)

Lemma enter_frame_bound p binds s x :
  x ∈ binds.*1 →
  ∃ vars' extra l,
    enter_frame p binds s
    = mkState (envs s ++ [mkEnvironment (Some p) ∅ vars' ∅])
              (cells s ++ extra) (instances s) (length (envs s))
    ∧ vars' !! x = Some l.
Proof.
  unfold enter_frame. simpl.
  set (s0 := set_envs _ s). set (k := length (envs s)).
  assert (Hgen : ∀ bs st e, envs st !! k = Some e → x ∈ bs.*1 →
            ∃ vars' extra l,
              define_variables k bs st
              = (Ok tt, mkState (<[k := mkEnvironment (parent e) (functions e)
                                         vars' (classes e)]> (envs st))
                          (cells st ++ extra) (instances st) (current_env st))
              ∧ vars' !! x = Some l).
  { induction bs as [|[y v] bs IH]; intros st e He Hx; simpl in Hx.
    - by apply elem_of_nil in Hx.
    - simpl. unfold bind at 1. rewrite define_variable_eq.
      rewrite (alter_as_insert _ _ _ _ He).
      set (e1 := with_variables (insert y (bound_cell v st)) e).
      set (st1 := mkState _ _ _ _).
      assert (He1 : envs st1 !! k = Some e1).
      { simpl. apply list_lookup_insert_eq. by eapply lookup_lt_Some. }
      destruct (decide (x ∈ bs.*1)) as [Hin|Hnot].
      + destruct (IH st1 e1 He1 Hin) as (vars' & extra & l & Heq & Hl).
        exists vars', (stored v ++ extra), l. split; [|done].
        rewrite Heq. simpl. by rewrite list_insert_insert_eq, <- app_assoc.
      + destruct (define_variables_spec k bs st1 e1 He1)
          as (vars' & extra & Heq & Hv).
        apply elem_of_cons in Hx as [->|Hx]; [|done].
        exists vars', (stored v ++ extra), (bound_cell v st). split.
        * rewrite Heq. simpl. by rewrite list_insert_insert_eq, <- app_assoc.
        * rewrite (Hv y Hnot). simpl. apply lookup_insert_eq. }
  intros Hx.
  assert (He : envs s0 !! k = Some (Environment_new (Some p))).
  { subst s0 k. simpl. by rewrite list_lookup_middle. }
  destruct (Hgen binds s0 _ He Hx) as (vars' & extra & l & Heq & Hl).
  exists vars', extra, l. split; [|done]. rewrite Heq. subst s0 k. simpl.
  unfold set_current_env. simpl. f_equal.
  rewrite <- (Nat.add_0_r (length (envs s))) at 1. by rewrite insert_app_r.
Qed.

Lemma enter_frame_self_spec p i binds s :
  "self" ∉ binds.*1 →
  ∃ vars' extra,
    enter_frame p (("self", VInstance i) :: binds) s
    = mkState (envs s ++ [mkEnvironment (Some p) ∅ vars' ∅])
              (cells s ++ VInstance i :: extra) (instances s) (length (envs s))
    ∧ vars' !! "self" = Some (length (cells s))
    ∧ (∀ x, x ≠ "self" → x ∉ binds.*1 → vars' !! x = None).
Proof.
  intros Hself. unfold enter_frame. simpl. unfold bind at 1.
  rewrite define_variable_eq. simpl. rewrite alter_new_frame.
  set (e1 := with_variables _ _). set (s1 := mkState _ _ _ _).
  assert (He1 : envs s1 !! length (envs s) = Some e1).
  { subst s1. simpl. by apply list_lookup_middle. }
  destruct (define_variables_spec (length (envs s)) binds s1 e1 He1)
    as (vars' & extra & Heq & Hv).
  exists vars', extra. rewrite Heq. subst s1. simpl. split; [|split].
  - unfold set_current_env. simpl. rewrite <- app_assoc. simpl. f_equal.
    rewrite <- (Nat.add_0_r (length (envs s))) at 1. by rewrite insert_app_r.
  - rewrite (Hv "self" Hself). subst e1. simpl. apply lookup_insert_eq.
  - intros x Hne Hx. rewrite (Hv x Hx). subst e1. simpl.
    by rewrite lookup_insert_ne.
Qed.

(** X12: inside the body of a call a name is looked up first among the
    parameters (and [self]), then among the variables of the global
    environment, and only then among the fields of [self]: a parameter
    resolves to a cell of the new environment; a variable bound at top level
    is visible in every function and method body, and hides a field of the
    same name; a name that is neither resolves, in a method, to the cell of
    the receiver's field of that name. *)
Theorem X12_resolution_order_in_bodies binds s1 g x k :
  envs s1 !! global_env = Some g →
  parent g = None →
  (x ∈ binds.*1 →
     let sb := enter_frame global_env binds s1 in
     ∃ l e, visit (S k) (Identifier x) sb = (Ok (VCell l), sb) ∧
            envs sb !! current_env sb = Some e ∧ variables e !! x = Some l) ∧
  (∀ l, x ∉ binds.*1 → variables g !! x = Some l →
     let sb := enter_frame global_env binds s1 in
     visit (S k) (Identifier x) sb = (Ok (VCell l), sb)) ∧
  (∀ i fl, x ∉ binds.*1 → "self" ∉ binds.*1 → x ≠ "self" →
     variables g !! x = None →
     dict_get (inst_fields (get_instance s1 i)) x = Some fl →
     let sb := enter_frame global_env (("self", VInstance i) :: binds) s1 in
     visit (S k) (Identifier x) sb = (Ok (VCell fl), sb)).
Proof.
  intros Hg Hpar. split; [|split].
  - intros Hx sb. subst sb.
    destruct (enter_frame_bound global_env binds s1 x Hx)
      as (vars' & extra & l & -> & Hl).
    exists l, (mkEnvironment (Some global_env) ∅ vars' ∅). split; [|split].
    + apply visit_Identifier_bound.
      rewrite (get_cell_in_callee (envs s1) g vars' _ _ x Hg Hpar). by rewrite Hl.
    + simpl. by apply list_lookup_middle.
    + done.
  - intros l Hx Hl sb. subst sb.
    destruct (enter_frame_spec global_env binds s1) as (vars' & extra & -> & _ & Hv).
    apply visit_Identifier_bound.
    rewrite (get_cell_in_callee (envs s1) g vars' _ _ x Hg Hpar).
    by rewrite (Hv x Hx), Hl.
  - intros i fl Hx Hself Hne Hgx Hfl sb. subst sb.
    destruct (enter_frame_self_spec global_env i binds s1 Hself)
      as (vars' & extra & -> & Hs & Hv).
    set (sb := mkState _ _ _ _).
    pose proof (get_cell_in_callee (envs s1) g vars'
                  (cells s1 ++ VInstance i :: extra) (instances s1)) as Hget.
    fold sb in Hget. simpl. rewrite visit_Identifier_unbound.
    + rewrite (Hget "self" Hg Hpar), Hs. simpl.
      unfold cell_value. simpl. rewrite list_lookup_middle by done. simpl.
      change (get_instance sb i) with (get_instance s1 i). by rewrite Hfl.
    + rewrite (Hget x Hg Hpar). by rewrite (Hv x Hne Hx), Hgx.
Qed.

Lemma X12_witness :
  let sb := enter_frame global_env [("self", VInstance 0); ("a", VInt 1)] one_Q in
  visit 1 (Identifier "n") sb = (Ok (VCell 0), sb) ∧
  visit 1 (Identifier "g") sb = (Ok (VCell 2), sb) ∧
  ∃ l, visit 1 (Identifier "a") sb = (Ok (VCell l), sb).
Proof.
  intros sb.
  assert (Hg : ∃ g, envs one_Q !! global_env = Some g ∧ parent g = None ∧
                    variables g !! "n" = None ∧ variables g !! "g" = Some 2).
  { eexists. split; [by vm_compute|]. by vm_compute. }
  destruct Hg as (g & Hg & Hpar & Hn & Hgg).
  split; [|split].
  - destruct (X12_resolution_order_in_bodies [("a", VInt 1)] one_Q g "n" 0 Hg Hpar)
      as (_ & _ & H). apply (H 0 0); try done.
    + simpl. rewrite not_elem_of_cons. split; [done|apply not_elem_of_nil].
    + simpl. rewrite not_elem_of_cons. split; [done|apply not_elem_of_nil].
  - destruct (X12_resolution_order_in_bodies [("self", VInstance 0); ("a", VInt 1)]
                one_Q g "g" 0 Hg Hpar) as (_ & H & _). apply H; [|done].
    simpl. rewrite !not_elem_of_cons. repeat split; try done. apply not_elem_of_nil.
  - destruct (X12_resolution_order_in_bodies [("self", VInstance 0); ("a", VInt 1)]
                one_Q g "a" 0 Hg Hpar) as (H & _).
    destruct H as (l & e & H & _).
    + simpl. apply elem_of_cons. right. apply elem_of_cons. by left.
    + by exists l.
Defined.

(** ** Expressions that only read *)

Lemma reads_bind {A B} (m : M A) (k : A → M B) :
  reads m → (∀ a, reads (k a)) → reads (bind m k).
Proof.
  intros Hm Hk s. unfold bind. specialize (Hm s).
  destruct (m s) as [[a| |] s1]; simpl in *; subst; [apply Hk|done..].
Qed.

Lemma reads_try_except {A} (m h : M A) : reads m → reads h → reads (try_except m h).
Proof.
  intros Hm Hh s. unfold try_except. specialize (Hm s).
  destruct (m s) as [[a| |] s1]; simpl in *; subst; [done|apply Hh|done].
Qed.

Lemma reads_ret {A} (a : A) : reads (ret a).
Proof. done. Qed.

Lemma reads_raise {A} e : reads (@raise A e).
Proof. done. Qed.

Ltac reads_go :=
  repeat first
    [ apply reads_ret | apply reads_raise
    | solve [eauto with reads]
    | assumption
    | apply reads_bind; [|intros ?]
    | apply reads_try_except
    | match goal with
      | |- reads (match ?x with _ => _ end) => destruct x; simpl
      end ].

Lemma reads_visit_Identifier x : reads (visit_Identifier x).
Proof. unfold visit_Identifier, self_cell_or. reads_go. Qed.

Lemma reads_visit_reads_only fuel : ∀ e, reads_only e = true → reads (visit fuel e).
Proof.
  induction fuel as [|k IH]; intros e He; [done|].
  destruct e; simpl in He; try done; simpl;
    repeat match goal with
           | H : _ && _ = true |- _ => apply andb_true_iff in H as [? ?]
           end;
    try apply reads_ret; try apply reads_visit_Identifier.
  - unfold visit_BinaryOp. reads_go; by apply IH.
  - unfold visit_RefExpr. reads_go.
  - unfold visit_DerefExpr. reads_go.
  - unfold visit_IfExpr. reads_go; by apply IH.
  - unfold visit_Comparison. reads_go; by apply IH.
  - unfold visit_MemberAccess. reads_go; by apply IH.
Qed.

(** X13: reading never writes.  Evaluating an expression built from
    literals, names, [ref], [#], field access, arithmetic, comparison and
    [if] leaves the whole state, environments, cells and instances, exactly
    as it was, whether the evaluation gives a value, raises or runs out of
    fuel. *)
Theorem X13_reading_never_writes fuel e s :
  reads_only e = true → (visit fuel e s).2 = s.
Proof. intros He. by apply reads_visit_reads_only. Qed.

Lemma X13_witness :
  (visit 4 (IfExpr (Comparison (Identifier "g") EQUALS (Number 4))
              (BinaryOp (MemberAccess (Identifier "q") "n") PLUS (DerefExpr "g"))
              (Number 0)) one_Q).2 = one_Q.
Proof. by apply X13_reading_never_writes. Defined.

(** ** Conditions *)

(** X14: an [if] evaluates its condition and then exactly one branch, in the
    state the condition left: the first branch for True and for a non-zero
    int, the second for False and for 0; the outcome does not depend on what
    the other branch is.  A condition that is neither a bool nor an int
    raises the condition type error and no branch runs. *)
Theorem X14_if_runs_one_branch n c t f s cv s1 :
  visit n c s = (Ok cv, s1) →
  let u := unwrap_in s1 cv in
  let result := visit (S n) (IfExpr c t f) s in
  (u = VBool true ∨ (∃ z, u = VInt z ∧ z ≠ 0%Z) → result = visit n t s1) ∧
  (u = VBool false ∨ u = VInt 0 → result = visit n f s1) ∧
  (type_of u ≠ TBool → type_of u ≠ TInt →
     result = (Err (TypeErrorIfCondition (type_name_in s1 u)), s1)).
Proof.
  intros Hc u result.
  assert (Heq : result =
    match u with
    | VBool b => if b then visit n t s1 else visit n f s1
    | VInt z => if decide (z ≠ 0)%Z then visit n t s1 else visit n f s1
    | _ => (Err (TypeErrorIfCondition (type_name_in s1 u)), s1)
    end).
  { subst result. simpl. unfold visit_IfExpr. run_bind Hc. run_unwrap. fold u.
    clearbody u. destruct u as [z|[]| | | |]; try done; by case_decide. }
  rewrite Heq. split; [|split].
  - intros [->|(z & -> & Hz)]; [done|]. by rewrite decide_True.
  - intros [->| ->]; [done|]. rewrite decide_False; [done|]. intros H. by apply H.
  - intros Hb Hi. by destruct u.
Qed.

Lemma X14_witness :
  visit 2 (IfExpr (Number 0) (Identifier "nowhere") (Number 2)) init_state
    = (Ok (VInt 2), init_state) ∧
  visit 2 (IfExpr (StringLiteral "x") (Number 1) (Number 2)) init_state
    = (Err (TypeErrorIfCondition "string"), init_state).
Proof.
  destruct (X14_if_runs_one_branch 1 (Number 0) (Identifier "nowhere") (Number 2)
              init_state (VInt 0) init_state eq_refl) as (_ & H1 & _).
  destruct (X14_if_runs_one_branch 1 (StringLiteral "x") (Number 1) (Number 2)
              init_state (VStr "x") init_state eq_refl) as (_ & _ & H2).
  split; [by rewrite H1; [|right]|by apply H2].
Defined.

(** * The parser *)

(** ** The trees the parser builds *)

Lemma yields_pret {A} (a : A) (Q : A → Prop) : Q a → yields (Parser.pret a) Q.
Proof. intros H p a' p' [= <- _]. exact H. Qed.

Lemma yields_error {A} msg (Q : A → Prop) : yields (Parser.error_ msg) Q.
Proof. intros p a p' [=]. Qed.

Lemma yields_timeout {A} (Q : A → Prop) : yields Parser.ptimeout Q.
Proof. intros p a p' [=]. Qed.

Lemma yields_bind {A B} (m : Parser.P A) (k : A → Parser.P B) Q R :
  yields m Q → (∀ a, Q a → yields (k a) R) → yields (Parser.pbind m k) R.
Proof.
  intros Hm Hk p b p'. unfold Parser.pbind.
  destruct (m p) as [[a|e|] p1] eqn:E; [|done..].
  intros H. exact (Hk a (Hm _ _ _ E) _ _ _ H).
Qed.

Lemma yields_bind_any {A B} (m : Parser.P A) (k : A → Parser.P B) R :
  (∀ a, yields (k a) R) → yields (Parser.pbind m k) R.
Proof.
  intros Hk. apply (yields_bind m k (λ _, True)); [done|]. intros a _. apply Hk.
Qed.

Lemma forallb_snoc {A} (f : A → bool) l x :
  forallb f l = true → f x = true → forallb f (l ++ [x]) = true.
Proof. intros Hl Hx. rewrite forallb_app, Hl. simpl. by rewrite Hx. Qed.

Ltac shape_solve :=
  cbv beta in *;
  first
    [ by apply forallb_snoc
    | unfold expression_shaped in *; simpl;
      repeat match goal with
             | H : _ && _ = true |- _ => apply andb_true_iff in H; destruct H
             end;
      repeat (apply andb_true_iff; split);
      first [ done | by apply bool_decide_eq_true ] ].

Ltac yields_go :=
  repeat first
    [ apply yields_pret
    | apply yields_error
    | apply yields_timeout
    | eapply yields_bind; [solve [eauto]|intros ? ?]
    | apply yields_bind_any; intros ?
    | case_decide ].

Section parser_shape.
Variable expr : Parser.P node.
Variable statement : Parser.P node.
Variable fuel : nat.
Hypothesis Hexpr : yields expr (λ n, expression_shaped n = true).
Hypothesis Hstatement : yields statement (λ n, shaped n = true).

Lemma arguments_loop_shaped k args :
  forallb expression_shaped args = true →
  yields (Parser.arguments_loop expr k args)
    (λ l, forallb expression_shaped l = true).
Proof using Hexpr.
  revert args. induction k as [|k IH]; intros args Hargs; simpl.
  - yields_go; shape_solve.
  - apply yields_bind_any; intros t. case_decide.
    + apply yields_bind_any; intros _.
      eapply yields_bind; [exact Hexpr|]. intros e He. apply IH. shape_solve.
    + by apply yields_pret.
Qed.

Lemma arguments_shaped :
  yields (Parser.arguments expr fuel) (λ l, forallb expression_shaped l = true).
Proof using Hexpr.
  unfold Parser.arguments. apply yields_bind_any; intros t. case_decide.
  - by apply yields_pret.
  - eapply yields_bind; [exact Hexpr|]. intros e He.
    apply arguments_loop_shaped. simpl. by rewrite He.
Qed.

Lemma primary_shaped :
  yields (Parser.primary expr fuel) (λ n, expression_shaped n = true).
Proof using Hexpr.
  pose proof arguments_shaped as Hargs.
  unfold Parser.primary. apply yields_bind_any; intros token.
  destruct (Tok.type token); yields_go; shape_solve.
Qed.

Lemma factor_loop_shaped k n :
  expression_shaped n = true →
  yields (Parser.factor_loop expr fuel k n) (λ n, expression_shaped n = true).
Proof using Hexpr.
  pose proof arguments_shaped as Hargs.
  revert n. induction k as [|k IH]; intros n Hn; simpl.
  - yields_go; shape_solve.
  - apply yields_bind_any; intros t. case_decide; [|by apply yields_pret].
    do 4 (apply yields_bind_any; intros ?). case_decide.
    + apply yields_bind_any; intros _.
      eapply yields_bind; [exact Hargs|]. intros args Ha.
      apply yields_bind_any; intros _. apply IH. shape_solve.
    + apply IH. shape_solve.
Qed.

Lemma factor_shaped :
  yields (Parser.factor expr fuel) (λ n, expression_shaped n = true).
Proof using Hexpr.
  unfold Parser.factor. eapply yields_bind; [apply primary_shaped|].
  intros n Hn. by apply factor_loop_shaped.
Qed.

Lemma term_loop_shaped k n :
  expression_shaped n = true →
  yields (Parser.term_loop expr fuel k n) (λ n, expression_shaped n = true).
Proof using Hexpr.
  revert n. induction k as [|k IH]; intros n Hn; simpl.
  - yields_go; shape_solve.
  - apply yields_bind_any; intros op. case_decide as Hop; [|by apply yields_pret].
    apply yields_bind_any; intros _.
    eapply yields_bind; [apply factor_shaped|]. intros r Hr. apply IH.
    destruct Hop as [-> | ->]; shape_solve.
Qed.

Lemma term_shaped :
  yields (Parser.term expr fuel) (λ n, expression_shaped n = true).
Proof using Hexpr.
  unfold Parser.term. eapply yields_bind; [apply factor_shaped|].
  intros n Hn. by apply term_loop_shaped.
Qed.

Lemma arith_expr_loop_shaped k n :
  expression_shaped n = true →
  yields (Parser.arith_expr_loop expr fuel k n)
    (λ n, expression_shaped n = true).
Proof using Hexpr.
  revert n. induction k as [|k IH]; intros n Hn; simpl.
  - yields_go; shape_solve.
  - apply yields_bind_any; intros op. case_decide as Hop; [|by apply yields_pret].
    apply yields_bind_any; intros _.
    eapply yields_bind; [apply term_shaped|]. intros r Hr. apply IH.
    destruct Hop as [-> | ->]; shape_solve.
Qed.

Lemma arith_expr_shaped :
  yields (Parser.arith_expr expr fuel) (λ n, expression_shaped n = true).
Proof using Hexpr.
  unfold Parser.arith_expr. eapply yields_bind; [apply term_shaped|].
  intros n Hn. by apply arith_expr_loop_shaped.
Qed.

Lemma comparison_shaped :
  yields (Parser.comparison expr fuel) (λ n, expression_shaped n = true).
Proof using Hexpr.
  pose proof arith_expr_shaped as Ha.
  unfold Parser.comparison. yields_go; subst; shape_solve.
Qed.

Lemma statements_loop_shaped k stmts :
  forallb shaped stmts = true →
  yields (Parser.statements_loop statement k stmts)
    (λ l, forallb shaped l = true).
Proof using Hstatement.
  revert stmts. induction k as [|k IH]; intros stmts Hs; simpl.
  - yields_go; shape_solve.
  - apply yields_bind_any; intros t. case_decide; [|by apply yields_pret].
    eapply yields_bind; [exact Hstatement|]. intros st Hst. apply IH.
    by apply forallb_snoc.
Qed.

Lemma block_expression_shaped :
  yields (Parser.block_expression statement fuel)
    (λ n, expression_shaped n = true).
Proof using Hstatement.
  unfold Parser.block_expression. apply yields_bind_any; intros _.
  eapply yields_bind; [by apply statements_loop_shaped|]. intros stmts Hs.
  yields_go. shape_solve.
Qed.

Lemma expr_body_shaped :
  yields (Parser.expr_body expr statement fuel)
    (λ n, expression_shaped n = true).
Proof using Hexpr Hstatement.
  pose proof block_expression_shaped as Hb.
  pose proof comparison_shaped as Hc.
  unfold Parser.expr_body. apply yields_bind_any; intros t.
  destruct t; try exact Hc; try exact Hb.
  - yields_go; shape_solve.
  - do 5 (apply yields_bind_any; intros ?).
    eapply yields_bind; [exact Hexpr|]. intros v Hv.
    apply yields_bind_any; intros t'. case_decide; [apply yields_error|].
    do 2 (apply yields_bind_any; intros ?).
    eapply yields_bind; [case_decide; eauto|]. intros body Hbody.
    apply yields_pret. shape_solve.
Qed.

Lemma function_def_shaped :
  yields (Parser.function_def expr statement fuel)
    (λ fd, shaped_fd fd = true).
Proof using Hexpr Hstatement.
  pose proof block_expression_shaped as Hb.
  unfold Parser.function_def. do 7 (apply yields_bind_any; intros ?).
  eapply yields_bind; [case_decide; eauto|]. intros body Hbody.
  apply yields_pret. shape_solve.
Qed.

Lemma class_members_shaped k fields methods :
  forallb shaped_fd methods = true →
  yields (Parser.class_members expr statement fuel k fields methods)
    (λ fm, forallb shaped_fd fm.2 = true).
Proof using Hexpr Hstatement.
  pose proof function_def_shaped as Hf.
  revert fields methods. induction k as [|k IH]; intros fields methods Hm; simpl.
  - yields_go; shape_solve.
  - apply yields_bind_any; intros t. case_decide; [|by apply yields_pret].
    case_decide.
    + do 4 (apply yields_bind_any; intros ?). by apply IH.
    + case_decide; [|apply yields_error].
      apply yields_bind_any; intros _.
      eapply yields_bind; [exact Hf|]. intros m Hmm. apply IH.
      by apply forallb_snoc.
Qed.

Lemma parse_class_shaped :
  yields (Parser.parse_class expr statement fuel) (λ n, shaped n = true).
Proof using Hexpr Hstatement.
  unfold Parser.parse_class. do 4 (apply yields_bind_any; intros ?).
  eapply yields_bind; [by apply class_members_shaped|]. intros fm Hfm.
  apply yields_bind_any; intros _. by apply yields_pret.
Qed.

Lemma statement_body_shaped :
  yields (Parser.statement_body expr statement fuel) (λ n, shaped n = true).
Proof using Hexpr Hstatement.
  pose proof function_def_shaped as Hf.
  pose proof parse_class_shaped as Hc.
  assert (Hother : yields
    (Parser.pbind expr (λ left,
       Parser.pbind Parser.current_type (λ t',
         if decide (t' = COLON_ASSIGN) then
           Parser.pbind (Parser.eat COLON_ASSIGN) (λ _,
             Parser.pbind expr (λ v, Parser.pret (RefAssign left v)))
         else if decide (t' = ASSIGN) then
           Parser.pbind (Parser.eat ASSIGN) (λ _,
             Parser.pbind expr (λ v,
               if Parser.assignable left then Parser.pret (Assign left v)
               else Parser.error_ Parser.InvalidAssignmentTarget))
         else Parser.pret left)))
    (λ n, shaped n = true)).
  { eapply yields_bind; [exact Hexpr|]. intros left Hl.
    apply yields_bind_any; intros t'. case_decide.
    - yields_go. shape_solve.
    - case_decide.
      + apply yields_bind_any; intros _.
        eapply yields_bind; [exact Hexpr|]. intros v Hv.
        destruct (Parser.assignable left) eqn:Ha; [|apply yields_error].
        apply yields_pret. simpl. rewrite Ha. shape_solve.
      + apply yields_pret. shape_solve. }
  unfold Parser.statement_body. apply yields_bind_any; intros t.
  destruct t; try exact Hother; try exact Hc.
  - yields_go; shape_solve.
  - yields_go; shape_solve.
Qed.
End parser_shape.

Lemma expr_statement_shaped fuel :
  yields (Parser.expr fuel) (λ n, expression_shaped n = true) ∧
  yields (Parser.statement fuel) (λ n, shaped n = true).
Proof.
  induction fuel as [|k [IHe IHs]]; simpl.
  - split; apply yields_timeout.
  - split; [by apply expr_body_shaped|by apply statement_body_shaped].
Qed.

Lemma parse_shaped fuel toks n :
  Parser.parse fuel toks = Parser.POk n → shaped n = true.
Proof.
  unfold Parser.parse. intros H.
  destruct (expr_statement_shaped fuel) as [_ Hs].
  set (m := Parser.pbind _ _) in H.
  destruct (m (Parser.init toks)) as [r p'] eqn:E. simpl in H. subst r.
  revert E. generalize (Parser.init toks). intros p E.
  assert (Hy : yields m (λ n, shaped n = true)).
  { subst m. eapply yields_bind; [exact Hs|]. intros a Ha.
    yields_go. done. }
  exact (Hy _ _ _ E).
Qed.

(** X15: every tree the parser returns is shaped.  An arithmetic node
    carries [+], [-], [*] or [/] and a comparison carries [==]; the target of
    a plain assignment is an identifier or a field access; and a
    let-statement, a function or class declaration, a reference assignment
    or a plain assignment stands only where a statement can stand, as the
    whole input or directly in a block (the body of a function or of a
    method included), never as an operand, a condition, a branch, an
    argument, a receiver, a bound value or the body of a let-expression. *)
Theorem X15_parsed_trees_are_shaped fuel toks n :
  Parser.parse fuel toks = Parser.POk n →
  shaped n = true ∧
  ∀ t v, n = Assign t v →
    (∃ x, t = Identifier x) ∨ (∃ o f, t = MemberAccess o f).
Proof.
  intros H. pose proof (parse_shaped _ _ _ H) as Hn. split; [done|].
  intros t v ->. simpl in Hn. apply andb_true_iff in Hn as [Hn _].
  apply andb_true_iff in Hn as [Hn _].
  destruct t; try discriminate; eauto.
Qed.

Lemma X15_witness :
  shaped (Assign (Identifier "x") (BinaryOp (Number 1) PLUS (Number 2))) = true.
Proof.
  apply (X15_parsed_trees_are_shaped 3 tokens_assignment). reflexivity.
Defined.

(** ** More fuel does not change what the parser returns *)

Lemma below_refl {A} (m : Parser.P A) : below m m.
Proof. by intros p _. Qed.

Lemma below_timeout {A} (m : Parser.P A) : below Parser.ptimeout m.
Proof. by intros p H. Qed.

Lemma below_bind {A B} (m1 m2 : Parser.P A) (k1 k2 : A → Parser.P B) :
  below m1 m2 → (∀ a, below (k1 a) (k2 a)) →
  below (Parser.pbind m1 k1) (Parser.pbind m2 k2).
Proof.
  intros Hm Hk p. unfold Parser.pbind. specialize (Hm p).
  destruct (m1 p) as [[a|e|] p1]; simpl; intros H.
  - rewrite Hm by done. by apply Hk.
  - by rewrite Hm.
  - done.
Qed.

Ltac below_go :=
  repeat first
    [ assumption
    | apply below_refl
    | apply below_timeout
    | apply below_bind; [|intros ?]
    | case_decide
    | match goal with
      | |- below (match ?x with _ => _ end) _ => destruct x
      end ].

Lemma below_parameters_loop k1 : ∀ k2 params,
  k1 ≤ k2 →
  below (Parser.parameters_loop k1 params) (Parser.parameters_loop k2 params).
Proof.
  induction k1 as [|k1 IH]; intros [|k2] params Hk; simpl; try lia; below_go.
  apply IH. lia.
Qed.

Section productions_below.
Variables expr1 statement1 expr2 statement2 : Parser.P node.
Variables fuel1 fuel2 : nat.
Hypothesis expr_below : below expr1 expr2.
Hypothesis statement_below : below statement1 statement2.
Hypothesis fuel_below : fuel1 ≤ fuel2.

Lemma below_parameters :
  below (Parser.parameters fuel1) (Parser.parameters fuel2).
Proof. unfold Parser.parameters. below_go. by apply below_parameters_loop. Qed.

Lemma below_arguments_loop k1 : ∀ k2 args,
  k1 ≤ k2 →
  below (Parser.arguments_loop expr1 k1 args) (Parser.arguments_loop expr2 k2 args).
Proof.
  induction k1 as [|k1 IH]; intros [|k2] args Hk; simpl; try lia; below_go.
  apply IH. lia.
Qed.

Lemma below_arguments :
  below (Parser.arguments expr1 fuel1) (Parser.arguments expr2 fuel2).
Proof. unfold Parser.arguments. below_go. by apply below_arguments_loop. Qed.

Lemma below_primary :
  below (Parser.primary expr1 fuel1) (Parser.primary expr2 fuel2).
Proof.
  pose proof below_arguments. unfold Parser.primary. below_go.
Qed.

Lemma below_factor_loop k1 : ∀ k2 n,
  k1 ≤ k2 →
  below (Parser.factor_loop expr1 fuel1 k1 n) (Parser.factor_loop expr2 fuel2 k2 n).
Proof.
  pose proof below_arguments.
  induction k1 as [|k1 IH]; intros [|k2] n Hk; simpl; try lia; below_go;
    apply IH; lia.
Qed.

Lemma below_factor :
  below (Parser.factor expr1 fuel1) (Parser.factor expr2 fuel2).
Proof.
  pose proof below_primary. unfold Parser.factor. below_go.
  by apply below_factor_loop.
Qed.

Lemma below_term_loop k1 : ∀ k2 n,
  k1 ≤ k2 →
  below (Parser.term_loop expr1 fuel1 k1 n) (Parser.term_loop expr2 fuel2 k2 n).
Proof.
  pose proof below_factor.
  induction k1 as [|k1 IH]; intros [|k2] n Hk; simpl; try lia; below_go;
    apply IH; lia.
Qed.

Lemma below_term :
  below (Parser.term expr1 fuel1) (Parser.term expr2 fuel2).
Proof.
  pose proof below_factor. unfold Parser.term. below_go.
  by apply below_term_loop.
Qed.

Lemma below_arith_expr_loop k1 : ∀ k2 n,
  k1 ≤ k2 →
  below (Parser.arith_expr_loop expr1 fuel1 k1 n)
        (Parser.arith_expr_loop expr2 fuel2 k2 n).
Proof.
  pose proof below_term.
  induction k1 as [|k1 IH]; intros [|k2] n Hk; simpl; try lia; below_go;
    apply IH; lia.
Qed.

Lemma below_arith_expr :
  below (Parser.arith_expr expr1 fuel1) (Parser.arith_expr expr2 fuel2).
Proof.
  pose proof below_term. unfold Parser.arith_expr. below_go.
  by apply below_arith_expr_loop.
Qed.

Lemma below_comparison :
  below (Parser.comparison expr1 fuel1) (Parser.comparison expr2 fuel2).
Proof. pose proof below_arith_expr. unfold Parser.comparison. below_go. Qed.

Lemma below_statements_loop k1 : ∀ k2 stmts,
  k1 ≤ k2 →
  below (Parser.statements_loop statement1 k1 stmts)
        (Parser.statements_loop statement2 k2 stmts).
Proof.
  induction k1 as [|k1 IH]; intros [|k2] stmts Hk; simpl; try lia; below_go;
    apply IH; lia.
Qed.

Lemma below_block_expression :
  below (Parser.block_expression statement1 fuel1)
        (Parser.block_expression statement2 fuel2).
Proof.
  unfold Parser.block_expression. below_go. by apply below_statements_loop.
Qed.

Lemma below_expr_body :
  below (Parser.expr_body expr1 statement1 fuel1)
        (Parser.expr_body expr2 statement2 fuel2).
Proof.
  pose proof below_block_expression. pose proof below_comparison.
  unfold Parser.expr_body. below_go.
Qed.

Lemma below_function_def :
  below (Parser.function_def expr1 statement1 fuel1)
        (Parser.function_def expr2 statement2 fuel2).
Proof.
  pose proof below_block_expression. pose proof below_parameters.
  unfold Parser.function_def. below_go.
Qed.

Lemma below_class_members k1 : ∀ k2 fields methods,
  k1 ≤ k2 →
  below (Parser.class_members expr1 statement1 fuel1 k1 fields methods)
        (Parser.class_members expr2 statement2 fuel2 k2 fields methods).
Proof.
  pose proof below_function_def.
  induction k1 as [|k1 IH]; intros [|k2] fields methods Hk; simpl; try lia;
    below_go; apply IH; lia.
Qed.

Lemma below_parse_class :
  below (Parser.parse_class expr1 statement1 fuel1)
        (Parser.parse_class expr2 statement2 fuel2).
Proof.
  unfold Parser.parse_class. below_go. by apply below_class_members.
Qed.

Lemma below_statement_body :
  below (Parser.statement_body expr1 statement1 fuel1)
        (Parser.statement_body expr2 statement2 fuel2).
Proof.
  pose proof below_function_def. pose proof below_parse_class.
  unfold Parser.statement_body. below_go.
Qed.
End productions_below.

Lemma below_expr_statement fuel1 : ∀ fuel2,
  fuel1 ≤ fuel2 →
  below (Parser.expr fuel1) (Parser.expr fuel2) ∧
  below (Parser.statement fuel1) (Parser.statement fuel2).
Proof.
  induction fuel1 as [|k1 IH]; intros [|k2] Hk; simpl; try lia;
    try (split; apply below_timeout).
  destruct (IH k2) as [He Hs]; [lia|].
  split; [apply below_expr_body|apply below_statement_body]; auto; lia.
Qed.

Lemma parse_stable fuel fuel' toks :
  fuel ≤ fuel' → Parser.parse fuel toks ≠ Parser.PTimeout →
  Parser.parse fuel' toks = Parser.parse fuel toks.
Proof.
  intros Hf. unfold Parser.parse. intros H.
  destruct (below_expr_statement fuel fuel' Hf) as [_ Hs].
  f_equal. apply (below_bind _ _ _ _ Hs); [|done].
  intros n. apply below_refl.
Qed.

(** ** The parser returns on every token list of the lexer *)

Section parser_runs.
Variable toks : list Tok.Token.
Hypothesis toks_end : ends_with_EOF toks.

Lemma runs_zero {A} b (m : Parser.P A) : runs toks b 0 m.
Proof. intros p (_ & Hp & _) Hr. lia. Qed.

Lemma runs_le {A} b r r' (m : Parser.P A) :
  r' ≤ r → runs toks b r m → runs toks b r' m.
Proof. intros Hr Hm p Hp Hp'. apply Hm; [done|lia]. Qed.

Lemma runs_weaken {A} r (m : Parser.P A) :
  runs toks true r m → runs toks false r m.
Proof.
  intros Hm p Hp Hr. specialize (Hm p Hp Hr).
  destruct (m p) as [[a|e|] p']; [|done..]. destruct Hm. split; [done|lia].
Qed.

Lemma runs_pret {A} r (a : A) : runs toks false r (Parser.pret a).
Proof. intros p Hp Hr. simpl. done. Qed.

Lemma runs_error {A} b r msg : runs toks b r (Parser.error_ (A:=A) msg).
Proof. intros p Hp Hr. done. Qed.

Lemma runs_bind {A B} b r (m : Parser.P A) (k : A → Parser.P B) :
  runs toks false r m → (∀ a, runs toks b r (k a)) →
  runs toks b r (Parser.pbind m k).
Proof.
  intros Hm Hk p Hp Hr. unfold Parser.pbind. specialize (Hm p Hp Hr).
  destruct (m p) as [[a|e|] p1]; [|done..]. destruct Hm as [Hp1 Hpos].
  assert (Hr1 : length toks - Parser.pos p1 ≤ r) by lia.
  specialize (Hk a p1 Hp1 Hr1).
  destruct (k a p1) as [[c|e|] p2]; [|done..].
  destruct Hk as [Hp2 Hpos2]. split; [done|]. destruct b; lia.
Qed.

Lemma runs_bind_strict {A B} r (m : Parser.P A) (k : A → Parser.P B) :
  runs toks true (S r) m → (∀ a, runs toks false r (k a)) →
  runs toks true (S r) (Parser.pbind m k).
Proof.
  intros Hm Hk p Hp Hr. unfold Parser.pbind. specialize (Hm p Hp Hr).
  destruct (m p) as [[a|e|] p1]; [|done..]. destruct Hm as [Hp1 Hpos].
  assert (Hr1 : length toks - Parser.pos p1 ≤ r) by lia.
  specialize (Hk a p1 Hp1 Hr1).
  destruct (k a p1) as [[c|e|] p2]; [|done..].
  destruct Hk as [Hp2 Hpos2]. split; [done|]. lia.
Qed.

Lemma runs_current r : runs toks false r Parser.current.
Proof.
  intros p (Ht & Hp & Hc) Hr. unfold Parser.current. rewrite Hc.
  destruct (lookup_lt_is_Some_2 toks _ Hp) as [t ->]. by split.
Qed.

Lemma runs_current_type r : runs toks false r Parser.current_type.
Proof.
  apply runs_bind; [apply runs_current|]. intros t. apply runs_pret.
Qed.

Lemma runs_current_value r : runs toks false r Parser.current_value.
Proof.
  apply runs_bind; [apply runs_current|]. intros t. apply runs_pret.
Qed.

(** No production eats EOF, and every other token has a successor. *)
Lemma runs_eat r token_type :
  token_type ≠ EOF → runs toks true r (Parser.eat token_type).
Proof using toks_end.
  intros Hne p (Ht & Hp & Hc) Hr. unfold Parser.eat, Parser.pbind,
    Parser.current_type, Parser.pbind, Parser.current. rewrite Hc.
  destruct (lookup_lt_is_Some_2 toks _ Hp) as [t Ht']. rewrite Ht'. simpl.
  case_decide as Hty; [|done]. simpl. rewrite Ht.
  destruct toks_end as (ts & last & -> & Hlast).
  rewrite length_app in *. simpl in *.
  assert (Parser.pos p < length ts).
  { destruct (decide (Parser.pos p = length ts)) as [E|]; [|lia].
    rewrite E, list_lookup_middle in Ht'; [|done]. congruence. }
  destruct (lookup_lt_is_Some_2 (ts ++ [last]) (Parser.pos p + 1)) as [t1 Ht1].
  { rewrite length_app. simpl. lia. }
  rewrite Ht1. repeat split; simpl; try done; try lia.
  rewrite length_app. simpl. lia.
Qed.

Lemma runs_parameters_loop k : ∀ r params,
  r ≤ k → runs toks false r (Parser.parameters_loop k params).
Proof using toks_end.
  induction k as [|k IH]; intros r params Hr.
  - replace r with 0 by lia. apply runs_zero.
  - destruct r as [|r]; [apply runs_zero|]. simpl.
    apply runs_bind; [apply runs_current_type|]. intros t.
    case_decide; [|apply runs_pret].
    apply runs_weaken, runs_bind_strict; [by apply runs_eat|]. intros _.
    apply runs_bind; [apply runs_current_value|]. intros v.
    apply runs_bind; [by apply runs_weaken, runs_eat|]. intros _.
    apply IH. lia.
Qed.

Lemma runs_parameters r fuel :
  r ≤ fuel → runs toks false r (Parser.parameters fuel).
Proof using toks_end.
  intros Hr. unfold Parser.parameters.
  apply runs_bind; [apply runs_current_type|]. intros t.
  case_decide; [apply runs_pret|].
  apply runs_bind; [apply runs_current_value|]. intros v.
  apply runs_bind; [by apply runs_weaken, runs_eat|]. intros _.
  by apply runs_parameters_loop.
Qed.

Lemma runs_type_annotation r : runs toks false r Parser.type_annotation.
Proof using toks_end.
  unfold Parser.type_annotation.
  apply runs_bind; [apply runs_current_type|]. intros t.
  case_decide; [|apply runs_pret].
  apply runs_bind; [by apply runs_weaken, runs_eat|]. intros _.
  apply runs_bind; [apply runs_current_value|]. intros v.
  apply runs_bind; [by apply runs_weaken, runs_eat|]. intros _.
  apply runs_pret.
Qed.

Ltac runs_atom :=
  first
    [ apply runs_pret | apply runs_error | apply runs_current_type
    | apply runs_current_value | apply runs_current
    | apply runs_type_annotation
    | apply runs_eat; done
    | match goal with
      | H : runs _ ?b _ ?m |- runs _ ?b _ ?m => eapply runs_le; [|exact H]; lia
      end ].

Ltac runs_head :=
  first [ runs_atom | apply runs_weaken; runs_atom ].

Ltac runs_go :=
  repeat first
    [ runs_head
    | apply runs_bind_strict; [runs_atom | intros ?]
    | apply runs_weaken; apply runs_bind_strict; [runs_atom | intros ?]
    | apply runs_bind; [first [runs_head | case_decide; runs_head] | intros ?]
    | case_decide
    | match goal with
      | |- runs _ _ _ (match ?x with _ => _ end) => destruct x
      end ].

Section productions_run.
Variable expr : Parser.P node.
Variable statement : Parser.P node.
Variable fuel : nat.
Variable r : nat.
Hypothesis expr_runs : runs toks true r expr.
Hypothesis statement_runs : runs toks true r statement.
Hypothesis fuel_covers : r ≤ fuel.

Lemma runs_arguments_loop k : ∀ r0 args,
  r0 ≤ k → r0 ≤ S r → runs toks false r0 (Parser.arguments_loop expr k args).
Proof.
  induction k as [|k IH]; intros r0 args Hk Hr.
  - replace r0 with 0 by lia. apply runs_zero.
  - destruct r0 as [|r0]; [apply runs_zero|]. simpl.
    apply runs_bind; [apply runs_current_type|]. intros t.
    case_decide; [|apply runs_pret].
    apply runs_weaken, runs_bind_strict; [by apply runs_eat|]. intros _.
    apply runs_bind; [runs_head|]. intros e. apply IH; lia.
Qed.

Lemma runs_arguments : runs toks false r (Parser.arguments expr fuel).
Proof.
  unfold Parser.arguments. apply runs_bind; [apply runs_current_type|].
  intros t. case_decide; [apply runs_pret|].
  apply runs_bind; [runs_head|]. intros e. apply runs_arguments_loop; lia.
Qed.

Lemma runs_primary : runs toks true (S r) (Parser.primary expr fuel).
Proof.
  pose proof runs_arguments as Hargs.
  unfold Parser.primary. apply runs_bind; [apply runs_current|].
  intros token. destruct (Tok.type token); runs_go.
Qed.

Lemma runs_factor_loop k : ∀ r0 n,
  r0 ≤ k → r0 ≤ r → runs toks false r0 (Parser.factor_loop expr fuel k n).
Proof.
  pose proof runs_arguments as Hargs.
  induction k as [|k IH]; intros r0 n Hk Hr.
  - replace r0 with 0 by lia. apply runs_zero.
  - destruct r0 as [|r0]; [apply runs_zero|]. simpl.
    apply runs_bind; [apply runs_current_type|]. intros t.
    case_decide; [|apply runs_pret].
    apply runs_weaken, runs_bind_strict; [by apply runs_eat|]. intros _.
    apply runs_bind; [runs_head|]. intros v.
    apply runs_bind; [runs_head|]. intros _.
    apply runs_bind; [runs_head|]. intros t'. case_decide.
    + apply runs_bind; [runs_head|]. intros _.
      apply runs_bind; [runs_head|]. intros args.
      apply runs_bind; [runs_head|]. intros _. apply IH; lia.
    + apply IH; lia.
Qed.

Lemma runs_factor : runs toks true (S r) (Parser.factor expr fuel).
Proof.
  unfold Parser.factor. apply runs_bind_strict; [apply runs_primary|].
  intros n. by apply runs_factor_loop.
Qed.

Lemma runs_term_loop k : ∀ r0 n,
  r0 ≤ k → r0 ≤ r → runs toks false r0 (Parser.term_loop expr fuel k n).
Proof.
  pose proof runs_factor as Hf.
  induction k as [|k IH]; intros r0 n Hk Hr.
  - replace r0 with 0 by lia. apply runs_zero.
  - destruct r0 as [|r0]; [apply runs_zero|]. simpl.
    apply runs_bind; [apply runs_current_type|]. intros op.
    case_decide as Hop; [|apply runs_pret].
    apply runs_weaken, runs_bind_strict.
    { apply runs_eat. by destruct Hop as [-> | ->]. }
    intros _. apply runs_bind; [runs_head|]. intros e. apply IH; lia.
Qed.

Lemma runs_term : runs toks true (S r) (Parser.term expr fuel).
Proof.
  unfold Parser.term. apply runs_bind_strict; [apply runs_factor|].
  intros n. by apply runs_term_loop.
Qed.

Lemma runs_arith_expr_loop k : ∀ r0 n,
  r0 ≤ k → r0 ≤ r → runs toks false r0 (Parser.arith_expr_loop expr fuel k n).
Proof.
  pose proof runs_term as Ht.
  induction k as [|k IH]; intros r0 n Hk Hr.
  - replace r0 with 0 by lia. apply runs_zero.
  - destruct r0 as [|r0]; [apply runs_zero|]. simpl.
    apply runs_bind; [apply runs_current_type|]. intros op.
    case_decide as Hop; [|apply runs_pret].
    apply runs_weaken, runs_bind_strict.
    { apply runs_eat. by destruct Hop as [-> | ->]. }
    intros _. apply runs_bind; [runs_head|]. intros e. apply IH; lia.
Qed.

Lemma runs_arith_expr : runs toks true (S r) (Parser.arith_expr expr fuel).
Proof.
  unfold Parser.arith_expr. apply runs_bind_strict; [apply runs_term|].
  intros n. by apply runs_arith_expr_loop.
Qed.

Lemma runs_comparison : runs toks true (S r) (Parser.comparison expr fuel).
Proof.
  pose proof runs_arith_expr as Ha.
  unfold Parser.comparison. runs_go.
Qed.

Lemma runs_statements_loop k : ∀ r0 stmts,
  r0 ≤ k → r0 ≤ r →
  runs toks false r0 (Parser.statements_loop statement k stmts).
Proof.
  induction k as [|k IH]; intros r0 stmts Hk Hr.
  - replace r0 with 0 by lia. apply runs_zero.
  - destruct r0 as [|r0]; [apply runs_zero|]. simpl.
    apply runs_bind; [apply runs_current_type|]. intros t.
    case_decide; [|apply runs_pret].
    apply runs_weaken, runs_bind_strict; [runs_atom|]. intros st.
    apply IH; lia.
Qed.

Lemma runs_block_expression :
  runs toks true (S r) (Parser.block_expression statement fuel).
Proof.
  unfold Parser.block_expression.
  apply runs_bind_strict; [by apply runs_eat|]. intros _.
  apply runs_bind; [by apply runs_statements_loop|]. intros stmts.
  runs_go.
Qed.

Lemma runs_expr_body :
  runs toks true (S r) (Parser.expr_body expr statement fuel).
Proof.
  pose proof runs_block_expression as Hb.
  pose proof runs_comparison as Hc.
  unfold Parser.expr_body. apply runs_bind; [apply runs_current_type|].
  intros t. destruct t; try exact Hc; try exact Hb; runs_go.
Qed.

Lemma runs_function_def :
  runs toks false r (Parser.function_def expr statement fuel).
Proof.
  pose proof runs_block_expression as Hb.
  pose proof (runs_parameters r fuel fuel_covers) as Hp.
  unfold Parser.function_def. runs_go.
Qed.

Lemma runs_class_members k : ∀ r0 fields methods,
  r0 ≤ k → r0 ≤ r →
  runs toks false r0 (Parser.class_members expr statement fuel k fields methods).
Proof.
  pose proof runs_function_def as Hf.
  induction k as [|k IH]; intros r0 fields methods Hk Hr.
  - replace r0 with 0 by lia. apply runs_zero.
  - destruct r0 as [|r0]; [apply runs_zero|]. simpl.
    apply runs_bind; [apply runs_current_type|]. intros t.
    case_decide; [|apply runs_pret]. case_decide.
    + apply runs_weaken, runs_bind_strict; [by apply runs_eat|]. intros _.
      apply runs_bind; [runs_head|]. intros v.
      apply runs_bind; [runs_head|]. intros _.
      apply runs_bind; [runs_head|]. intros ann. apply IH; lia.
    + case_decide; [|apply runs_error].
      apply runs_weaken, runs_bind_strict; [by apply runs_eat|]. intros _.
      apply runs_bind; [runs_head|]. intros m. apply IH; lia.
Qed.

Lemma runs_parse_class :
  runs toks true (S r) (Parser.parse_class expr statement fuel).
Proof.
  unfold Parser.parse_class.
  apply runs_bind_strict; [by apply runs_eat|]. intros _.
  apply runs_bind; [runs_head|]. intros v.
  apply runs_bind; [runs_head|]. intros _.
  apply runs_bind; [runs_head|]. intros _.
  apply runs_bind; [by apply runs_class_members|]. intros fm.
  runs_go.
Qed.

Hypothesis expr_runs_here : runs toks true (S r) expr.

Lemma runs_statement_body :
  runs toks true (S r) (Parser.statement_body expr statement fuel).
Proof.
  pose proof runs_function_def as Hf.
  pose proof runs_parse_class as Hc.
  assert (Hother : runs toks true (S r)
    (Parser.pbind expr (λ left,
       Parser.pbind Parser.current_type (λ t',
         if decide (t' = COLON_ASSIGN) then
           Parser.pbind (Parser.eat COLON_ASSIGN) (λ _,
             Parser.pbind expr (λ v, Parser.pret (RefAssign left v)))
         else if decide (t' = ASSIGN) then
           Parser.pbind (Parser.eat ASSIGN) (λ _,
             Parser.pbind expr (λ v,
               if Parser.assignable left then Parser.pret (Assign left v)
               else Parser.error_ Parser.InvalidAssignmentTarget))
         else Parser.pret left)))).
  { apply runs_bind_strict; [exact expr_runs_here|]. intros left. runs_go. }
  unfold Parser.statement_body. apply runs_bind; [apply runs_current_type|].
  intros t. destruct t; try exact Hother; try exact Hc; runs_go.
Qed.
End productions_run.

Lemma runs_expr_statement fuel : ∀ r,
  (2 * r ≤ fuel + 1 → runs toks true r (Parser.expr fuel)) ∧
  (2 * r ≤ fuel → runs toks true r (Parser.statement fuel)).
Proof using toks_end.
  induction fuel as [|k IH]; intros r.
  - split; intros Hr; replace r with 0 by lia; apply runs_zero.
  - destruct r as [|r]; [split; intros _; apply runs_zero|].
    destruct (IH r) as [He Hs]. destruct (IH (S r)) as [He1 _].
    split; intros Hr; simpl.
    + apply runs_expr_body; [apply He|apply Hs|]; lia.
    + apply runs_statement_body; [apply He|apply Hs| |apply He1]; lia.
Qed.
End parser_runs.

Lemma parse_returns fuel toks :
  ends_with_EOF toks → 2 * length toks ≤ fuel →
  Parser.parse fuel toks ≠ Parser.PTimeout.
Proof.
  intros Hend Hfuel. unfold Parser.parse.
  assert (Hinit : on_token toks (Parser.init toks)).
  { destruct Hend as (ts & t & -> & _). repeat split; simpl.
    rewrite length_app. simpl. lia. }
  assert (Hm : runs toks true (length toks)
    (Parser.pbind (Parser.statement fuel) (λ n,
       Parser.pbind Parser.current_type (λ t,
         if decide (t ≠ EOF) then Parser.error_ Parser.ExpectedEndOfInput
         else Parser.pret n)))).
  { destruct (length toks) as [|r] eqn:E; [apply runs_zero|].
    apply runs_bind_strict.
    - apply runs_expr_statement; [done|lia].
    - intros n. apply runs_bind; [by apply runs_current_type|]. intros t.
      case_decide; [apply runs_error|apply runs_pret]. }
  specialize (Hm _ Hinit). simpl in Hm.
  destruct (Parser.pbind _ _ _) as [[n|e|] p']; simpl; try done.
  intros _. apply Hm. lia.
Qed.

(** X16: on a token list that ends with EOF, as every list of the lexer
    does, the parser returns: no loop and no recursion of a production goes
    on without consuming a token, so a nesting depth of twice the number of
    tokens is never exceeded, and what is returned within that depth, a tree
    or a syntax error, is what every greater depth returns.  (The recursion
    limit of the host is not part of the model.) *)
Theorem X16_parser_returns fuel toks :
  ends_with_EOF toks → 2 * length toks ≤ fuel →
  Parser.parse fuel toks ≠ Parser.PTimeout ∧
  ∀ fuel', fuel ≤ fuel' → Parser.parse fuel' toks = Parser.parse fuel toks.
Proof.
  intros Hend Hfuel.
  pose proof (parse_returns fuel toks Hend Hfuel) as Hret.
  split; [exact Hret|]. intros fuel' Hf. by apply parse_stable.
Qed.

Lemma X16_witness :
  Parser.parse 12 tokens_assignment ≠ Parser.PTimeout ∧
  Parser.parse 40 tokens_assignment = Parser.parse 12 tokens_assignment.
Proof.
  destruct (X16_parser_returns 12 tokens_assignment) as [H1 H2].
  - exists (take 5 tokens_assignment), (Tok.mkToken EOF Tok.TokNone 9).
    split; reflexivity.
  - simpl. lia.
  - split; [exact H1|]. apply H2. lia.
Defined.

(** * The lexer *)

(** ** Texts as lists of characters *)


Lemma chars_inj s1 s2 : chars s1 = chars s2 → s1 = s2.
Proof.
  unfold chars. intros H. rewrite <- (String.string_of_list_ascii_of_string s1),
    <- (String.string_of_list_ascii_of_string s2). by rewrite H.
Qed.

Lemma chars_length s : String.length s = length (chars s).
Proof. induction s; simpl; auto. Qed.

Lemma chars_get n s : String.get n s = chars s !! n.
Proof. revert n. induction s as [|c s IH]; intros [|n]; simpl; auto. Qed.

Lemma chars_app s1 s2 : chars (s1 +:+ s2) = chars s1 ++ chars s2.
Proof. induction s1 as [|c s1 IH]; simpl; [done|]. by rewrite IH. Qed.

Lemma chars_substring n m s :
  chars (String.substring n m s) = take m (drop n (chars s)).
Proof.
  revert n m. induction s as [|c s IH]; intros [|n] [|m]; simpl; try done.
  all: try (rewrite (IH 0 m); by rewrite drop_0).
  all: try apply IH.
Qed.

Lemma get_None n s : String.get n s = None ↔ String.length s ≤ n.
Proof. rewrite chars_get, chars_length. apply lookup_ge_None. Qed.

Lemma get_Some_lt n s c : String.get n s = Some c → n < String.length s.
Proof. rewrite chars_get, chars_length. apply lookup_lt_Some. Qed.

Lemma chars_push res c : chars (Lexer.push res c) = chars res ++ [c].
Proof. unfold Lexer.push. by rewrite chars_app. Qed.

Lemma drop_lookup_cons {A} (l : list A) n x :
  l !! n = Some x → drop n l = x :: drop (S n) l.
Proof.
  revert n. induction l as [|y l IH]; intros [|n] H; simpl in *; try done.
  - by injection H as ->.
  - by apply IH.
Qed.

(** ** The state of the lexer is its position *)

Section lexer_facts.
Variable isdigit : Ascii.ascii → bool.
Variable isalpha : Ascii.ascii → bool.
Variable isalnum : Ascii.ascii → bool.
Variable int : string → option Z.
Variable T : string.

Lemma init_at : Lexer.init T = lexer_at T 0.
Proof.
  unfold Lexer.init, lexer_at. case_decide as H; [|done]. by rewrite H.
Qed.

Lemma advance_at n : Lexer.advance (lexer_at T n) = (Lexer.LOk tt, lexer_at T (n + 1)).
Proof.
  unfold Lexer.advance, lexer_at. simpl. case_decide as H; [|done].
  apply get_None in H. by rewrite H.
Qed.

Lemma peek_at n :
  Lexer.peek (lexer_at T n) = (Lexer.LOk (String.get (n + 1) T), lexer_at T n).
Proof.
  unfold Lexer.peek, lexer_at. simpl. case_decide as H; [|done].
  apply get_None in H. by rewrite H.
Qed.

(** The three loops that collect characters and the one that skips them
    have one shape: while the current character passes a test, advance. *)
Lemma scan_spec (test : Ascii.ascii → bool)
    (loop : nat → string → Lexer.L string) :
  (∀ k res l,
     loop k res l =
     match Lexer.current_char l with
     | Some ch =>
         if test ch then
           match k with
           | O => (Lexer.LTimeout, l)
           | S k' => loop k' (Lexer.push res ch) (Lexer.advance l).2
           end
         else (Lexer.LOk res, l)
     | None => (Lexer.LOk res, l)
     end) →
  ∀ k n res, String.length T - n ≤ k →
    ∃ n' s,
      loop k res (lexer_at T n) = (Lexer.LOk (res +:+ s), lexer_at T n') ∧
      n ≤ n' ∧ (n ≤ String.length T → n' ≤ String.length T) ∧
      chars s = take (n' - n) (drop n (chars T)) ∧
      String.length s = n' - n ∧
      Forall (λ c, test c = true) (chars s) ∧
      (∀ ch, String.get n' T = Some ch → test ch = false).
Proof.
  intros Hloop.
  assert (Hnil : ∀ res : string, res +:+ "" = res).
  { intros res. apply chars_inj. rewrite chars_app. simpl. by rewrite app_nil_r. }
  assert (Hstop : ∀ k n res,
    (∀ ch, String.get n T = Some ch → test ch = false) →
    loop k res (lexer_at T n) = (Lexer.LOk res, lexer_at T n) →
    ∃ n' s,
      loop k res (lexer_at T n) = (Lexer.LOk (res +:+ s), lexer_at T n') ∧
      n ≤ n' ∧ (n ≤ String.length T → n' ≤ String.length T) ∧
      chars s = take (n' - n) (drop n (chars T)) ∧
      String.length s = n' - n ∧
      Forall (λ c, test c = true) (chars s) ∧
      (∀ ch, String.get n' T = Some ch → test ch = false)).
  { intros k n res Hn Heq. exists n, "". rewrite Hnil, Nat.sub_diag.
    repeat split; try done; try constructor. }
  induction k as [|k IH]; intros n res Hk.
  - assert (Hn : String.get n T = None) by (apply get_None; lia).
    apply Hstop; [intros ch; by rewrite Hn|].
    rewrite Hloop. simpl. by rewrite Hn.
  - destruct (String.get n T) as [ch|] eqn:Hn.
    + destruct (test ch) eqn:Hch.
      * destruct (IH (n + 1) (Lexer.push res ch))
          as (n' & s & Heq & Hle & Hlen & Hs & Hl & Hall & Hend); [lia|].
        exists n', (String ch s). rewrite Hloop.
        change (Lexer.current_char (lexer_at T n)) with (String.get n T).
        rewrite Hn, Hch, advance_at. cbn [snd]. rewrite Heq.
        assert (Hdrop : drop n (chars T) = ch :: drop (S n) (chars T)).
        { apply drop_lookup_cons. by rewrite <- chars_get. }
        replace (n' - n) with (S (n' - (n + 1))) by lia.
        rewrite Hdrop. simpl. replace (S n) with (n + 1) by lia.
        rewrite <- Hs. split; [|split; [|split; [|split; [|split; [|split]]]]].
        -- f_equal. f_equal. apply chars_inj.
           rewrite !chars_app, chars_push, <- app_assoc. done.
        -- lia.
        -- intros _. apply get_Some_lt in Hn. apply Hlen. lia.
        -- done.
        -- lia.
        -- by constructor.
        -- done.
      * apply Hstop; [intros ch'; rewrite Hn; by intros [= <-]|].
        rewrite Hloop. simpl. by rewrite Hn, Hch.
    + apply Hstop; [intros ch; by rewrite Hn|].
      rewrite Hloop. simpl. by rewrite Hn.
Qed.

Lemma skip_whitespace_spec k : ∀ n,
  String.length T - n ≤ k →
  ∃ n',
    Lexer.skip_whitespace k (lexer_at T n) = (Lexer.LOk tt, lexer_at T n') ∧
    n ≤ n' ∧ (n ≤ String.length T → n' ≤ String.length T) ∧
    Forall (λ c, Lexer.is_whitespace c = true) (take (n' - n) (drop n (chars T))) ∧
    (∀ ch, String.get n' T = Some ch → Lexer.is_whitespace ch = false).
Proof.
  assert (Hstop : ∀ k n,
    (∀ ch, String.get n T = Some ch → Lexer.is_whitespace ch = false) →
    Lexer.skip_whitespace k (lexer_at T n) = (Lexer.LOk tt, lexer_at T n) →
    ∃ n',
      Lexer.skip_whitespace k (lexer_at T n) = (Lexer.LOk tt, lexer_at T n') ∧
      n ≤ n' ∧ (n ≤ String.length T → n' ≤ String.length T) ∧
      Forall (λ c, Lexer.is_whitespace c = true) (take (n' - n) (drop n (chars T))) ∧
      (∀ ch, String.get n' T = Some ch → Lexer.is_whitespace ch = false)).
  { intros k' n Hn Heq. exists n. rewrite Nat.sub_diag.
    repeat split; try done; try constructor. }
  assert (Hunfold : ∀ k n,
    Lexer.skip_whitespace k (lexer_at T n) =
    match String.get n T with
    | Some ch =>
        if Lexer.is_whitespace ch then
          match k with
          | O => (Lexer.LTimeout, lexer_at T n)
          | S k' => Lexer.skip_whitespace k' (lexer_at T (n + 1))
          end
        else (Lexer.LOk tt, lexer_at T n)
    | None => (Lexer.LOk tt, lexer_at T n)
    end).
  { intros k' n. pose proof (f_equal snd (advance_at n)) as Hadv.
    unfold Lexer.advance in Hadv. simpl in Hadv.
    destruct k'; simpl; unfold Lexer.lbind, Lexer.current; simpl;
      destruct (String.get n T) as [ch|]; try done;
      destruct (Lexer.is_whitespace ch); try done.
    simpl. by rewrite Hadv. }
  induction k as [|k IH]; intros n Hk.
  - assert (Hn : String.get n T = None) by (apply get_None; lia).
    apply Hstop; [intros ch; by rewrite Hn|]. by rewrite Hunfold, Hn.
  - destruct (String.get n T) as [ch|] eqn:Hn.
    + destruct (Lexer.is_whitespace ch) eqn:Hch.
      * destruct (IH (n + 1)) as (n' & Heq & Hle & Hlen & Hall & Hend); [lia|].
        exists n'. rewrite Hunfold, Hn, Hch, Heq.
        assert (Hdrop : drop n (chars T) = ch :: drop (S n) (chars T)).
        { apply drop_lookup_cons. by rewrite <- chars_get. }
        replace (n' - n) with (S (n' - (n + 1))) by lia.
        rewrite Hdrop. simpl. replace (S n) with (n + 1) by lia.
        split; [done|]. split; [lia|]. split.
        { intros _. apply get_Some_lt in Hn. apply Hlen. lia. }
        split; [by constructor|done].
      * apply Hstop; [intros ch'; rewrite Hn; by intros [= <-]|].
        by rewrite Hunfold, Hn, Hch.
    + apply Hstop; [intros ch; by rewrite Hn|]. by rewrite Hunfold, Hn.
Qed.

Lemma substring_slice n s :
  chars s = take (String.length s) (drop n (chars T)) →
  String.substring n (String.length s) T = s.
Proof. intros H. apply chars_inj. by rewrite chars_substring. Qed.

Lemma substring_1 n ch :
  String.get n T = Some ch → String.substring n 1 T = String ch "".
Proof.
  intros H. apply (substring_slice n (String ch "")). simpl.
  rewrite chars_get in H. by rewrite (drop_lookup_cons _ _ _ H).
Qed.

Lemma substring_2 n a b :
  String.get n T = Some a → String.get (n + 1) T = Some b →
  String.substring n 2 T = String a (String b "").
Proof.
  intros Ha Hb. apply (substring_slice n (String a (String b ""))). simpl.
  rewrite chars_get in Ha, Hb. rewrite (drop_lookup_cons _ _ _ Ha).
  replace (S n) with (n + 1) by lia. by rewrite (drop_lookup_cons _ _ _ Hb).
Qed.

(** A token whose value is a string and whose type is not STRING. *)
Lemma lexeme_ok_spelled t s p n' :
  t ≠ STRING →
  String.substring p (String.length s) T = s →
  n' = p + String.length s →
  (s, t) ∈ punctuation ∨
    (word isalpha isalnum s ∧ t = default IDENTIFIER (Tok.KEYWORDS_get s)) →
  lexeme_ok isdigit isalpha isalnum int T (Tok.mkToken t (Tok.TokStr s) p) n'.
Proof. intros Ht Hs Hn Hw. unfold lexeme_ok. by destruct t. Qed.

Lemma keyword_not_STRING s :
  default IDENTIFIER (Tok.KEYWORDS_get s) ≠ STRING ∧
  default IDENTIFIER (Tok.KEYWORDS_get s) ≠ EOF.
Proof.
  unfold Tok.KEYWORDS_get. destruct (find _ _) as [[k t]|] eqn:E; simpl; [|done].
  apply find_some in E as [Hin _]. simpl in Hin.
  repeat (destruct Hin as [[= <- <-]|Hin]; [done|]). done.
Qed.

Lemma keyword_not_HASH s : default IDENTIFIER (Tok.KEYWORDS_get s) ≠ HASH.
Proof.
  unfold Tok.KEYWORDS_get. destruct (find _ _) as [[k t]|] eqn:E; simpl; [|done].
  apply find_some in E as [Hin _]. simpl in Hin.
  repeat (destruct Hin as [[= <- <-]|Hin]; [done|]). done.
Qed.

Lemma lexeme_ok_not_HASH tok n :
  lexeme_ok isdigit isalpha isalnum int T tok n → Tok.type tok ≠ HASH.
Proof.
  intros Hok Hty. unfold lexeme_ok in Hok. rewrite Hty in Hok.
  destruct (Tok.value tok) as [z|s|]; [done| |done].
  destruct Hok as (_ & _ & [Hin|[_ Heq]]).
  - apply list_elem_of_In in Hin. simpl in Hin.
    repeat (destruct Hin as [[=]|Hin]). done.
  - by destruct (keyword_not_HASH s).
Qed.

Lemma lbind_position_at {A} (k : nat → Lexer.L A) n :
  Lexer.lbind Lexer.position_ k (lexer_at T n) = k n (lexer_at T n).
Proof. reflexivity. Qed.

Lemma lbind_current_at {A} (k : option Ascii.ascii → Lexer.L A) n :
  Lexer.lbind Lexer.current k (lexer_at T n) = k (String.get n T) (lexer_at T n).
Proof. reflexivity. Qed.

Lemma lbind_advance_at {A} (k : unit → Lexer.L A) n :
  Lexer.lbind Lexer.advance k (lexer_at T n) = k tt (lexer_at T (n + 1)).
Proof. unfold Lexer.lbind. by rewrite advance_at. Qed.

Lemma lbind_peek_at {A} (k : option Ascii.ascii → Lexer.L A) n :
  Lexer.lbind Lexer.peek k (lexer_at T n) = k (String.get (n + 1) T) (lexer_at T n).
Proof. unfold Lexer.lbind. by rewrite peek_at. Qed.

Lemma token_at_here t v n n' :
  lexeme_ok isdigit isalpha isalnum int T (Tok.mkToken t v n) n' →
  n < n' ≤ String.length T →
  token_at isdigit isalpha isalnum int T n (Tok.mkToken t v n) n'.
Proof.
  intros Hok Hn. split; [done|]. simpl. split; [done|].
  rewrite Nat.sub_diag. split; [constructor|]. split; [lia|]. intros _. lia.
Qed.

Lemma single_spec t s ch n :
  String.get n T = Some ch → s = String ch "" → (s, t) ∈ punctuation →
  t ≠ STRING → t ≠ EOF →
  lexes isdigit isalpha isalnum int T (Lexer.single t s) n.
Proof.
  intros Hn -> Hin Ht Ht'. unfold lexes, Lexer.single.
  rewrite lbind_position_at, lbind_advance_at. simpl.
  exists (n + 1). split; [done|]. apply token_at_here.
  - apply lexeme_ok_spelled; [done| |done|by left]. simpl. by apply substring_1.
  - apply get_Some_lt in Hn. lia.
Qed.

Lemma number_spec fuel ch n :
  String.get n T = Some ch → isdigit ch = true →
  String.length T - n ≤ fuel →
  lexes isdigit isalpha isalnum int T (Lexer.number isdigit int fuel) n.
Proof.
  intros Hn Hch Hfuel. unfold lexes, Lexer.number.
  rewrite lbind_position_at.
  destruct (scan_spec isdigit (Lexer.number_loop isdigit)) with (k := fuel) (n := n) (res := "")
    as (n' & s & Heq & Hle & Hlen & Hs & Hl & Hall & Hend); [|done|].
  { intros k res l. destruct k; simpl; unfold Lexer.lbind, Lexer.current; simpl;
      destruct (Lexer.current_char l) as [c|]; try done; by destruct (isdigit c). }
  change ("" +:+ s) with s in Heq.
  unfold Lexer.lbind at 1. rewrite Heq. simpl.
  destruct (int s) as [z|] eqn:Hz; simpl; [|done].
  assert (n < n').
  { destruct (decide (n' = n)) as [->|]; [|lia]. specialize (Hend _ Hn). congruence. }
  exists n'. split; [done|]. apply token_at_here.
  - exists s. simpl. split; [|split; [|split; [lia|done]]].
    + intros ->. simpl in Hl. lia.
    + apply substring_slice. by rewrite Hl.
  - split; [done|]. apply Hlen. apply get_Some_lt in Hn. lia.
Qed.

Hypothesis alpha_alnum : ∀ c, isalpha c = true → isalnum c = true.

Lemma identifier_spec fuel ch n :
  String.get n T = Some ch →
  (isalpha ch || bool_decide (ch = Lexer.underscore)) = true →
  String.length T - n ≤ fuel →
  lexes isdigit isalpha isalnum int T (Lexer.identifier isalnum fuel) n.
Proof.
  intros Hn Hch Hfuel. unfold lexes, Lexer.identifier.
  rewrite lbind_position_at.
  set (test := λ c, isalnum c || bool_decide (c = Lexer.underscore)).
  destruct (scan_spec test (Lexer.identifier_loop isalnum)) with (k := fuel) (n := n) (res := "")
    as (n' & s & Heq & Hle & Hlen & Hs & Hl & Hall & Hend); [|done|].
  { intros k res l. destruct k; simpl; unfold Lexer.lbind, Lexer.current; simpl;
      destruct (Lexer.current_char l) as [c|]; try done; unfold test;
      by destruct (isalnum c || bool_decide (c = Lexer.underscore)). }
  change ("" +:+ s) with s in Heq.
  unfold Lexer.lbind at 1. rewrite Heq. simpl.
  assert (Htest : test ch = true).
  { unfold test. apply orb_true_iff in Hch as [H|H]; [|by rewrite H, orb_true_r].
    by rewrite (alpha_alnum _ H). }
  assert (n < n').
  { destruct (decide (n' = n)) as [->|]; [|lia]. specialize (Hend _ Hn). congruence. }
  exists n'. split; [done|].
  destruct (keyword_not_STRING s) as [H1 H2].
  apply token_at_here.
  - apply lexeme_ok_spelled; [done| |lia|right].
    + apply substring_slice. by rewrite Hl.
    + split; [|done]. unfold word.
      assert (Hdrop : drop n (chars T) = ch :: drop (S n) (chars T)).
      { apply drop_lookup_cons. by rewrite <- chars_get. }
      rewrite Hs in Hall |- *. rewrite Hdrop in Hall |- *.
      replace (n' - n) with (S (n' - n - 1)) in Hall |- * by lia. simpl in *.
      split; [done|]. by inversion Hall.
  - split; [done|]. apply Hlen. apply get_Some_lt in Hn. lia.
Qed.

Lemma string_literal_spec fuel n :
  String.get n T = Some Lexer.quote →
  String.length T - n ≤ fuel →
  lexes isdigit isalpha isalnum int T (Lexer.string_literal fuel) n.
Proof.
  intros Hn Hfuel. unfold lexes, Lexer.string_literal.
  rewrite lbind_position_at, lbind_advance_at.
  set (test := λ c : Ascii.ascii, bool_decide (c ≠ Lexer.quote)).
  destruct (scan_spec test Lexer.string_literal_loop) with (k := fuel) (n := n + 1) (res := "")
    as (n' & s & Heq & Hle & Hlen & Hs & Hl & Hall & Hend); [|lia|].
  { intros k res l. destruct k; simpl; unfold Lexer.lbind, Lexer.current; simpl;
      destruct (Lexer.current_char l) as [c|]; try done; unfold test;
      (destruct (decide (c ≠ Lexer.quote)) as [H|H];
       [rewrite (bool_decide_eq_true_2 _ H)|rewrite (bool_decide_eq_false_2 _ H)];
       done). }
  change ("" +:+ s) with s in Heq.
  unfold Lexer.lbind at 1. rewrite Heq. simpl. rewrite lbind_current_at.
  case_decide as Hq; [done|].
  rewrite lbind_advance_at. simpl.
  exists (n' + 1). split; [done|]. apply token_at_here.
  - unfold lexeme_ok. simpl. split; [|split; [lia|]].
    + rewrite chars_substring.
      assert (Hdrop : drop n (chars T) = Lexer.quote :: drop (S n) (chars T)).
      { apply drop_lookup_cons. by rewrite <- chars_get. }
      rewrite Hdrop. replace (String.length s + 2) with (S (S (String.length s))) by lia.
      cbn [take]. f_equal. replace (S n) with (n + 1) by lia.
      rewrite (take_S_r _ _ Lexer.quote).
      * by rewrite Hs, Hl.
      * rewrite lookup_drop, <- chars_get. by replace (n + 1 + String.length s) with n' by lia.
    + intros Hin. rewrite Forall_forall in Hall. specialize (Hall _ Hin).
      unfold test in Hall. by apply bool_decide_eq_true in Hall.
  - apply get_Some_lt in Hq. lia.
Qed.

Lemma lexes_ext (m m' : Lexer.L Tok.Token) n :
  m (lexer_at T n) = m' (lexer_at T n) →
  lexes isdigit isalpha isalnum int T m' n →
  lexes isdigit isalpha isalnum int T m n.
Proof. unfold lexes. by intros ->. Qed.

Lemma token_at_skip n n1 tok n' :
  n ≤ n1 →
  Forall (λ c, Lexer.is_whitespace c = true) (take (n1 - n) (drop n (chars T))) →
  token_at isdigit isalpha isalnum int T n1 tok n' →
  token_at isdigit isalpha isalnum int T n tok n'.
Proof.
  intros Hle Hws (Hok & Hpos & Hgap & Hend). split; [done|].
  split; [lia|]. split; [|done].
  replace (Tok.position tok - n) with ((n1 - n) + (Tok.position tok - n1)) by lia.
  rewrite <- take_take_drop. apply Forall_app. split; [done|].
  rewrite drop_drop. by replace (n + (n1 - n)) with n1 by lia.
Qed.

Lemma lexes_skip (m : Lexer.L Tok.Token) n n1 :
  n ≤ n1 →
  Forall (λ c, Lexer.is_whitespace c = true) (take (n1 - n) (drop n (chars T))) →
  lexes isdigit isalpha isalnum int T m n1 →
  match m (lexer_at T n1) with
  | (Lexer.LOk tok, l') =>
      ∃ n', l' = lexer_at T n' ∧ token_at isdigit isalpha isalnum int T n tok n'
  | (Lexer.LErr _, _) => True
  | (Lexer.LTimeout, _) => False
  end.
Proof.
  intros Hle Hws. unfold lexes.
  destruct (m (lexer_at T n1)) as [[tok|e|] l']; try done.
  intros (n' & -> & Htok). exists n'. split; [done|]. by eapply token_at_skip.
Qed.

Ltac in_punctuation :=
  unfold punctuation; repeat first [apply list_elem_of_here | apply list_elem_of_further].

(** One round of [get_next_token] on a character that is not whitespace,
    or at the end of the text. *)
Lemma get_next_token_here fuel k n :
  n ≤ String.length T → String.length T - n ≤ fuel →
  (∀ ch, String.get n T = Some ch → Lexer.is_whitespace ch = false) →
  lexes isdigit isalpha isalnum int T
    (Lexer.get_next_token_loop isdigit isalpha isalnum int fuel (S k)) n.
Proof.
  intros Hlen Hfuel Hws.
  cbn [Lexer.get_next_token_loop]. eapply lexes_ext; [apply lbind_current_at|].
  destruct (String.get n T) as [ch|] eqn:Hn.
  - rewrite (Hws ch eq_refl).
    repeat match goal with
           | |- lexes _ _ _ _ _ (if decide (?c = ?x) then _ else _) _ =>
               destruct (decide (c = x)) as [->|?]
           | |- lexes _ _ _ _ _ (if ?b then _ else _) _ => destruct b eqn:?
           end;
      try (by eapply string_literal_spec);
      try (by eapply number_spec);
      try (by eapply identifier_spec);
      try (eapply single_spec; [exact Hn|reflexivity|in_punctuation|done|done]).
    + (* ':' *)
      eapply lexes_ext; [apply lbind_peek_at|].
      destruct (decide (String.get (n + 1) T = _)) as [Hnext|Hnext].
      * unfold lexes. rewrite lbind_position_at. cbv beta.
        rewrite lbind_advance_at, lbind_advance_at.
        unfold Lexer.lret. exists (n + 1 + 1). split; [done|].
        apply token_at_here.
        -- apply lexeme_ok_spelled; [done| |simpl; lia|left; in_punctuation].
           simpl. by apply substring_2.
        -- apply get_Some_lt in Hnext. lia.
      * eapply single_spec; [exact Hn|reflexivity|in_punctuation|done|done].
    + (* '=' *)
      unfold lexes. rewrite lbind_position_at. cbv beta.
      rewrite lbind_advance_at, lbind_current_at.
      destruct (decide (String.get (n + 1) T = _)) as [Hnext|Hnext].
      * rewrite lbind_advance_at.
        unfold Lexer.lret. exists (n + 1 + 1). split; [done|].
        apply token_at_here.
        -- apply lexeme_ok_spelled; [done| |simpl; lia|left; in_punctuation].
           simpl. by apply substring_2.
        -- apply get_Some_lt in Hnext. lia.
      * unfold Lexer.lret. exists (n + 1). split; [done|].
        apply token_at_here.
        -- apply lexeme_ok_spelled; [done| |simpl; lia|left; in_punctuation].
           simpl. by apply substring_1.
        -- apply get_Some_lt in Hn. lia.
    + (* no token starts here *)
      by unfold lexes, Lexer.error_.
  - eapply lexes_ext; [apply lbind_position_at|].
    unfold lexes, Lexer.lret. exists n. split; [done|].
    apply get_None in Hn. assert (n = String.length T) as Heq by lia.
    split; [by split|]. simpl. split; [done|]. rewrite Nat.sub_diag.
    split; [constructor|]. split; [lia|done].
Qed.

Lemma get_next_token_spec fuel n :
  n ≤ String.length T → String.length T < fuel →
  lexes isdigit isalpha isalnum int T
    (Lexer.get_next_token isdigit isalpha isalnum int fuel) n.
Proof.
  intros Hlen Hfuel. unfold Lexer.get_next_token.
  destruct fuel as [|k]; [lia|].
  destruct (String.get n T) as [ch|] eqn:Hn.
  - destruct (Lexer.is_whitespace ch) eqn:Hch.
    + destruct k as [|k]; [apply get_Some_lt in Hn; lia|].
      destruct (skip_whitespace_spec (S (S k)) n)
        as (n1 & Hskip & Hle & Hn1 & Hgap & Hend); [lia|].
      unfold lexes. cbn [Lexer.get_next_token_loop].
      rewrite lbind_current_at, Hn, Hch.
      unfold Lexer.lbind at 1. rewrite Hskip.
      apply (lexes_skip _ n n1); [done..|].
      apply get_next_token_here; [auto|lia|done].
    + apply get_next_token_here; [done|lia|].
      intros ch'. rewrite Hn. by intros [= <-].
  - apply get_next_token_here; [done|lia|]. intros ch. by rewrite Hn.
Qed.

Lemma lexeme_ok_EOF tok n :
  lexeme_ok isdigit isalpha isalnum int T tok n → Tok.type tok = EOF →
  Tok.position tok = String.length T ∧ n = String.length T.
Proof.
  intros Hok Hty. unfold lexeme_ok in Hok. rewrite Hty in Hok.
  destruct (Tok.value tok) as [z|s|]; [done| |].
  - destruct Hok as (_ & _ & [Hin|[_ Heq]]).
    + apply list_elem_of_In in Hin. simpl in Hin.
      repeat (destruct Hin as [[=]|Hin]). done.
    + by destruct (keyword_not_STRING s).
  - destruct Hok as [H1 H2]. split; [done|]. by rewrite H2.
Qed.

Lemma token_at_EOF n0 tok n :
  token_at isdigit isalpha isalnum int T n0 tok n → Tok.type tok = EOF →
  n = String.length T.
Proof. intros (Hok & _) Hty. by destruct (lexeme_ok_EOF _ _ Hok Hty). Qed.

Lemma tokenize_loop_spec fuel :
  String.length T < fuel →
  ∀ k n0 n toks tok,
    token_at isdigit isalpha isalnum int T n0 tok n →
    (Tok.type tok ≠ EOF → String.length T - n < k) →
    match Lexer.tokenize_loop isdigit isalpha isalnum int fuel k toks tok
            (lexer_at T n) with
    | (Lexer.LOk out, _) =>
        ∃ rest, out = toks ++ rest ∧
                tokens_from isdigit isalpha isalnum int T n0 rest
    | (Lexer.LErr _, _) => True
    | (Lexer.LTimeout, _) => False
    end.
Proof.
  intros Hfuel. induction k as [|k IH]; intros n0 n toks tok Htok Hk.
  - simpl. case_decide as Hty; [specialize (Hk Hty); lia|].
    exists [tok]. split; [done|]. apply tokens_eof; [|done].
    by rewrite <- (token_at_EOF _ _ _ Htok Hty).
  - simpl. case_decide as Hty.
    + assert (Hn : n ≤ String.length T) by apply Htok.
      pose proof (get_next_token_spec fuel n Hn Hfuel) as Hnext.
      unfold lexes in Hnext. unfold Lexer.lbind.
      destruct (Lexer.get_next_token _ _ _ _ _ _) as [[tok'|e|] l']; try done.
      destruct Hnext as (n' & -> & Htok').
      assert (Hk' : Tok.type tok' ≠ EOF → String.length T - n' < k).
      { intros Hty'. destruct Htok' as (_ & Hp & _ & Hle & Hlt).
        specialize (Hlt Hty'). specialize (Hk Hty). lia. }
      specialize (IH n n' (toks ++ [tok]) tok' Htok' Hk').
      destruct (Lexer.tokenize_loop _ _ _ _ _ _ _ _ _) as [[out|e|] l'']; try done.
      destruct IH as (rest & -> & Hrest).
      exists (tok :: rest). split; [by rewrite <- app_assoc|].
      by eapply tokens_cons.
    + exists [tok]. split; [done|]. apply tokens_eof; [|done].
      by rewrite <- (token_at_EOF _ _ _ Htok Hty).
Qed.

Lemma lex_spec fuel :
  String.length T < fuel →
  match Lexer.lex isdigit isalpha isalnum int fuel T with
  | Lexer.LOk toks => tokens_from isdigit isalpha isalnum int T 0 toks
  | Lexer.LErr _ => True
  | Lexer.LTimeout => False
  end.
Proof.
  intros Hfuel. unfold Lexer.lex, Lexer.tokenize. rewrite init_at.
  pose proof (get_next_token_spec fuel 0 ltac:(lia) Hfuel) as Hnext.
  unfold lexes in Hnext. unfold Lexer.lbind.
  destruct (Lexer.get_next_token _ _ _ _ _ _) as [[tok|e|] l']; try done.
  destruct Hnext as (n' & -> & Htok).
  pose proof (tokenize_loop_spec fuel Hfuel fuel 0 n' [] tok Htok) as Hloop.
  destruct (Lexer.tokenize_loop _ _ _ _ _ _ _ _ _) as [[out|e|] l'']; simpl; try done.
  - destruct Hloop as (rest & -> & Hrest); [lia|]. done.
  - apply Hloop. lia.
Qed.
End lexer_facts.

(** ** What a token list of the lexer looks like *)

Section token_lists.
Variable isdigit : Ascii.ascii → bool.
Variable isalpha : Ascii.ascii → bool.
Variable isalnum : Ascii.ascii → bool.
Variable int : string → option Z.
Variable T : string.

Lemma tokens_from_end n toks :
  tokens_from isdigit isalpha isalnum int T n toks →
  ∃ ts e, toks = ts ++ [e] ∧ Forall (λ t, Tok.type t ≠ EOF) ts ∧
          Tok.type e = EOF ∧ Tok.position e = String.length T.
Proof.
  induction 1 as [n tok Htok Hty|n tok n' rest Htok Hty Hrest IH].
  - exists [], tok. repeat split; try done.
    destruct Htok as (Hok & _). by destruct (lexeme_ok_EOF _ _ _ _ _ _ _ Hok Hty).
  - destruct IH as (ts & e & -> & Hts & He & Hp).
    exists (tok :: ts), e. repeat split; try done. by constructor.
Qed.

Lemma tokens_from_no_HASH n toks :
  tokens_from isdigit isalpha isalnum int T n toks →
  Forall (λ t, Tok.type t ≠ HASH) toks.
Proof.
  induction 1 as [n tok Htok Hty|n tok n' rest Htok Hty Hrest IH].
  - constructor; [|constructor]. destruct Htok as (Hok & _).
    by eapply lexeme_ok_not_HASH.
  - constructor; [|done]. destruct Htok as (Hok & _).
    by eapply lexeme_ok_not_HASH.
Qed.

Lemma tokens_from_start n toks :
  tokens_from isdigit isalpha isalnum int T n toks →
  Forall (λ t, n ≤ Tok.position t) toks.
Proof.
  induction 1 as [n tok Htok Hty|n tok n' rest Htok Hty Hrest IH].
  - constructor; [apply Htok|constructor].
  - destruct Htok as (_ & Hp & _ & _ & Hlt). specialize (Hlt Hty).
    constructor; [done|]. eapply Forall_impl; [exact IH|]. simpl. intros. lia.
Qed.

Lemma tokens_from_increasing n toks :
  tokens_from isdigit isalpha isalnum int T n toks →
  ∀ i j a b, toks !! i = Some a → toks !! j = Some b → i < j →
             Tok.position a < Tok.position b.
Proof.
  induction 1 as [n tok Htok Hty|n tok n' rest Htok Hty Hrest IH];
    intros i j a b Ha Hb Hij.
  - destruct j as [|j]; [lia|]. simpl in Hb. by rewrite lookup_nil in Hb.
  - destruct j as [|j]; [lia|]. simpl in Hb. destruct i as [|i]; simpl in Ha.
    + injection Ha as <-. destruct Htok as (_ & _ & _ & _ & Hlt).
      specialize (Hlt Hty).
      pose proof (tokens_from_start _ _ Hrest) as Hst.
      rewrite Forall_lookup in Hst. specialize (Hst _ _ Hb). simpl in Hst. lia.
    + apply (IH i j); [done..|lia].
Qed.

Lemma tokens_from_length n toks :
  tokens_from isdigit isalpha isalnum int T n toks →
  length toks + n ≤ String.length T + 1.
Proof.
  induction 1 as [n tok Htok Hty|n tok n' rest Htok Hty Hrest IH]; simpl.
  - destruct Htok as (Hok & Hp & _).
    destruct (lexeme_ok_EOF _ _ _ _ _ _ _ Hok Hty) as [Hpos _]. lia.
  - destruct Htok as (_ & Hp & _ & _ & Hlt). specialize (Hlt Hty). lia.
Qed.
End token_lists.

(** ** More fuel does not change what the lexer returns *)

Lemma below_lex_refl {A} (m : Lexer.L A) : below_lex m m.
Proof. by intros l _. Qed.

Lemma below_lex_timeout {A} (m : Lexer.L A) : below_lex Lexer.ltimeout m.
Proof. by intros l H. Qed.

Lemma below_lex_bind {A B} (m1 m2 : Lexer.L A) (k1 k2 : A → Lexer.L B) :
  below_lex m1 m2 → (∀ a, below_lex (k1 a) (k2 a)) →
  below_lex (Lexer.lbind m1 k1) (Lexer.lbind m2 k2).
Proof.
  intros Hm Hk l. unfold Lexer.lbind. specialize (Hm l).
  destruct (m1 l) as [[a|e|] l1]; simpl; intros H.
  - rewrite Hm by done. by apply Hk.
  - by rewrite Hm.
  - done.
Qed.

Ltac below_lex_go :=
  repeat first
    [ assumption
    | apply below_lex_refl
    | apply below_lex_timeout
    | apply below_lex_bind; [|intros ?]
    | case_decide
    | match goal with
      | |- below_lex (match ?x with _ => _ end) _ => destruct x
      end ].

Lemma below_skip_whitespace k1 : ∀ k2,
  k1 ≤ k2 → below_lex (Lexer.skip_whitespace k1) (Lexer.skip_whitespace k2).
Proof.
  induction k1 as [|k1 IH]; intros [|k2] Hk; simpl; try lia; below_lex_go;
    apply IH; lia.
Qed.

Lemma below_string_literal_loop k1 : ∀ k2 res,
  k1 ≤ k2 →
  below_lex (Lexer.string_literal_loop k1 res) (Lexer.string_literal_loop k2 res).
Proof.
  induction k1 as [|k1 IH]; intros [|k2] res Hk; simpl; try lia; below_lex_go;
    apply IH; lia.
Qed.

Lemma below_string_literal fuel1 fuel2 :
  fuel1 ≤ fuel2 →
  below_lex (Lexer.string_literal fuel1) (Lexer.string_literal fuel2).
Proof.
  intros Hf. unfold Lexer.string_literal. below_lex_go.
  by apply below_string_literal_loop.
Qed.

Section classifiers_below.
Variable isdigit : Ascii.ascii → bool.
Variable isalpha : Ascii.ascii → bool.
Variable isalnum : Ascii.ascii → bool.
Variable int : string → option Z.

Lemma below_number_loop k1 : ∀ k2 res,
  k1 ≤ k2 →
  below_lex (Lexer.number_loop isdigit k1 res) (Lexer.number_loop isdigit k2 res).
Proof.
  induction k1 as [|k1 IH]; intros [|k2] res Hk; simpl; try lia; below_lex_go;
    apply IH; lia.
Qed.

Lemma below_number fuel1 fuel2 :
  fuel1 ≤ fuel2 →
  below_lex (Lexer.number isdigit int fuel1) (Lexer.number isdigit int fuel2).
Proof.
  intros Hf. unfold Lexer.number. below_lex_go. by apply below_number_loop.
Qed.

Lemma below_identifier_loop k1 : ∀ k2 res,
  k1 ≤ k2 →
  below_lex (Lexer.identifier_loop isalnum k1 res)
            (Lexer.identifier_loop isalnum k2 res).
Proof.
  induction k1 as [|k1 IH]; intros [|k2] res Hk; simpl; try lia; below_lex_go;
    apply IH; lia.
Qed.

Lemma below_identifier fuel1 fuel2 :
  fuel1 ≤ fuel2 →
  below_lex (Lexer.identifier isalnum fuel1) (Lexer.identifier isalnum fuel2).
Proof.
  intros Hf. unfold Lexer.identifier. below_lex_go.
  by apply below_identifier_loop.
Qed.

Lemma below_get_next_token_loop fuel1 fuel2 k1 : ∀ k2,
  fuel1 ≤ fuel2 → k1 ≤ k2 →
  below_lex (Lexer.get_next_token_loop isdigit isalpha isalnum int fuel1 k1)
            (Lexer.get_next_token_loop isdigit isalpha isalnum int fuel2 k2).
Proof.
  intros k2 Hf. revert k2.
  pose proof (below_string_literal _ _ Hf).
  pose proof (below_number _ _ Hf).
  pose proof (below_identifier _ _ Hf).
  pose proof (below_skip_whitespace _ _ Hf).
  induction k1 as [|k1 IH]; intros [|k2] Hk; cbn [Lexer.get_next_token_loop];
    try lia; below_lex_go;
    apply IH; lia.
Qed.

Lemma below_get_next_token fuel1 fuel2 :
  fuel1 ≤ fuel2 →
  below_lex (Lexer.get_next_token isdigit isalpha isalnum int fuel1)
            (Lexer.get_next_token isdigit isalpha isalnum int fuel2).
Proof. intros Hf. by apply below_get_next_token_loop. Qed.

Lemma below_tokenize_loop fuel1 fuel2 k1 : ∀ k2 toks tok,
  fuel1 ≤ fuel2 → k1 ≤ k2 →
  below_lex (Lexer.tokenize_loop isdigit isalpha isalnum int fuel1 k1 toks tok)
            (Lexer.tokenize_loop isdigit isalpha isalnum int fuel2 k2 toks tok).
Proof.
  intros k2 toks tok Hf. revert k2 toks tok.
  pose proof (below_get_next_token _ _ Hf).
  induction k1 as [|k1 IH]; intros [|k2] toks tok Hk; simpl; try lia;
    below_lex_go;
    apply IH; lia.
Qed.

Lemma lex_stable fuel fuel' T :
  fuel ≤ fuel' →
  Lexer.lex isdigit isalpha isalnum int fuel T ≠ Lexer.LTimeout →
  Lexer.lex isdigit isalpha isalnum int fuel' T
  = Lexer.lex isdigit isalpha isalnum int fuel T.
Proof.
  intros Hf. unfold Lexer.lex. intros H. f_equal.
  apply (below_lex_bind _ _ _ _ (below_get_next_token _ _ Hf)); [|done].
  intros tok. by apply below_tokenize_loop.
Qed.

Lemma lex_tokens_from fuel T toks :
  (∀ c, isalpha c = true → isalnum c = true) →
  Lexer.lex isdigit isalpha isalnum int fuel T = Lexer.LOk toks →
  tokens_from isdigit isalpha isalnum int T 0 toks.
Proof.
  intros Halpha Hlex.
  pose proof (lex_spec isdigit isalpha isalnum int T Halpha
                (fuel `max` (String.length T + 1))) as Hspec.
  rewrite (lex_stable fuel), Hlex in Hspec; [|lia|by rewrite Hlex].
  apply Hspec. lia.
Qed.
End classifiers_below.

(** ** The lexer returns, and its tokens tile the text *)

Lemma ascii_alpha_alnum c :
  Ascii_text.isalpha c = true → Ascii_text.isalnum c = true.
Proof. unfold Ascii_text.isalnum. by intros ->. Qed.

(** X17: the lexer returns on every text, with a token list or an error:
    with fuel above the length of the text no loop of [skip_whitespace],
    [number], [string_literal], [identifier], [get_next_token] or [tokenize]
    runs out, since each round consumes a character, and more fuel gives the
    same answer.  The classifiers of the host are parameters; the one thing
    asked of them is that a letter is alphanumeric, so that [identifier]
    consumes the letter on which [get_next_token] calls it. *)
Theorem X17_lexer_returns isdigit isalpha isalnum int fuel T :
  (∀ c, isalpha c = true → isalnum c = true) →
  String.length T < fuel →
  Lexer.lex isdigit isalpha isalnum int fuel T ≠ Lexer.LTimeout ∧
  ∀ fuel', fuel ≤ fuel' →
    Lexer.lex isdigit isalpha isalnum int fuel' T
    = Lexer.lex isdigit isalpha isalnum int fuel T.
Proof.
  intros Halpha Hfuel.
  assert (H : Lexer.lex isdigit isalpha isalnum int fuel T ≠ Lexer.LTimeout).
  { pose proof (lex_spec isdigit isalpha isalnum int T Halpha fuel Hfuel) as Hs.
    by destruct (Lexer.lex _ _ _ _ _ _). }
  split; [done|]. intros fuel' Hf. by apply lex_stable.
Qed.

Lemma X17_witness :
  Ascii_text.lex 10 "x = 1 + 2" ≠ Lexer.LTimeout ∧
  Ascii_text.lex 50 "x = 1 + 2" = Ascii_text.lex 10 "x = 1 + 2".
Proof.
  destruct (X17_lexer_returns Ascii_text.isdigit Ascii_text.isalpha
              Ascii_text.isalnum Ascii_text.int 10 "x = 1 + 2") as [H1 H2].
  - apply ascii_alpha_alnum.
  - simpl. lia.
  - split; [exact H1|]. apply H2. lia.
Defined.

(** X18: the tokens of a text tile it.  Read from the start, each token
    begins, after whitespace only, where the token before it ended; its
    value is read from the text at its position: the digits of a number
    (and the integer [int] makes of them), the characters between the
    quotes of a string, the spelling of a word or of a punctuation mark;
    its type is NUMBER, STRING, the one of the punctuation mark, the one
    [KEYWORDS] gives the word, or IDENTIFIER for a word that is no keyword.
    The list ends with the EOF token, whose position is the length of the
    text, and has no other EOF token; positions increase strictly; no token
    has the type HASH; and there are at most as many tokens as characters,
    and one. *)
Theorem X18_tokens_tile_the_text isdigit isalpha isalnum int fuel T toks :
  (∀ c, isalpha c = true → isalnum c = true) →
  Lexer.lex isdigit isalpha isalnum int fuel T = Lexer.LOk toks →
  tokens_from isdigit isalpha isalnum int T 0 toks ∧
  (∃ ts e, toks = ts ++ [e] ∧ Forall (λ t, Tok.type t ≠ EOF) ts ∧
           Tok.type e = EOF ∧ Tok.position e = String.length T) ∧
  (∀ i j a b, toks !! i = Some a → toks !! j = Some b → i < j →
              Tok.position a < Tok.position b) ∧
  Forall (λ t, Tok.type t ≠ HASH) toks ∧
  length toks ≤ String.length T + 1.
Proof.
  intros Halpha Hlex.
  pose proof (lex_tokens_from _ _ _ _ _ _ _ Halpha Hlex) as H.
  split; [done|]. split; [by eapply tokens_from_end|].
  split; [by eapply tokens_from_increasing|].
  split; [by eapply tokens_from_no_HASH|].
  pose proof (tokens_from_length _ _ _ _ _ _ _ H). lia.
Qed.

Lemma X18_witness :
  tokens_from Ascii_text.isdigit Ascii_text.isalpha Ascii_text.isalnum
    Ascii_text.int "x = 1 + 2" 0 tokens_assignment ∧
  length tokens_assignment ≤ String.length "x = 1 + 2" + 1.
Proof.
  destruct (X18_tokens_tile_the_text Ascii_text.isdigit Ascii_text.isalpha
              Ascii_text.isalnum Ascii_text.int 10 "x = 1 + 2" tokens_assignment)
    as (H1 & _ & _ & _ & H4).
  - apply ascii_alpha_alnum.
  - reflexivity.
  - split; [exact H1|exact H4].
Defined.

(** X19: lexing and then parsing returns.  The token list of a text ends
    with EOF, so the parser returns on it, within a nesting depth of twice
    the length of the text and two, and with the same answer at every
    greater depth. *)
Theorem X19_lexed_text_parses_or_fails isdigit isalpha isalnum int fuel T toks pf :
  (∀ c, isalpha c = true → isalnum c = true) →
  Lexer.lex isdigit isalpha isalnum int fuel T = Lexer.LOk toks →
  2 * (String.length T + 1) ≤ pf →
  ends_with_EOF toks ∧
  Parser.parse pf toks ≠ Parser.PTimeout ∧
  ∀ pf', pf ≤ pf' → Parser.parse pf' toks = Parser.parse pf toks.
Proof.
  intros Halpha Hlex Hpf.
  pose proof (lex_tokens_from _ _ _ _ _ _ _ Halpha Hlex) as H.
  assert (Hend : ends_with_EOF toks).
  { destruct (tokens_from_end _ _ _ _ _ _ _ H) as (ts & e & -> & _ & He & _).
    by exists ts, e. }
  pose proof (tokens_from_length _ _ _ _ _ _ _ H) as Hlen.
  assert (Hret : Parser.parse pf toks ≠ Parser.PTimeout)
    by (apply parse_returns; [done|lia]).
  split; [done|]. split; [done|]. intros pf' Hpf'. by apply parse_stable.
Qed.

Lemma X19_witness :
  Parser.parse 20 tokens_assignment ≠ Parser.PTimeout.
Proof.
  destruct (X19_lexed_text_parses_or_fails Ascii_text.isdigit Ascii_text.isalpha
              Ascii_text.isalnum Ascii_text.int 10 "x = 1 + 2" tokens_assignment 20)
    as (_ & H & _).
  - apply ascii_alpha_alnum.
  - reflexivity.
  - simpl. lia.
  - exact H.
Defined.

(** * The parser and the evaluator together *)

(** ** Parsed programs never reach the defensive errors *)

Lemma shaped_state_init : shaped_state init_state.
Proof.
  split; [|constructor]. repeat constructor; apply map_Forall_empty.
Qed.

Lemma safe_ret {A} (Q : A → Prop) a : Q a → safe Q (ret a).
Proof. intros H s Hs. done. Qed.

Lemma safe_raise {A} (Q : A → Prop) e : defensive e = false → safe Q (raise e).
Proof. intros H s Hs. done. Qed.

Lemma safe_timeout {A} (Q : A → Prop) : safe Q timeout.
Proof. intros s Hs. done. Qed.

Lemma safe_bind {A B} (m : M A) (k : A → M B) Q R :
  safe Q m → (∀ a, Q a → safe R (k a)) → safe R (bind m k).
Proof.
  intros Hm Hk s Hs. unfold bind. destruct (Hm s Hs) as [Hs1 Ha].
  destruct (m s) as [[a|e|] s1]; simpl in *; [|done..]. by apply Hk.
Qed.

Lemma safe_weaken {A} (m : M A) (Q R : A → Prop) :
  safe Q m → (∀ a, Q a → R a) → safe R m.
Proof.
  intros Hm HQ s Hs. destruct (Hm s Hs) as [Hs1 Ha]. split; [done|].
  destruct (m s).1; auto.
Qed.

Lemma safe_try_except {A} (m h : M A) Q :
  safe Q m → safe Q h → safe Q (try_except m h).
Proof.
  intros Hm Hh s Hs. unfold try_except. destruct (Hm s Hs) as [Hs1 Ha].
  destruct (m s) as [[a|e|] s1]; simpl in *; [done| |done]. by apply Hh.
Qed.

(** A step that leaves the environments and the instances as they are. *)
Lemma safe_same {A} (m : M A) (Q : A → Prop) :
  (∀ s, envs (m s).2 = envs s ∧ instances (m s).2 = instances s) →
  (∀ s, shaped_state s →
     match (m s).1 with
     | Ok a => Q a
     | Err e => defensive e = false
     | Timeout => True
     end) →
  safe Q m.
Proof.
  intros Hsame HQ s Hs. split; [|by apply HQ].
  destruct (Hsame s) as [He Hi]. destruct Hs as [H1 H2].
  split; [by rewrite He|by rewrite Hi].
Qed.

Lemma lookup_chain_from {A} (dict : Environment → gmap string A) undefined
    fuel es env name :
  match lookup_chain dict undefined fuel es env name with
  | Ok x => ∃ i e, es !! i = Some e ∧ dict e !! name = Some x
  | Err e => e = undefined
  | Timeout => True
  end.
Proof.
  revert env. induction fuel as [|n IH]; intros env; simpl; [done|].
  destruct (es !! env) as [e|] eqn:E; [|done].
  destruct (dict e !! name) as [x|] eqn:Ex; [by exists env, e|].
  destruct (parent e) as [p|]; [apply IH|done].
Qed.

Lemma safe_get_function env name :
  safe (λ fd, shaped_fd fd = true) (get_function env name).
Proof.
  apply safe_same; [done|]. intros s [Hs _]. unfold get_function. simpl.
  pose proof (lookup_chain_from functions (UndefinedFunction name)
                (length (envs s)) (envs s) env name) as H.
  destruct (lookup_chain _ _ _ _ _ _) as [fd|e|]; [|by subst|done].
  destruct H as (i & e & Hi & Hf).
  rewrite Forall_lookup in Hs. destruct (Hs _ _ Hi) as [Hfs _].
  exact (Hfs _ _ Hf).
Qed.

Lemma safe_get_class env name :
  safe (λ cd, shaped_cd cd = true) (get_class env name).
Proof.
  apply safe_same; [done|]. intros s [Hs _]. unfold get_class. simpl.
  pose proof (lookup_chain_from classes (UndefinedClass name)
                (length (envs s)) (envs s) env name) as H.
  destruct (lookup_chain _ _ _ _ _ _) as [cd|e|]; [|by subst|done].
  destruct H as (i & e & Hi & Hf).
  rewrite Forall_lookup in Hs. destruct (Hs _ _ Hi) as [_ Hcs].
  exact (Hcs _ _ Hf).
Qed.

Lemma safe_get_cell env name : safe (λ _, True) (get_cell env name).
Proof.
  apply safe_same; [done|]. intros s _. unfold get_cell. simpl.
  pose proof (lookup_chain_from variables (UndefinedVariable name)
                (length (envs s)) (envs s) env name) as H.
  destruct (lookup_chain _ _ _ _ _ _) as [cd|e|]; [done|by subst|done].
Qed.

Lemma safe_inst_of i :
  safe (λ I, shaped_cd (class_def I) = true) (inst_of i).
Proof.
  apply safe_same; [done|]. intros s [_ Hs]. simpl. unfold get_instance.
  destruct (instances s !! i) as [I|] eqn:E; simpl; [|done].
  rewrite Forall_lookup in Hs. exact (Hs _ _ E).
Qed.

Lemma safe_format_value fuel v : safe (λ _, True) (format_value fuel v).
Proof.
  apply safe_same; [done|]. intros s _. unfold format_value. simpl.
  destruct (py_str fuel s v) as [t|e|] eqn:E; try done.
  by rewrite (py_str_error _ _ _ _ E).
Qed.

Lemma safe_check_type ann v : safe (λ _, True) (check_type ann v).
Proof.
  apply safe_same.
  - intros s. destruct ann as [a|]; simpl; [|done].
    unfold bind. simpl. by case_decide.
  - intros s _. destruct ann as [a|]; simpl; [|done].
    unfold bind. simpl. by case_decide.
Qed.

Lemma shaped_env_variables f e : shaped_env e → shaped_env (with_variables f e).
Proof. done. Qed.

Lemma safe_define_variable env x v : safe (λ _, True) (define_variable env x v).
Proof.
  intros s [H1 H2]. rewrite define_variable_eq. simpl. split; [|done].
  split; [|done]. simpl. apply Forall_alter; [done|]. intros e _.
  apply shaped_env_variables.
Qed.

Lemma safe_define_variables env bs : safe (λ _, True) (define_variables env bs).
Proof.
  induction bs as [|[x v] bs IH]; simpl; [by apply safe_ret|].
  eapply safe_bind; [apply safe_define_variable|]. intros _ _. apply IH.
Qed.

Lemma safe_define_function env name fd :
  shaped_fd fd = true → safe (λ _, True) (define_function env name fd).
Proof.
  intros Hfd s [H1 H2]. split; [|done]. split; [|done]. simpl.
  apply Forall_alter; [done|]. intros e _ [Hf Hc]. split; [|done]. simpl.
  by apply map_Forall_insert_2.
Qed.

Lemma safe_define_class env name cd :
  shaped_cd cd = true → safe (λ _, True) (define_class env name cd).
Proof.
  intros Hcd s [H1 H2]. split; [|done]. split; [|done]. simpl.
  apply Forall_alter; [done|]. intros e _ [Hf Hc]. split; [done|]. simpl.
  by apply map_Forall_insert_2.
Qed.

Lemma safe_Environment_alloc p : safe (λ _, True) (Environment_alloc p).
Proof.
  intros s [H1 H2]. split; [|done]. split; [|done]. simpl.
  apply Forall_app. split; [done|].
  repeat constructor; apply map_Forall_empty.
Qed.

Lemma safe_Instance_alloc cd :
  shaped_cd cd = true → safe (λ _, True) (Instance_alloc cd).
Proof.
  intros Hcd s [H1 H2]. split; [|done]. split; [done|]. simpl.
  apply Forall_app. split; [done|]. by repeat constructor.
Qed.

Lemma safe_set_field i name l : safe (λ _, True) (set_field i name l).
Proof.
  intros s [H1 H2]. split; [|done]. split; [done|]. simpl.
  apply Forall_alter; [done|]. by intros inst _ Hi.
Qed.

Lemma safe_Cell_new v : safe (λ _, True) (Cell_new v).
Proof. by apply safe_same. Qed.

Lemma safe_write_cell l v : safe (λ _, True) (write_cell l v).
Proof. by apply safe_same. Qed.

Lemma safe_read_cell l : safe (λ _, True) (read_cell l).
Proof. by apply safe_same. Qed.

Lemma safe_unwrap v : safe (λ _, True) (_unwrap v).
Proof. by apply safe_same. Qed.

Lemma safe_type_name v : safe (λ _, True) (_type_name v).
Proof. by apply safe_same. Qed.

Lemma safe_cur_env : safe (λ _, True) cur_env.
Proof. by apply safe_same. Qed.

Lemma safe_init_fields i fs : safe (λ _, True) (init_fields i fs).
Proof.
  induction fs as [|f fs IH]; simpl; [by apply safe_ret|].
  eapply safe_bind; [apply safe_Cell_new|]. intros l _.
  eapply safe_bind; [apply safe_set_field|]. intros _ _. apply IH.
Qed.

Lemma safe_run_in (ev : node → M value) k body Q :
  safe Q (ev body) → safe Q (run_in ev k body).
Proof.
  intros Hev s Hs. rewrite run_in_eq. cbn [fst snd].
  destruct (Hev (set_current_env k s)) as [[H1 H2] Ha]; [exact Hs|].
  split; [|exact Ha]. split; [exact H1|exact H2].
Qed.

Lemma find_method_shaped cd name m :
  shaped_cd cd = true → _find_method cd name = Some m → shaped_fd m = true.
Proof.
  destruct cd as [c fs ms]. simpl. unfold _find_method. simpl.
  intros H Hm. apply find_some in Hm as [Hin _].
  rewrite forallb_forall in H. by apply H.
Qed.

Lemma shaped_fd_body fd : shaped_fd fd = true → shaped (fd_body fd) = true.
Proof. destruct fd as [f ps b]. simpl. by intros [_ ?]%andb_true_iff. Qed.

Lemma forallb_expression_shaped args :
  forallb (λ e, is_expression e && shaped e) args = true →
  forallb shaped args = true.
Proof.
  rewrite !forallb_forall. intros H x Hx.
  specialize (H x Hx). apply andb_true_iff in H. tauto.
Qed.

Ltac shape_split :=
  unfold expression_shaped in *; cbv beta in *;
  repeat match goal with
         | H : _ && _ = true |- _ => apply andb_true_iff in H; destruct H
         end.

Ltac shape_fact :=
  shape_split;
  first
    [ assumption
    | apply shaped_fd_body; first [assumption | eapply find_method_shaped; eassumption]
    | apply forallb_expression_shaped; assumption ].

Ltac safe_prim :=
  first
    [ apply safe_ret; solve [done]
    | apply safe_raise; reflexivity
    | apply safe_timeout
    | apply safe_get_function | apply safe_get_class | apply safe_get_cell
    | apply safe_inst_of | apply safe_format_value | apply safe_check_type
    | apply safe_define_variable | apply safe_define_variables
    | apply safe_define_function; solve [shape_fact]
    | apply safe_define_class; solve [shape_fact]
    | apply safe_Environment_alloc
    | apply safe_Instance_alloc; solve [shape_fact]
    | apply safe_set_field | apply safe_init_fields
    | apply safe_Cell_new | apply safe_write_cell | apply safe_read_cell
    | apply safe_unwrap | apply safe_type_name | apply safe_cur_env ].

Lemma safe_self_cell_or name : safe (λ _, True) (self_cell_or name).
Proof.
  unfold self_cell_or. apply safe_try_except; [|by apply safe_raise].
  eapply safe_bind; [apply safe_cur_env|]. intros env _. apply safe_get_cell.
Qed.

Ltac safe_branch :=
  first
    [ apply safe_try_except
    | case_decide
    | match goal with
      | |- safe _ (match ?x with _ => _ end) => destruct x eqn:?; simpl
      end ].

Ltac safe_go0 :=
  repeat first
    [ safe_prim
    | apply safe_self_cell_or
    | eapply safe_bind; [first [safe_prim | apply safe_self_cell_or] | intros ? ?]
    | safe_branch ].

Lemma safe_assign_field i fname v : safe (λ _, True) (assign_field i fname v).
Proof. unfold assign_field. safe_go0. Qed.

Lemma safe_visit_Identifier name : safe (λ _, True) (visit_Identifier name).
Proof. unfold visit_Identifier. safe_go0. Qed.

Lemma safe_visit_RefExpr x : safe (λ _, True) (visit_RefExpr x).
Proof. unfold visit_RefExpr. safe_go0. Qed.

Lemma safe_visit_DerefExpr x : safe (λ _, True) (visit_DerefExpr x).
Proof. unfold visit_DerefExpr. safe_go0. Qed.

Lemma safe_visit_FunctionDef fd :
  shaped (FunctionDefNode fd) = true → safe (λ _, True) (visit_FunctionDef fd).
Proof. simpl. intros H. unfold visit_FunctionDef. safe_go0. Qed.

Lemma safe_visit_ClassDef cd :
  shaped (ClassDefNode cd) = true → safe (λ _, True) (visit_ClassDef cd).
Proof. simpl. intros H. unfold visit_ClassDef. safe_go0. Qed.

Section visitors_safe.
Variable ev : node → M value.
Hypothesis ev_safe : ∀ n, shaped n = true → safe (λ _, True) (ev n).

Lemma safe_visit_all args :
  forallb shaped args = true → safe (λ _, True) (visit_all ev args).
Proof using ev_safe.
  induction args as [|a args IH]; simpl; intros H; [by apply safe_ret|].
  apply andb_true_iff in H as [Ha Hargs].
  eapply safe_bind; [by apply ev_safe|]. intros v _.
  eapply safe_bind; [by apply IH|]. intros vs _. by apply safe_ret.
Qed.

Lemma safe_visit_statements stmts last :
  forallb shaped stmts = true →
  safe (λ _, True) (visit_statements ev stmts last).
Proof using ev_safe.
  revert last. induction stmts as [|a stmts IH]; simpl; intros last H;
    [by apply safe_ret|].
  apply andb_true_iff in H as [Ha Hs].
  eapply safe_bind; [by apply ev_safe|]. intros v _. by apply IH.
Qed.

Ltac safe_step :=
  first
    [ safe_prim
    | apply safe_self_cell_or
    | apply safe_assign_field
    | apply ev_safe; solve [shape_fact]
    | apply safe_visit_all; solve [shape_fact]
    | apply safe_visit_statements; solve [shape_fact]
    | apply safe_run_in; apply ev_safe; solve [shape_fact] ].

Ltac safe_go :=
  repeat first
    [ safe_step
    | eapply safe_bind; [safe_step | intros ? ?]
    | safe_branch ].

Lemma safe_visit_BinaryOp l op r :
  shaped (BinaryOp l op r) = true → safe (λ _, True) (visit_BinaryOp ev l op r).
Proof using ev_safe.
  simpl. intros H. shape_split. unfold visit_BinaryOp.
  destruct op; try discriminate; safe_go.
Qed.

Lemma safe_visit_Comparison l op r :
  shaped (Comparison l op r) = true →
  safe (λ _, True) (visit_Comparison ev l op r).
Proof using ev_safe.
  simpl. intros H. shape_split.
  match goal with
  | H : bool_decide _ = true |- _ => apply bool_decide_eq_true in H; subst op
  end.
  unfold visit_Comparison. safe_go.
Qed.

Lemma safe_visit_IfExpr c t f :
  shaped (IfExpr c t f) = true → safe (λ _, True) (visit_IfExpr ev c t f).
Proof using ev_safe.
  simpl. intros H. shape_split. unfold visit_IfExpr. safe_go.
Qed.

Lemma safe_visit_LetStatement k x ann e :
  shaped (LetStatement x ann e) = true →
  safe (λ _, True) (visit_LetStatement ev k x ann e).
Proof using ev_safe.
  simpl. intros H. shape_split. unfold visit_LetStatement. safe_go.
Qed.

Lemma safe_visit_LetExpression x ann e b :
  shaped (LetExpression x ann e b) = true →
  safe (λ _, True) (visit_LetExpression ev x ann e b).
Proof using ev_safe.
  simpl. intros H. shape_split. unfold visit_LetExpression. safe_go.
Qed.

Lemma safe_visit_FunctionCall f args :
  shaped (FunctionCall f args) = true →
  safe (λ _, True) (visit_FunctionCall ev f args).
Proof using ev_safe.
  simpl. intros H. unfold visit_FunctionCall. safe_go.
Qed.

Lemma safe_visit_Block stmts :
  shaped (Block stmts) = true → safe (λ _, True) (visit_Block ev stmts).
Proof using ev_safe.
  simpl. intros H. unfold visit_Block. safe_go.
Qed.

Lemma safe_visit_RefAssign r e :
  shaped (RefAssign r e) = true → safe (λ _, True) (visit_RefAssign ev r e).
Proof using ev_safe.
  simpl. intros H. shape_split. unfold visit_RefAssign. safe_go.
Qed.

Lemma safe_visit_NewExpr c args :
  shaped (NewExpr c args) = true → safe (λ _, True) (visit_NewExpr ev c args).
Proof using ev_safe.
  simpl. intros H. unfold visit_NewExpr. safe_go.
Qed.

Lemma safe_visit_MemberAccess o m :
  shaped (MemberAccess o m) = true →
  safe (λ _, True) (visit_MemberAccess ev o m).
Proof using ev_safe.
  simpl. intros H. shape_split. unfold visit_MemberAccess. safe_go.
Qed.

Lemma safe_visit_MethodCall o m args :
  shaped (MethodCall o m args) = true →
  safe (λ _, True) (visit_MethodCall ev o m args).
Proof using ev_safe.
  simpl. intros H. shape_split. unfold visit_MethodCall. safe_go.
Qed.

Lemma safe_visit_Assign t e :
  shaped (Assign t e) = true → safe (λ _, True) (visit_Assign ev t e).
Proof using ev_safe.
  simpl. intros H. shape_split. unfold visit_Assign.
  destruct t; try discriminate; simpl in *; shape_split; safe_go.
Qed.
End visitors_safe.

Lemma safe_visit fuel : ∀ n, shaped n = true → safe (λ _, True) (visit fuel n).
Proof.
  induction fuel as [|k IH]; intros n Hn; [apply safe_timeout|].
  destruct n; cbn [visit];
    eauto using safe_ret, safe_visit_Identifier, safe_visit_BinaryOp,
      safe_visit_Comparison, safe_visit_IfExpr, safe_visit_LetStatement,
      safe_visit_LetExpression, safe_visit_FunctionDef, safe_visit_FunctionCall,
      safe_visit_Block, safe_visit_RefExpr, safe_visit_DerefExpr,
      safe_visit_RefAssign, safe_visit_ClassDef, safe_visit_NewExpr,
      safe_visit_MemberAccess, safe_visit_MethodCall, safe_visit_Assign.
Qed.

Lemma safe_interpret fuel n :
  shaped n = true → safe (λ _, True) (interpret fuel n).
Proof.
  intros Hn. unfold interpret.
  eapply safe_bind; [by apply safe_visit|]. intros v _. apply safe_unwrap.
Qed.

Lemma session_shaped s : session s → shaped_state s.
Proof.
  induction 1 as [|s pf toks n fuel Hs IH Hp]; [apply shaped_state_init|].
  apply safe_interpret; [|done]. by eapply parse_shaped.
Qed.

(** X20: three errors of the evaluator are out of reach of parsed programs.
    In a session that evaluates only trees returned by the parser, no
    evaluation raises the invalid-assignment-target error of [visit_Assign],
    the unknown-operator error of [visit_BinaryOp] or the unknown-operator
    error of [visit_Comparison]: the trees, the stored declarations and the
    classes of the instances stay shaped, whatever the outcome of each
    evaluation. *)
Theorem X20_defensive_errors_unreachable s pf toks n fuel e :
  session s → Parser.parse pf toks = Parser.POk n →
  (interpret fuel n s).1 = Err e →
  e ≠ InvalidAssignTarget ∧
  (∀ op, e ≠ UnknownBinaryOperator op) ∧
  (∀ op, e ≠ UnknownComparisonOperator op).
Proof.
  intros Hs Hp He.
  destruct (safe_interpret fuel n (parse_shaped _ _ _ Hp) s (session_shaped s Hs))
    as [_ H].
  rewrite He in H. by destruct e.
Qed.

Lemma X20_witness :
  UndefinedVariable "x" ≠ InvalidAssignTarget ∧
  (∀ op, UndefinedVariable "x" ≠ UnknownBinaryOperator op) ∧
  (∀ op, UndefinedVariable "x" ≠ UnknownComparisonOperator op).
Proof.
  apply (X20_defensive_errors_unreachable init_state 2 tokens_name
           (Identifier "x") 2).
  - apply session_start.
  - reflexivity.
  - reflexivity.
Defined.
